(** * VR-Human: the facial-animation blending engine

    A shallow embedding of the text-to-viseme timeline generator of
    [server.js] ([generatePhonemeData]) and of the lip-sync controller and
    per-frame morph-target compositor of [public/app.js].

    Numbers are JavaScript numbers, i.e. IEEE-754 binary64 values: they are
    modelled by Rocq's primitive floats, whose operations round exactly as
    the JavaScript ones do.  Strings are sequences of code units; the model
    covers code units below 256 (the [ascii] type read as Latin-1). *)

From Stdlib Require Import Floats ZArith List Bool Ascii String Lia.
From stdpp Require Import gmap strings.

Set Warnings "-inexact-float".

(** ** JavaScript number helpers *)

Module JS.

(** Truthiness of a number: every number except [0], [-0] and [NaN]. *)
Definition truthy (x : float) : bool :=
  negb (PrimFloat.is_nan x) && negb (PrimFloat.is_zero x).

(** [x || d] for a number [x]. *)
Definition or_else (x d : float) : float := if truthy x then x else d.

(** [Math.max(a, b)]: [NaN] when an operand is [NaN]; [+0] is larger
    than [-0]. *)
Definition Math_max (a b : float) : float :=
  if PrimFloat.is_nan a || PrimFloat.is_nan b then nan
  else if (a <? b)%float then b
  else if (b <? a)%float then a
  else if PrimFloat.get_sign a then b else a.

(** [Math.min(a, b)]: [NaN] when an operand is [NaN]; [-0] is smaller
    than [+0]. *)
Definition Math_min (a b : float) : float :=
  if PrimFloat.is_nan a || PrimFloat.is_nan b then nan
  else if (a <? b)%float then a
  else if (b <? a)%float then b
  else if PrimFloat.get_sign a then a else b.

Definition Math_abs (a : float) : float := PrimFloat.abs a.

Definition Math_PI : float := 3.141592653589793%float.

(** *** Code units, character classes and case folding *)

Definition code (c : ascii) : nat := nat_of_ascii c.

(** [a-z] *)
Definition is_lower (c : ascii) : bool :=
  (97 <=? code c) && (code c <=? 122).

(** [\s] restricted to code units below 256: TAB, LF, VT, FF, CR, space
    and the no-break space. *)
Definition is_space (c : ascii) : bool :=
  ((9 <=? code c) && (code c <=? 13)) || (code c =? 32) || (code c =? 160).

(** ['aeiou'.includes(c)] for a one-character string [c]. *)
Definition is_vowel (c : ascii) : bool :=
  existsb (Ascii.eqb c) ["a";"e";"i";"o";"u"]%char.

(** [String.prototype.toLowerCase] on one code unit below 256: the
    letters A-Z and the Latin-1 capitals (all but the multiplication
    sign) move up by 32. *)
Definition toLowerCase_unit (c : ascii) : ascii :=
  let n := code c in
  if ((65 <=? n) && (n <=? 90))
     || ((192 <=? n) && (n <=? 222) && negb (n =? 215))
  then ascii_of_nat (n + 32) else c.

Definition toLowerCase (s : list ascii) : list ascii := map toLowerCase_unit s.

(** Lookup in an object literal used as a table ([T[key]]): the first
    entry with that key, [None] for [undefined]. *)
Fixpoint table_get {A} (t : list (string * A)) (key : string) : option A :=
  match t with
  | [] => None
  | (k, v) :: t' => if String.eqb k key then Some v else table_get t' key
  end.

(** [key in T] for such a table. *)
Definition table_has {A} (t : list (string * A)) (key : string) : bool :=
  match table_get t key with Some _ => true | None => false end.

(** The names that every object literal inherits from [Object.prototype]:
    [name in obj] holds for them whatever the keys of [obj] are, and
    [obj[name]] is a function (the prototype itself for [__proto__]) unless
    [obj] has a key [name] of its own. *)
Definition OBJECT_PROTOTYPE : list string :=
  [ "constructor"; "__defineGetter__"; "__defineSetter__"; "hasOwnProperty";
    "__lookupGetter__"; "__lookupSetter__"; "isPrototypeOf";
    "propertyIsEnumerable"; "toString"; "valueOf"; "__proto__";
    "toLocaleString" ]%string.

Definition inherited (name : string) : bool :=
  existsb (String.eqb name) OBJECT_PROTOTYPE.




End JS.

(** ** Data shared by server and client: the phoneme timeline *)

Record Phoneme := mkPhoneme {
  viseme : string;
  time : float;
  duration : float;
  intensity : float
}.

Record PhonemeData := mkPhonemeData {
  phonemes : list Phoneme;
  totalDuration : float
}.

(** ** server.js: the timeline generator *)

Module Server.
Import JS.

Definition CHAR_TO_VISEME : list (string * string) :=
  [ ("th", "viseme_TH"); ("ch", "viseme_CH"); ("sh", "viseme_CH");
    ("ng", "viseme_nn"); ("wh", "viseme_U"); ("ph", "viseme_FF");
    ("ck", "viseme_kk"); ("qu", "viseme_kk");
    ("a", "viseme_aa"); (String "225"%char "", "viseme_aa");
    ("e", "viseme_E"); (String "233"%char "", "viseme_E");
    ("i", "viseme_I"); (String "237"%char "", "viseme_I");
    ("o", "viseme_O"); (String "243"%char "", "viseme_O");
    ("u", "viseme_U"); (String "250"%char "", "viseme_U");
    ("b", "viseme_PP"); ("p", "viseme_PP"); ("m", "viseme_PP");
    ("f", "viseme_FF"); ("v", "viseme_FF");
    ("t", "viseme_DD"); ("d", "viseme_DD"); ("n", "viseme_nn");
    ("l", "viseme_DD");
    ("k", "viseme_kk"); ("g", "viseme_kk"); ("q", "viseme_kk");
    ("c", "viseme_kk");
    ("s", "viseme_SS"); ("z", "viseme_SS"); ("x", "viseme_SS");
    ("r", "viseme_RR");
    ("j", "viseme_CH"); ("y", "viseme_CH");
    ("w", "viseme_U");
    ("h", "viseme_CH") ]%string.

Definition BASE_CHAR_DURATION : float := 0.06%float.
Definition WORD_GAP : float := 0.07%float.
Definition COMMA_PAUSE : float := 0.2%float.
Definition PERIOD_PAUSE : float := 0.35%float.
Definition EXCLAIM_PAUSE : float := 0.3%float.
Definition QUESTION_PAUSE : float := 0.3%float.

(** *** Character classes of the regular expressions *)

(** [[.,!?;:]] *)
Definition is_punct (c : ascii) : bool :=
  existsb (Ascii.eqb c) [".";",";"!";"?";";";":"]%char.

(** [[a-z\s.,!?;:'-]], the characters the first [replace] keeps. *)
Definition is_permitted (c : ascii) : bool :=
  is_lower c || is_space c || is_punct c
  || Ascii.eqb c "'"%char || Ascii.eqb c "-"%char.

(** [[a-z'-]], the characters the second [replace] keeps. *)
Definition is_word_char (c : ascii) : bool :=
  is_lower c || Ascii.eqb c "'"%char || Ascii.eqb c "-"%char.

(** [s.split(/\s+/)]: tokens between maximal runs of white space; a run at
    either end of the text leaves an empty token there.  [cur] is the token
    being read, [in_ws] tells that the previous unit was white space. *)
Fixpoint split_ws_from (s cur : list ascii) (in_ws : bool) : list (list ascii) :=
  match s with
  | [] => [cur]
  | c :: s' =>
      if is_space c then
        if in_ws then split_ws_from s' cur true
        else cur :: split_ws_from s' [] true
      else split_ws_from s' (cur ++ [c]) false
  end.

Definition split_ws (s : list ascii) : list (list ascii) :=
  split_ws_from s [] false.

(** The longest prefix of [s] whose units satisfy [p]. *)
Fixpoint take_while (p : ascii -> bool) (s : list ascii) : list ascii :=
  match s with
  | c :: s' => if p c then c :: take_while p s' else []
  | [] => []
  end.

(** The first capture of [rawWord.match(/([.,!?;:]+)$/)]: the longest
    suffix of punctuation marks, empty when there is no match. *)
Definition trailing_punct (rawWord : list ascii) : list ascii :=
  rev (take_while is_punct (rev rawWord)).

(** [punct.includes(c)] for a one-character string [c]. *)
Definition includes (c : ascii) (punct : list ascii) : bool :=
  existsb (Ascii.eqb c) punct.

Definition pauseDuration (punct : list ascii) : float :=
  if includes "."%char punct then PERIOD_PAUSE
  else if includes "!"%char punct then EXCLAIM_PAUSE
  else if includes "?"%char punct then QUESTION_PAUSE
  else if includes ","%char punct then COMMA_PAUSE
  else WORD_GAP.

Definition silence (currentTime pause : float) : Phoneme :=
  {| viseme := "viseme_sil"; time := currentTime; duration := pause;
     intensity := 0%float |}.

(** The loop state: the [phonemes] array and the clock [currentTime]. *)
Definition GenState : Type := list Phoneme * float.

(** [word.substr(i, 2)] when [i < word.length - 1], else the empty string;
    [w] is the word from position [i] on. *)
Definition digraph_at (w : list ascii) : string :=
  match w with
  | c :: c2 :: _ => String c (String c2 "")
  | _ => ""%string
  end.

(** [CHAR_TO_VISEME[digraph] || CHAR_TO_VISEME[char]] *)
Definition viseme_at (w : list ascii) : option string :=
  match w with
  | [] => None
  | c :: _ =>
      match JS.table_get CHAR_TO_VISEME (digraph_at w) with
      | Some v => Some v
      | None => JS.table_get CHAR_TO_VISEME (String c "")
      end
  end.

(** The duration of the event of a character [c] followed by [next]. *)
Definition char_duration (c : ascii) (next : option ascii) : float :=
  let duration :=
    if is_vowel c then (BASE_CHAR_DURATION * 1.2)%float
    else (BASE_CHAR_DURATION * 0.9)%float in
  match next with
  | Some n =>
      if is_vowel c && negb (is_vowel n) then (duration * 1.15)%float
      else duration
  | None => duration
  end.

Definition char_intensity (c : ascii) (wordEmphasis : float) : float :=
  JS.Math_min 1 ((if is_vowel c then 0.75 else 0.5) * wordEmphasis)%float.

(** The inner [for] loop over the characters of [word], from position [i]
    on ([w] is [word] from [i]). *)
Fixpoint scan_chars (wordEmphasis : float) (w : list ascii) (st : GenState)
  : GenState :=
  match w with
  | [] => st
  | c :: rest =>
      let '(phs, currentTime) := st in
      match viseme_at w with
      | Some v =>
          let ph := {| viseme := v; time := currentTime;
                       duration := char_duration c (head rest);
                       intensity := char_intensity c wordEmphasis |} in
          let st' := (phs ++ [ph], (currentTime + BASE_CHAR_DURATION)%float) in
          match rest with
          | [] => st'
          | _ :: rest2 =>
              if JS.table_has CHAR_TO_VISEME (digraph_at w)
              then scan_chars wordEmphasis rest2 st'
              else scan_chars wordEmphasis rest st'
          end
      | None =>
          scan_chars wordEmphasis rest
            (phs, (currentTime + BASE_CHAR_DURATION)%float)
      end
  end.

Definition push_silence (punct : list ascii) (st : GenState) : GenState :=
  let '(phs, currentTime) := st in
  let pause := if negb (Nat.eqb (length punct) 0) then pauseDuration punct
               else WORD_GAP in
  (phs ++ [silence currentTime pause], (currentTime + pause)%float).

(** One iteration of the outer loop, for the token [rawWord] at index
    [wi]. *)
Definition process_word (wi : nat) (rawWord : list ascii) (st : GenState)
  : GenState :=
  let punct := trailing_punct rawWord in
  let word := List.filter is_word_char rawWord in
  match word with
  | [] =>
      if negb (Nat.eqb (length punct) 0) then push_silence punct st else st
  | _ =>
      let wordEmphasis := if Nat.eqb wi 0 then 1.1%float else 1.0%float in
      push_silence punct (scan_chars wordEmphasis word st)
  end.

Fixpoint loop_words (wi : nat) (words : list (list ascii)) (st : GenState)
  : GenState :=
  match words with
  | [] => st
  | rawWord :: words' =>
      loop_words (S wi) words' (process_word wi rawWord st)
  end.

(** [text.toLowerCase().replace(/[^a-z\s.,!?;:'-]/g, '').split(/\s+/)] *)
Definition words_of (text : string) : list (list ascii) :=
  split_ws (List.filter is_permitted (toLowerCase (list_ascii_of_string text))).

Definition generatePhonemeData (text : string) : PhonemeData :=
  let '(phs, currentTime) := loop_words 0 (words_of text) ([], 0%float) in
  {| phonemes := phs; totalDuration := currentTime |}.

(** *** [callWithRetry] *)

(** What an awaited call does: it returns a value or throws an error,
    whose [status] property, if any, is a number. *)
Inductive Outcome (A : Type) :=
| Returned (a : A)
| Threw (status : option Z).
Arguments Returned {A} a.
Arguments Threw {A} status.

(** [Math.min(1000 * Math.pow(2, attempt), 30000)], in milliseconds. *)
Definition retry_delay (attempt : nat) : Z :=
  Z.min (1000 * 2 ^ Z.of_nat attempt) 30000.

Definition is_rate_limit (status : option Z) : bool :=
  match status with
  | Some n => Z.eqb n 429
  | None => false
  end.

(** The loop of [callWithRetry] from [attempt] on, with
    [remaining = maxRetries - attempt]; [fn k] is what the call of [fn] in
    attempt [k] does.  The result is what the function returns or throws,
    with the delays it has waited for. *)
Fixpoint retry_loop {A} (fn : nat -> Outcome A) (attempt remaining : nat)
  {struct remaining} : Outcome A * list Z :=
  match fn attempt with
  | Returned a => (Returned a, [])
  | Threw status =>
      match remaining with
      | S remaining' =>
          if is_rate_limit status then
            let '(o, delays) := retry_loop fn (S attempt) remaining' in
            (o, retry_delay attempt :: delays)
          else (Threw status, [])
      | O => (Threw status, [])
      end
  end.

Definition callWithRetry {A} (fn : nat -> Outcome A) (maxRetries : nat)
  : Outcome A * list Z :=
  retry_loop fn 0 maxRetries.


End Server.

(** ** public/app.js: morph targets, lip-sync controller, compositor *)

Module Client.
Import JS.

(** Operations of the JavaScript runtime that primitive floats do not
    provide; [Math.sin] and [Math.exp] are left to the implementation by
    the language as well. *)
Class Runtime := {
  Math_sin : float -> float;
  Math_exp : float -> float;
  Math_floor : float -> float;
  js_rem : float -> float -> float
}.

(** three.js: [MathUtils.lerp] and [MathUtils.clamp]. *)
Definition lerp (x y t : float) : float := ((1 - t) * x + t * y)%float.

Definition clamp (value lo hi : float) : float :=
  Math_max lo (Math_min hi value).

(** [a[i]] for an array [a] and a number [i]. *)
Fixpoint array_get_from {A} (a : list A) (k i : float) : option A :=
  match a with
  | [] => None
  | x :: a' => if (i =? k)%float then Some x else array_get_from a' (k + 1)%float i
  end.

Definition array_get {A} (a : list A) (i : float) : option A :=
  array_get_from a 0%float i.

(** *** The rig: the morph targets the loaded avatar has *)

(** [meshMorphNames] is the union of the names of the morph targets of
    the avatar's meshes, [None] as long as no mesh with morph targets is
    loaded. *)
Record Rig := {
  meshMorphNames : option (gset string);
  hasOculusVisemes : bool;
  hasARKitMorphs : bool
}.

(** The keys of [morphDict]: the loader starts from [{}] and adds a name of
    a mesh unless [name in morphDict] holds already, which it does for the
    names that every object inherits; these never become keys. *)
Definition morphDict (rig : Rig) : option (gset string) :=
  match meshMorphNames rig with
  | Some names => Some (filter (fun name => inherited name = false) names)
  | None => None
  end.

(** [name in morphDict], for the keys [d] of [morphDict]: a key, or a name
    found on the prototype chain. *)
Definition in_dict (d : gset string) (name : string) : bool :=
  bool_decide (name ∈ d) || inherited name.

(** [detectMorphCapabilities], once the loader has built [morphDict] from
    the names [d] of the meshes; [Object.keys] gives the keys only. *)
Definition detectMorphCapabilities (d : gset string) : Rig :=
  let keys := elements (filter (fun name => inherited name = false) d) in
  {| meshMorphNames := Some d;
     hasOculusVisemes :=
       existsb (fun k => String.prefix "viseme_" k) keys;
     hasARKitMorphs :=
       existsb (fun k => String.eqb k "jawOpen" || String.eqb k "mouthSmileLeft")
               keys |}.

Definition OCULUS_VISEMES : list string :=
  [ "viseme_sil"; "viseme_PP"; "viseme_FF"; "viseme_TH"; "viseme_DD";
    "viseme_kk"; "viseme_CH"; "viseme_SS"; "viseme_nn"; "viseme_RR";
    "viseme_aa"; "viseme_E"; "viseme_I"; "viseme_O"; "viseme_U" ]%string.

Definition VISEME_TO_ARKIT : list (string * list (string * float)) :=
  [ ("viseme_sil", []);
    ("viseme_aa", [("jawOpen", 0.75); ("mouthFunnel", 0.2)]);
    ("viseme_E", [("jawOpen", 0.22); ("mouthSmileLeft", 0.35);
                  ("mouthSmileRight", 0.35); ("mouthStretchLeft", 0.25);
                  ("mouthStretchRight", 0.25)]);
    ("viseme_I", [("jawOpen", 0.1); ("mouthSmileLeft", 0.5);
                  ("mouthSmileRight", 0.5)]);
    ("viseme_O", [("jawOpen", 0.55); ("mouthFunnel", 0.65);
                  ("mouthPucker", 0.3)]);
    ("viseme_U", [("jawOpen", 0.12); ("mouthPucker", 0.75);
                  ("mouthFunnel", 0.45)]);
    ("viseme_PP", [("mouthClose", 0.85); ("mouthPressLeft", 0.55);
                   ("mouthPressRight", 0.55)]);
    ("viseme_FF", [("jawOpen", 0.06); ("mouthRollLower", 0.35);
                   ("mouthUpperUpLeft", 0.2); ("mouthUpperUpRight", 0.2)]);
    ("viseme_TH", [("jawOpen", 0.15); ("tongueOut", 0.55);
                   ("mouthLowerDownLeft", 0.08); ("mouthLowerDownRight", 0.08)]);
    ("viseme_DD", [("jawOpen", 0.18); ("tongueOut", 0.12); ("mouthClose", 0.08)]);
    ("viseme_kk", [("jawOpen", 0.28); ("mouthFunnel", 0.08);
                   ("mouthShrugUpper", 0.08)]);
    ("viseme_CH", [("jawOpen", 0.12); ("mouthPucker", 0.45);
                   ("mouthFunnel", 0.2)]);
    ("viseme_SS", [("jawOpen", 0.06); ("mouthStretchLeft", 0.3);
                   ("mouthStretchRight", 0.3); ("mouthClose", 0.12)]);
    ("viseme_nn", [("jawOpen", 0.05); ("mouthClose", 0.12); ("tongueOut", 0.06)]);
    ("viseme_RR", [("jawOpen", 0.18); ("mouthPucker", 0.22);
                   ("mouthFunnel", 0.12); ("mouthRollLower", 0.1)]) ]%float%string.

(** *** The target accumulator [morphTargetTarget] *)

Abbreviation Targets := (gmap string float).

(** [morphTargetTarget[name] || 0], as a number: the value stored under
    [name]; without one, what the accumulator inherits under that name, a
    function or an object, which is truthy and [NaN] as a number; else
    [undefined || 0]. *)
Definition target_or_zero (T : Targets) (name : string) : float :=
  match T !! name with
  | Some x => or_else x 0%float
  | None => if inherited name then nan else 0%float
  end.

(** [morphTargetTarget[name] = x] for a number [x]: an assignment to
    [__proto__] of a value that is no object does nothing. *)
Definition assign (name : string) (x : float) (T : Targets) : Targets :=
  if String.eqb name "__proto__" then T else <[name := x]> T.

Definition setMorph (rig : Rig) (name : string) (value : float) (T : Targets)
  : Targets :=
  match morphDict rig with
  | None => T
  | Some d =>
      if in_dict d name
      then assign name (Math_max (target_or_zero T name) value) T
      else T
  end.

Definition resetMorphTargets (T : Targets) : Targets :=
  (fun _ => 0%float) <$> T.

(** [applyViseme].  [VISEME_TO_ARKIT[visemeName]] for an inherited name is
    a function or an object without enumerable properties of its own:
    [Object.entries] gives no entry, as for a viseme without a mapping. *)
Definition applyViseme (rig : Rig) (visemeName : string) (intensity : float)
  (T : Targets) : Targets :=
  match morphDict rig with
  | None => T
  | Some d =>
      if hasOculusVisemes rig && in_dict d visemeName
      then setMorph rig visemeName intensity T
      else if hasARKitMorphs rig then
        match table_get VISEME_TO_ARKIT visemeName with
        | Some mapping =>
            fold_left (fun T' mw => setMorph rig (fst mw) (snd mw * intensity)%float T')
                      mapping T
        | None => T
        end
      else T
  end.

(** *** Lip-sync state *)

Inductive LipSyncMode := none | realtime | timeline | fallback.

Record WordViseme := {
  w_viseme : string;
  w_duration : float;
  w_intensity : float
}.

(** The lip-sync globals; [speakingUI] stands for the speaking display
    that [showSpeakingUI] and [hideSpeakingUI] switch. *)
Record LipSync := {
  isSpeaking : bool;
  lipSyncMode : LipSyncMode;
  currentPhonemes : option PhonemeData;
  lipSyncStartTime : float;
  lipSyncAnimFrame : option nat;
  talkGesturePhase : float;
  wordVisemeQueue : list WordViseme;
  wordVisemeStart : float;
  speakingUI : bool
}.

Definition stopLipSync (s : LipSync) : LipSync :=
  {| isSpeaking := false;
     lipSyncMode := none;
     currentPhonemes := currentPhonemes s;
     lipSyncStartTime := lipSyncStartTime s;
     lipSyncAnimFrame := None;
     talkGesturePhase := 0%float;
     wordVisemeQueue := [];
     wordVisemeStart := wordVisemeStart s;
     speakingUI := false |}.

(** [animateTalkingBody], as far as the lip-sync globals go: the phase of
    the talking gestures advances; the bones are set from it. *)
Definition animateTalkingBody (time delta : float) (s : LipSync) : LipSync :=
  {| isSpeaking := isSpeaking s;
     lipSyncMode := lipSyncMode s;
     currentPhonemes := currentPhonemes s;
     lipSyncStartTime := lipSyncStartTime s;
     lipSyncAnimFrame := lipSyncAnimFrame s;
     talkGesturePhase := (talkGesturePhase s + delta)%float;
     wordVisemeQueue := wordVisemeQueue s;
     wordVisemeStart := wordVisemeStart s;
     speakingUI := speakingUI s |}.

Definition startLipSyncFromTimeline (now : float) (phonemeData : option PhonemeData)
  (s : LipSync) : LipSync :=
  let s := stopLipSync s in
  {| isSpeaking := true;
     lipSyncMode := timeline;
     currentPhonemes := phonemeData;
     lipSyncStartTime := now;
     lipSyncAnimFrame := lipSyncAnimFrame s;
     talkGesturePhase := 0%float;
     wordVisemeQueue := wordVisemeQueue s;
     wordVisemeStart := wordVisemeStart s;
     speakingUI := true |}.

Definition startRealtimeLipSync (s : LipSync) : LipSync :=
  let s := stopLipSync s in
  {| isSpeaking := true;
     lipSyncMode := realtime;
     currentPhonemes := currentPhonemes s;
     lipSyncStartTime := lipSyncStartTime s;
     lipSyncAnimFrame := lipSyncAnimFrame s;
     talkGesturePhase := 0%float;
     wordVisemeQueue := [];
     wordVisemeStart := wordVisemeStart s;
     speakingUI := true |}.

Definition startLipSyncFallback (now : float) (s : LipSync) : LipSync :=
  let s := stopLipSync s in
  {| isSpeaking := true;
     lipSyncMode := fallback;
     currentPhonemes := currentPhonemes s;
     lipSyncStartTime := now;
     lipSyncAnimFrame := lipSyncAnimFrame s;
     talkGesturePhase := 0%float;
     wordVisemeQueue := wordVisemeQueue s;
     wordVisemeStart := wordVisemeStart s;
     speakingUI := true |}.

(** *** [wordToVisemes] *)

Definition CHAR_VISEME : list (string * string) :=
  [ ("th", "viseme_TH"); ("ch", "viseme_CH"); ("sh", "viseme_CH");
    ("ng", "viseme_nn"); ("wh", "viseme_U"); ("ph", "viseme_FF");
    ("a", "viseme_aa"); ("e", "viseme_E"); ("i", "viseme_I");
    ("o", "viseme_O"); ("u", "viseme_U");
    ("b", "viseme_PP"); ("p", "viseme_PP"); ("m", "viseme_PP");
    ("f", "viseme_FF"); ("v", "viseme_FF");
    ("t", "viseme_DD"); ("d", "viseme_DD"); ("n", "viseme_nn");
    ("l", "viseme_DD");
    ("k", "viseme_kk"); ("g", "viseme_kk"); ("c", "viseme_kk");
    ("s", "viseme_SS"); ("z", "viseme_SS");
    ("r", "viseme_RR"); ("j", "viseme_CH"); ("y", "viseme_CH");
    ("w", "viseme_U"); ("h", "viseme_CH") ]%string.

Definition BASE : float := 0.075%float.

(** The loop of [wordToVisemes] from position [i] on ([w] is the cleaned
    word from [i]). *)
Fixpoint word_loop (w : list ascii) (result : list WordViseme) : list WordViseme :=
  match w with
  | [] => result
  | c :: rest =>
      let di := match rest with
                | c2 :: _ => String c (String c2 "")
                | [] => ""%string
                end in
      let vis := match table_get CHAR_VISEME di with
                 | Some v => Some v
                 | None => table_get CHAR_VISEME (String c "")
                 end in
      match vis with
      | Some v =>
          let isVowel := is_vowel c in
          let result' := result ++
            [ {| w_viseme := v;
                 w_duration := if isVowel then (BASE * 1.5)%float
                               else (BASE * 0.9)%float;
                 w_intensity := if isVowel then 1.0%float else 0.75%float |} ] in
          match rest with
          | [] => result'
          | _ :: rest2 =>
              if table_has CHAR_VISEME di then word_loop rest2 result'
              else word_loop rest result'
          end
      | None => word_loop rest result
      end
  end.

Definition wordToVisemes (word : list ascii) : list WordViseme :=
  word_loop (List.filter is_lower (toLowerCase word)) [].

(** *** [tickLipSync] *)

Section Tick.
Context `{Runtime}.

(** The loop over the word's viseme queue; it returns the accumulator and
    the value of [t] when the loop ends. *)
Fixpoint realtime_loop (rig : Rig) (queue : list WordViseme) (t elapsed : float)
  (T : Targets) : Targets * float :=
  match queue with
  | [] => (T, t)
  | v :: rest =>
      if (t <=? elapsed)%float && (elapsed <? t + w_duration v)%float then
        let progress := ((elapsed - t) / w_duration v)%float in
        let envelope := Math_sin (progress * Math_PI)%float in
        let T1 := applyViseme rig (w_viseme v)
                    (w_intensity v * (0.5 + envelope * 0.5))%float T in
        match rest with
        | next :: _ =>
            if (0.6 <? progress)%float then
              let coblend := ((progress - 0.6) / 0.4)%float in
              (applyViseme rig (w_viseme next)
                 (w_intensity next * coblend * 0.4)%float T1, t)
            else (T1, t)
        | [] => (T1, t)
        end
      else realtime_loop rig rest (t + w_duration v)%float elapsed T
  end.

(** The loop over the server timeline. *)
Fixpoint timeline_loop (rig : Rig) (phs : list Phoneme) (elapsed : float)
  (T : Targets) : Targets :=
  match phs with
  | [] => T
  | ph :: rest =>
      let T1 :=
        if (time ph <=? elapsed)%float
           && (elapsed <? time ph + duration ph)%float then
          let progress := ((elapsed - time ph) / duration ph)%float in
          let envelope := Math_sin (progress * Math_PI)%float in
          applyViseme rig (viseme ph)
            (or_else (intensity ph) 1.0 * (0.5 + envelope * 0.5))%float T
        else T in
      let T2 :=
        if (time ph + duration ph * 0.7 <=? elapsed)%float
           && (elapsed <? time ph + duration ph)%float then
          match rest with
          | next :: _ =>
              let blend := ((elapsed - (time ph + duration ph * 0.7))
                            / (duration ph * 0.3))%float in
              applyViseme rig (viseme next)
                (or_else (intensity next) 0.5 * blend * 0.35)%float T1
          | [] => T1
          end
        else T1 in
      timeline_loop rig rest elapsed T2
  end.

Definition set_wordVisemeQueue (q : list WordViseme) (s : LipSync) : LipSync :=
  {| isSpeaking := isSpeaking s;
     lipSyncMode := lipSyncMode s;
     currentPhonemes := currentPhonemes s;
     lipSyncStartTime := lipSyncStartTime s;
     lipSyncAnimFrame := lipSyncAnimFrame s;
     talkGesturePhase := talkGesturePhase s;
     wordVisemeQueue := q;
     wordVisemeStart := wordVisemeStart s;
     speakingUI := speakingUI s |}.

(** [currentPhonemes?.totalDuration && elapsed > currentPhonemes.totalDuration + 0.15] *)
Definition timeline_complete (s : LipSync) (elapsed : float) : bool :=
  match currentPhonemes s with
  | Some pd =>
      truthy (totalDuration pd) && (totalDuration pd + 0.15 <? elapsed)%float
  | None => false
  end.

(** [tickLipSync], called at [performance.now() = now]. *)
Definition tickLipSync (rig : Rig) (now : float) (s : LipSync) (T : Targets)
  : LipSync * Targets :=
  if negb (isSpeaking s) then (s, T)
  else match lipSyncMode s with
  | realtime =>
      match wordVisemeQueue s with
      | [] => (s, T)
      | _ =>
          let elapsed := ((now - wordVisemeStart s) / 1000)%float in
          let '(T', t) := realtime_loop rig (wordVisemeQueue s) 0%float elapsed T in
          (if (t <? elapsed)%float then set_wordVisemeQueue [] s else s, T')
      end
  | timeline =>
      let elapsed := ((now - lipSyncStartTime s) / 1000)%float in
      if timeline_complete s elapsed then (stopLipSync s, T)
      else match currentPhonemes s with
           | Some pd => (s, timeline_loop rig (phonemes pd) elapsed T)
           | None => (s, T)
           end
  | fallback =>
      let elapsed := ((now - lipSyncStartTime s) / 1000)%float in
      let cycle := (elapsed * 5.0)%float in
      let syllable := js_rem (Math_floor cycle) 5%float in
      let progress := (cycle - Math_floor cycle)%float in
      let visemes := [ "viseme_aa"; "viseme_E"; "viseme_O"; "viseme_I";
                       "viseme_U" ]%string in
      let T1 := match array_get visemes syllable with
                | Some v => applyViseme rig v
                              (Math_sin (progress * Math_PI) * 0.9)%float T
                | None => T
                end in
      (s, if hasARKitMorphs rig
          then setMorph rig "jawOpen"
                 (Math_sin (progress * Math_PI) * 0.5)%float T1
          else T1)
  | none => (s, T)
  end.

End Tick.

(** *** Emotions *)

Definition EMOTIONS : list (string * list (string * float)) :=
  [ ("happy", [("mouthSmileLeft", 0.55); ("mouthSmileRight", 0.55);
               ("cheekSquintLeft", 0.25); ("cheekSquintRight", 0.25);
               ("eyeSquintLeft", 0.12); ("eyeSquintRight", 0.12)]);
    ("sad", [("mouthFrownLeft", 0.45); ("mouthFrownRight", 0.45);
             ("browInnerUp", 0.35); ("browDownLeft", 0.1);
             ("browDownRight", 0.1)]);
    ("surprised", [("jawOpen", 0.35);
                   ("eyeWideLeft", 0.45); ("eyeWideRight", 0.45);
                   ("browInnerUp", 0.55); ("browOuterUpLeft", 0.45);
                   ("browOuterUpRight", 0.45)]);
    ("angry", [("browDownLeft", 0.5); ("browDownRight", 0.5);
               ("mouthFrownLeft", 0.25); ("mouthFrownRight", 0.25);
               ("noseSneerLeft", 0.3); ("noseSneerRight", 0.3);
               ("jawForward", 0.15)]);
    ("neutral", []) ]%float%string.

(** An object with numeric properties, its keys in insertion order. *)
Abbreviation Obj := (list (string * float)).

Fixpoint obj_set (o : Obj) (k : string) (v : float) : Obj :=
  match o with
  | [] => [(k, v)]
  | (k', v') :: o' =>
      if String.eqb k' k then (k, v) :: o' else (k', v') :: obj_set o' k v
  end.

Fixpoint obj_delete (o : Obj) (k : string) : Obj :=
  match o with
  | [] => []
  | (k', v') :: o' =>
      if String.eqb k' k then o' else (k', v') :: obj_delete o' k
  end.

(** [o[k] || 0] *)
Definition obj_or_zero (o : Obj) (k : string) : float :=
  match table_get o k with
  | Some x => or_else x 0%float
  | None => 0%float
  end.

(** [setEmotion]: the new [emotionTargetMap] (the pending reset timer is
    cleared). *)
Definition setEmotion (name : string) : Obj :=
  match table_get EMOTIONS name with
  | Some e => e
  | None => []
  end.

Section Frame.
Context `{Runtime}.

Definition updateEmotionMorphs (rig : Rig) (delta : float)
  (emotionTargetMap : Obj) (st : Obj * Targets) : Obj * Targets :=
  let rate := (1 - Math_exp (-5 * delta))%float in
  let st1 :=
    fold_left
      (fun (st : Obj * Targets) (name : string) =>
         let '(currentEmotion, T) := st in
         let target := obj_or_zero emotionTargetMap name in
         let v := (obj_or_zero currentEmotion name
                   + (target - obj_or_zero currentEmotion name) * rate)%float in
         (obj_set currentEmotion name v, setMorph rig name v T))
      (map fst emotionTargetMap) st in
  fold_left
    (fun (st : Obj * Targets) (name : string) =>
       let '(currentEmotion, T) := st in
       if table_has emotionTargetMap name then st
       else match table_get currentEmotion name with
            | Some x =>
                let v := (x * (1 - rate))%float in
                if (v <? 0.005)%float then (obj_delete currentEmotion name, T)
                else (obj_set currentEmotion name v, setMorph rig name v T)
            | None => st
            end)
    (map fst (fst st1)) st1.

Definition microExpressions (rig : Rig) (t : float) (T : Targets) : Targets :=
  let smile := ((Math_sin (t * 0.35) + 1) * 0.02)%float in
  let T := setMorph rig "mouthSmileLeft" smile T in
  let T := setMorph rig "mouthSmileRight" smile T in
  let browShift := ((Math_sin (t * 0.28 + 1.5) + 1) * 0.015)%float in
  let T := setMorph rig "browInnerUp" browShift T in
  let cheek := ((Math_sin (t * 0.8) + 1) * 0.005)%float in
  setMorph rig "cheekPuff" cheek T.

(** *** Face tracking inputs, eye gaze and blink *)

Record FaceTrack := {
  faceTrackGazeX : option float;
  faceTrackGazeY : option float;
  faceTrackBlink : option float;
  faceTrackSmile : option float;
  faceTrackBrowRaise : option float;
  faceTrackMouthOpen : option float
}.

Definition no_face : FaceTrack :=
  {| faceTrackGazeX := None; faceTrackGazeY := None; faceTrackBlink := None;
     faceTrackSmile := None; faceTrackBrowRaise := None;
     faceTrackMouthOpen := None |}.

Record Gaze := {
  mouseX : float; mouseY : float;
  smoothGazeX : float; smoothGazeY : float;
  saccadeTimer : float; saccadeX : float; saccadeY : float
}.

Record Blink := {
  lastBlinkTime : float;
  nextBlinkDelay : float;
  blinkTarget : float;
  blinkAmount : float;
  blinkTimers : nat
}.

(** The values [Math.random()] returns during one frame: three in
    [updateEyeGaze], two in [updateBlink]. *)
Record Random := {
  rnd_saccadeX : float; rnd_saccadeY : float; rnd_saccadeTimer : float;
  rnd_blinkDelay : float; rnd_blinkLength : float
}.

(** [updateEyeGaze], without the head and neck bones, which carry no morph
    target. *)
Definition updateEyeGaze (rig : Rig) (face : FaceTrack) (delta : float)
  (rnd : Random) (st : Gaze * Targets) : Gaze * Targets :=
  let '(g, T) := st in
  let targetX := match faceTrackGazeX face with Some x => x | None => mouseX g end in
  let targetY := match faceTrackGazeY face with Some y => y | None => mouseY g end in
  let sgx := (smoothGazeX g + (targetX - smoothGazeX g) * 0.08)%float in
  let sgy := (smoothGazeY g + (targetY - smoothGazeY g) * 0.08)%float in
  let timer := (saccadeTimer g - delta)%float in
  let expired := (timer <=? 0)%float in
  let sx := if expired then ((rnd_saccadeX rnd - 0.5) * 0.06)%float
            else saccadeX g in
  let sy := if expired then ((rnd_saccadeY rnd - 0.5) * 0.035)%float
            else saccadeY g in
  let timer := if expired then (0.8 + rnd_saccadeTimer rnd * 2.5)%float
               else timer in
  let g' := {| mouseX := mouseX g; mouseY := mouseY g;
               smoothGazeX := sgx; smoothGazeY := sgy;
               saccadeTimer := timer; saccadeX := sx; saccadeY := sy |} in
  let gx := (sgx + sx)%float in
  let gy := (sgy + sy)%float in
  if hasARKitMorphs rig then
    let lookRight := Math_max 0 gx in
    let lookLeft := Math_max 0 (- gx) in
    let lookUp := Math_max 0 gy in
    let lookDown := Math_max 0 (- gy) in
    let T := setMorph rig "eyeLookOutLeft" (lookLeft * 0.7)%float T in
    let T := setMorph rig "eyeLookInLeft" (lookRight * 0.7)%float T in
    let T := setMorph rig "eyeLookOutRight" (lookRight * 0.7)%float T in
    let T := setMorph rig "eyeLookInRight" (lookLeft * 0.7)%float T in
    let T := setMorph rig "eyeLookUpLeft" (lookUp * 0.5)%float T in
    let T := setMorph rig "eyeLookUpRight" (lookUp * 0.5)%float T in
    let T := setMorph rig "eyeLookDownLeft" (lookDown * 0.5)%float T in
    let T := setMorph rig "eyeLookDownRight" (lookDown * 0.5)%float T in
    (g', T)
  else (g', T).

(** [updateBlink]; the timer that re-opens the eyes is counted in
    [blinkTimers] and fires as [blinkTimeout]. *)
Definition updateBlink (rig : Rig) (face : FaceTrack) (t delta : float)
  (rnd : Random) (st : Blink * Targets) : Blink * Targets :=
  let '(b, T) := st in
  let b' :=
    match faceTrackBlink face with
    | Some fb =>
        {| lastBlinkTime := lastBlinkTime b; nextBlinkDelay := nextBlinkDelay b;
           blinkTarget := blinkTarget b;
           blinkAmount := lerp (blinkAmount b) fb 0.3;
           blinkTimers := blinkTimers b |}
    | None =>
        let due := (nextBlinkDelay b <? t - lastBlinkTime b)%float in
        let target := if due then 1%float else blinkTarget b in
        {| lastBlinkTime := if due then t else lastBlinkTime b;
           nextBlinkDelay := if due then (2.5 + rnd_blinkDelay rnd * 5)%float
                             else nextBlinkDelay b;
           blinkTarget := target;
           blinkAmount := (blinkAmount b + (target - blinkAmount b)
                           * (1 - Math_exp (-24 * delta)))%float;
           blinkTimers := if due then S (blinkTimers b) else blinkTimers b |}
    end in
  let T := setMorph rig "eyeBlinkLeft" (blinkAmount b') T in
  let T := setMorph rig "eyeBlinkRight" (blinkAmount b') T in
  if (0.5 <? blinkAmount b')%float then
    let T := setMorph rig "eyeSquintLeft" (blinkAmount b' * 0.3)%float T in
    let T := setMorph rig "eyeSquintRight" (blinkAmount b' * 0.3)%float T in
    (b', T)
  else (b', T).

Definition blinkTimeout (b : Blink) : Blink :=
  {| lastBlinkTime := lastBlinkTime b; nextBlinkDelay := nextBlinkDelay b;
     blinkTarget := 0%float; blinkAmount := blinkAmount b;
     blinkTimers := pred (blinkTimers b) |}.

(** *** The world and one animation frame *)

Record World := {
  rig : Rig;
  avatarLoaded : bool;
  lip : LipSync;
  morphTargetTarget : Targets;
  currentEmotion : Obj;
  emotionTargetMap : Obj;
  face : FaceTrack;
  gaze : Gaze;
  blink : Blink;
  elapsedTime : float
}.

(** [animate], as far as the lip-sync globals and the target accumulator
    go: the bones, the smoothing of the influences toward the accumulated
    targets ([updateMorphTargets]), particles and rendering read the state
    built here and do not write it.  [now] is [performance.now()], [rawDelta] is
    [glClock.getDelta()]. *)
Definition animate (now rawDelta : float) (rnd : Random) (w : World) : World :=
  let delta := Math_min rawDelta 0.05 in
  let elapsed := (elapsedTime w + delta)%float in
  if avatarLoaded w then
    let T := resetMorphTargets (morphTargetTarget w) in
    let '(lip1, T) := tickLipSync (rig w) now (lip w) T in
    let '(emo, T) := updateEmotionMorphs (rig w) delta (emotionTargetMap w)
                       (currentEmotion w, T) in
    let T := if negb (isSpeaking lip1) then microExpressions (rig w) elapsed T
             else T in
    let '(g, T) := updateEyeGaze (rig w) (face w) delta rnd (gaze w, T) in
    let '(b, T) := updateBlink (rig w) (face w) elapsed delta rnd (blink w, T) in
    let lip2 := if isSpeaking lip1 then animateTalkingBody elapsed delta lip1
                else lip1 in
    {| rig := rig w; avatarLoaded := true; lip := lip2;
       morphTargetTarget := T; currentEmotion := emo;
       emotionTargetMap := emotionTargetMap w; face := face w;
       gaze := g; blink := b; elapsedTime := elapsed |}
  else
    {| rig := rig w; avatarLoaded := false; lip := lip w;
       morphTargetTarget := morphTargetTarget w;
       currentEmotion := currentEmotion w;
       emotionTargetMap := emotionTargetMap w; face := face w;
       gaze := gaze w; blink := blink w; elapsedTime := elapsed |}.

End Frame.

(** *** [onFaceResults] *)

Record Point := { px : float; py : float }.

(** The landmarks of the first face, by index. *)
Definition Landmarks : Type := nat -> Point.

(** [results] is [None] when no face was found. *)
Definition onFaceResults (rig : Rig) (speaking : bool) (results : option Landmarks)
  (T : Targets) : FaceTrack * Targets :=
  match results with
  | None => (no_face, T)
  | Some lm =>
      let lEyeOpen := Math_abs (py (lm 159%nat) - py (lm 145%nat))%float in
      let rEyeOpen := Math_abs (py (lm 386%nat) - py (lm 374%nat))%float in
      let fBlink := clamp (1 - ((lEyeOpen + rEyeOpen) / 2 - 0.008) / 0.035)%float
                          0 1 in
      let fGazeX := ((px (lm 4%nat) - 0.5) * -2.5)%float in
      let fGazeY := ((py (lm 4%nat) - 0.5) * -2)%float in
      let mouthOpenAmt := Math_abs (py (lm 13%nat) - py (lm 14%nat))%float in
      let fMouthOpen := clamp ((mouthOpenAmt - 0.015) / 0.06)%float 0 1 in
      let T :=
        if (0.08 <? fMouthOpen)%float && negb speaking then
          if hasOculusVisemes rig
          then setMorph rig "viseme_aa" (fMouthOpen * 0.7)%float T
          else if hasARKitMorphs rig
               then setMorph rig "jawOpen" (fMouthOpen * 0.7)%float T
               else T
        else T in
      let mouthWidth := Math_abs (px (lm 291%nat) - px (lm 61%nat))%float in
      let fSmile := clamp ((mouthWidth - 0.14) / 0.1)%float 0 1 in
      let T :=
        if negb speaking then
          let T := setMorph rig "mouthSmileLeft" (fSmile * 0.6)%float T in
          setMorph rig "mouthSmileRight" (fSmile * 0.6)%float T
        else T in
      let browAvgY := ((py (lm 107%nat) + py (lm 336%nat) + py (lm 70%nat) + py (lm 300%nat))
                       / 4)%float in
      let fBrow := clamp ((0.28 - browAvgY) / 0.06)%float (-0.5) 1 in
      let T :=
        if negb speaking then
          let T := setMorph rig "browInnerUp" (Math_max 0 fBrow * 0.5)%float T in
          let T := setMorph rig "browDownLeft"
                     (Math_max 0 (- fBrow) * 0.4)%float T in
          setMorph rig "browDownRight" (Math_max 0 (- fBrow) * 0.4)%float T
        else T in
      ({| faceTrackGazeX := Some fGazeX; faceTrackGazeY := Some fGazeY;
          faceTrackBlink := Some fBlink; faceTrackSmile := Some fSmile;
          faceTrackBrowRaise := Some fBrow;
          faceTrackMouthOpen := Some fMouthOpen |}, T)
  end.

(** *** [speak]: one utterance and its event handlers *)

(** The variables the handlers of one utterance close over; [graceTimers]
    counts the pending callbacks of the [setTimeout] of [onstart] (their
    handle is not kept), [resolved] tells that the promise is resolved. *)
Record Utterance := {
  text : list ascii;
  phonemeData : option PhonemeData;
  usedBoundary : bool;
  speechStarted : bool;
  graceTimers : nat;
  resolved : bool
}.

(** [speak(text, phonemeData)] with the auto-speak toggle checked. *)
Definition speak (text : list ascii) (phonemeData : option PhonemeData)
  : Utterance :=
  {| text := text; phonemeData := phonemeData; usedBoundary := false;
     speechStarted := false; graceTimers := 0; resolved := false |}.

(** [phonemeData?.phonemes?.length], as a condition. *)
Definition has_phonemes (phonemeData : option PhonemeData) : bool :=
  match phonemeData with
  | Some pd => negb (Nat.eqb (length (phonemes pd)) 0)
  | None => false
  end.

(** [text.indexOf(' ', from)] *)
Fixpoint index_of_space (s : list ascii) (pos from : nat) : Z :=
  match s with
  | [] => (-1)%Z
  | c :: s' =>
      if (from <=? pos)%nat && Ascii.eqb c " "%char then Z.of_nat pos
      else index_of_space s' (S pos) from
  end.

(** [text.substr(start, len)] for [len >= 1] *)
Definition substr (s : list ascii) (start : nat) (len : Z) : list ascii :=
  firstn (Z.to_nat len) (skipn start s).

Fixpoint drop_spaces (s : list ascii) : list ascii :=
  match s with
  | c :: s' => if is_space c then drop_spaces s' else s
  | [] => []
  end.

(** [word.trim()] *)
Definition trim (s : list ascii) : list ascii :=
  rev (drop_spaces (rev (drop_spaces s))).

Definition set_word (queue : list WordViseme) (now : float) (s : LipSync)
  : LipSync :=
  {| isSpeaking := isSpeaking s;
     lipSyncMode := lipSyncMode s;
     currentPhonemes := currentPhonemes s;
     lipSyncStartTime := lipSyncStartTime s;
     lipSyncAnimFrame := lipSyncAnimFrame s;
     talkGesturePhase := talkGesturePhase s;
     wordVisemeQueue := queue;
     wordVisemeStart := now;
     speakingUI := speakingUI s |}.

Definition set_utterance (used started : bool) (timers : nat) (done : bool)
  (u : Utterance) : Utterance :=
  {| text := text u; phonemeData := phonemeData u; usedBoundary := used;
     speechStarted := started; graceTimers := timers; resolved := done |}.

(** [utt.onboundary]: [name], [charIndex] and [charLength] are the
    event's; a [charLength] of 0 stands for a missing one. *)
Definition onboundary (now : float) (name : string) (charIndex charLength : nat)
  (st : LipSync * Utterance) : LipSync * Utterance :=
  let '(s, u) := st in
  if has_phonemes (phonemeData u) then st
  else if String.eqb name "word" then
    let s1 := if usedBoundary u then s else startRealtimeLipSync s in
    let u1 := set_utterance true (speechStarted u) (graceTimers u) (resolved u) u in
    let charLen :=
      if Nat.eqb charLength 0
      then (index_of_space (text u) 0 charIndex - Z.of_nat charIndex)%Z
      else Z.of_nat charLength in
    let word := substr (text u) charIndex (Z.max charLen 1) in
    match trim word with
    | [] => (s1, u1)
    | _ => (set_word (wordToVisemes (trim word)) now s1, u1)
    end
  else st.

(** [utt.onstart] *)
Definition onstart (now : float) (st : LipSync * Utterance)
  : LipSync * Utterance :=
  let '(s, u) := st in
  if has_phonemes (phonemeData u) then
    (startLipSyncFromTimeline now (phonemeData u) s,
     set_utterance true true (graceTimers u) (resolved u) u)
  else
    (s, set_utterance (usedBoundary u) true (S (graceTimers u)) (resolved u) u).

(** The callback of the [setTimeout(..., 400)] of [onstart]. *)
Definition graceTimeout (now : float) (st : LipSync * Utterance)
  : LipSync * Utterance :=
  let '(s, u) := st in
  let u1 := set_utterance (usedBoundary u) (speechStarted u)
              (pred (graceTimers u)) (resolved u) u in
  if negb (usedBoundary u) && speechStarted u then
    if has_phonemes (phonemeData u)
    then (startLipSyncFromTimeline now (phonemeData u) s, u1)
    else (startLipSyncFallback now s, u1)
  else (s, u1).

(** [utt.onend] and [utt.onerror] *)
Definition onend (st : LipSync * Utterance) : LipSync * Utterance :=
  let '(s, u) := st in
  (stopLipSync s,
   set_utterance (usedBoundary u) (speechStarted u) (graceTimers u) true u).

Definition onerror (st : LipSync * Utterance) : LipSync * Utterance :=
  onend st.

(** *** The page as a transition system *)

Inductive Event :=
| EvStart (now : float)
| EvBoundary (now : float) (name : string) (charIndex charLength : nat)
| EvGraceTimeout (now : float)
| EvEnd
| EvError
| EvFrame (now rawDelta : float) (rnd : Random)
| EvFaceResults (results : option Landmarks)
| EvBlinkTimeout.

Definition with_lip (s : LipSync) (w : World) : World :=
  {| rig := rig w; avatarLoaded := avatarLoaded w; lip := s;
     morphTargetTarget := morphTargetTarget w;
     currentEmotion := currentEmotion w;
     emotionTargetMap := emotionTargetMap w; face := face w;
     gaze := gaze w; blink := blink w; elapsedTime := elapsedTime w |}.

Definition with_face (f : FaceTrack) (T : Targets) (w : World) : World :=
  {| rig := rig w; avatarLoaded := avatarLoaded w; lip := lip w;
     morphTargetTarget := T;
     currentEmotion := currentEmotion w;
     emotionTargetMap := emotionTargetMap w; face := f;
     gaze := gaze w; blink := blink w; elapsedTime := elapsedTime w |}.

Definition with_blink (b : Blink) (w : World) : World :=
  {| rig := rig w; avatarLoaded := avatarLoaded w; lip := lip w;
     morphTargetTarget := morphTargetTarget w;
     currentEmotion := currentEmotion w;
     emotionTargetMap := emotionTargetMap w; face := face w;
     gaze := gaze w; blink := b; elapsedTime := elapsedTime w |}.

Definition lift (h : LipSync * Utterance -> LipSync * Utterance)
  (st : World * Utterance) : World * Utterance :=
  let '(s, u) := h (lip (fst st), snd st) in (with_lip s (fst st), u).

Section Run.
Context `{Runtime}.

(** One event of the page; a timer that is not pending does not fire. *)
Definition step (ev : Event) (st : World * Utterance) : World * Utterance :=
  match ev with
  | EvStart now => lift (onstart now) st
  | EvBoundary now name ci cl => lift (onboundary now name ci cl) st
  | EvGraceTimeout now =>
      match graceTimers (snd st) with
      | 0 => st
      | S _ => lift (graceTimeout now) st
      end
  | EvEnd => lift onend st
  | EvError => lift onerror st
  | EvFrame now rawDelta rnd => (animate now rawDelta rnd (fst st), snd st)
  | EvFaceResults results =>
      let w := fst st in
      let '(f, T) := onFaceResults (rig w) (isSpeaking (lip w)) results
                       (morphTargetTarget w) in
      (with_face f T w, snd st)
  | EvBlinkTimeout =>
      match blinkTimers (blink (fst st)) with
      | 0 => st
      | S _ => (with_blink (blinkTimeout (blink (fst st))) (fst st), snd st)
      end
  end.

Definition run (evs : list Event) (st : World * Utterance) : World * Utterance :=
  fold_left (fun st ev => step ev st) evs st.

End Run.

(** *** [updateMorphTargets]: the influences follow the targets *)

(** A mesh with morph targets: its dictionary from names to indices, in
    key order, and its array of influences, by index. *)
Record Mesh := {
  morphTargetDictionary : option (list (string * nat));
  morphTargetInfluences : option (gmap nat float)
}.

Section Actuator.
Context `{Runtime}.

(** [influences[idx] || 0] *)
Definition influence_or_zero (influences : gmap nat float) (idx : nat) : float :=
  match influences !! idx with
  | Some x => or_else x 0%float
  | None => 0%float
  end.

(** The body of the loop over the names of a dictionary. *)
Definition update_influence (openRate closeRate : float) (T : Targets)
  (influences : gmap nat float) (entry : string * nat) : gmap nat float :=
  let '(name, idx) := entry in
  let target := target_or_zero T name in
  let current := influence_or_zero influences idx in
  let rate := if (current <? target)%float then openRate else closeRate in
  <[idx := clamp (current + (target - current) * rate)%float 0 1]> influences.

Definition updateMorphTargets (rig : Rig) (delta : float) (T : Targets)
  (allMorphMeshes : list Mesh) : list Mesh :=
  match morphDict rig with
  | None => allMorphMeshes
  | Some _ =>
      let openRate := (1 - Math_exp (-45 * delta))%float in
      let closeRate := (1 - Math_exp (-30 * delta))%float in
      map (fun mesh =>
             match morphTargetDictionary mesh, morphTargetInfluences mesh with
             | Some dict, Some influences =>
                 {| morphTargetDictionary := Some dict;
                    morphTargetInfluences :=
                      Some (fold_left (update_influence openRate closeRate T)
                                      dict influences) |}
             | _, _ => mesh
             end)
          allMorphMeshes
  end.

End Actuator.


End Client.

(** ** server.js: the routes *)

Module Routes.
Import JS Server.

(** The values in the JSON bodies; [JErrorMessage] stands for the
    [error.message] of a caught exception. *)
Inductive Json :=
| JString (s : string)
| JBool (b : bool)
| JNumber (x : float)
| JEvents (events : list Phoneme)
| JTimeline (pd : PhonemeData)
| JErrorMessage.

(** A reply: the status and the properties of the body, in order. *)
Record Reply := { status : nat; body : list (string * Json) }.

(** [body.key], [None] for [undefined]. *)
Definition field (r : Reply) (key : string) : option Json :=
  table_get (body r) key.

Record Demo := { demo_response : string; demo_emotion : string }.

Definition DEMO_RESPONSES : list Demo :=
  [ {| demo_response := "Hey there! I'm Nova, your AI virtual human. It's great to see you here, I'd love to chat about anything you have on your mind!";
       demo_emotion := "happy" |};
    {| demo_response := "That's a really interesting question. Let me think about that for a moment and give you a thoughtful answer.";
       demo_emotion := "neutral" |};
    {| demo_response := "Oh wow, I did not see that coming! That's actually a brilliant point, tell me more about your thinking.";
       demo_emotion := "surprised" |};
    {| demo_response := "I hear you, and I understand that can be really tough. Let me help you find a way through this.";
       demo_emotion := "sad" |};
    {| demo_response := "You know what, that's a great observation. I think there's a lot of nuance to explore there.";
       demo_emotion := "neutral" |};
    {| demo_response := "Ha, that's actually pretty funny! I appreciate the humor. But seriously, let me give you a proper answer.";
       demo_emotion := "happy" |};
    {| demo_response := "Interesting perspective! Not everyone would think of it that way, and that's what makes it valuable.";
       demo_emotion := "surprised" |};
    {| demo_response := "Absolutely, I completely agree with you on that. It makes a lot of sense when you think about it.";
       demo_emotion := "happy" |} ]%string.

(** The emotions that the emotion detection of [/api/chat] accepts. *)
Definition EMOTION_NAMES : list string :=
  [ "happy"; "sad"; "surprised"; "angry"; "neutral" ]%string.

(** The body of [/api/chat] has [message] (absent here when it is missing
    or not a string) and [sessionId]. *)
Record ChatRequest := { message : option string; sessionId : option string }.

(** [!process.env.GEMINI_API_KEY || process.env.GEMINI_API_KEY ===
    'your_gemini_api_key_here'] *)
Definition no_api_key (key : option string) : bool :=
  match key with
  | None => true
  | Some k => String.eqb k "" || String.eqb k "your_gemini_api_key_here"
  end.

Definition bad_request (error : string) : Reply :=
  {| status := 400; body := [ ("error"%string, JString error) ] |}.

Section Chat.
Context `{Client.Runtime}.

(** [getDemoResponse]; [random] is the value of [Math.random()]. *)
Definition getDemoResponse (random : float) : option Demo :=
  Client.array_get DEMO_RESPONSES (Client.Math_floor (random * 8)%float).

(** The two places that answer with a demo response; reading
    [demo.response] of [undefined] throws, which the handler catches. *)
Definition demo_reply (random : float) (sid : string) (rateLimited : bool)
  : Reply :=
  match getDemoResponse random with
  | Some demo =>
      {| status := 200;
         body :=
           [ ("response"%string, JString (demo_response demo));
             ("emotion"%string, JString (demo_emotion demo));
             ("sessionId"%string, JString sid);
             ("phonemes"%string,
              JTimeline (generatePhonemeData (demo_response demo))) ]
           ++ (if rateLimited then [ ("rateLimited"%string, JBool true) ]
               else []) |}
  | None =>
      {| status := 500;
         body := [ ("error"%string, JString "Failed to generate response");
                   ("details"%string, JErrorMessage) ] |}
  end.

(** [emotionResult.response.text().trim().toLowerCase()], accepted when
    it is one of the five names. *)
Definition detect_emotion (t : string) : string :=
  let detectedEmotion :=
    string_of_list_ascii
      (toLowerCase (Client.trim (list_ascii_of_string t))) in
  if existsb (String.eqb detectedEmotion) EMOTION_NAMES then detectedEmotion
  else "neutral"%string.

(** The handler of [POST /api/chat].  [key] is the environment's API key;
    [sendMessage n] and [generateContent n] are the outcomes of the n-th
    call of the chat model and of the emotion model, a returned value
    being the text that [.response.text()] gives, or [None] when reading
    it throws.  The result is the reply and the back-off waits made, in
    milliseconds.  The table of sessions only selects the conversation in
    which the chat model answers. *)
Definition chat (key : option string) (random : float)
  (sendMessage generateContent : nat -> Outcome (option string))
  (req : ChatRequest) : Reply * list Z :=
  match message req with
  | None => (bad_request "Message is required", [])
  | Some msg =>
      if String.eqb msg "" then (bad_request "Message is required", [])
      else
        let sid := match sessionId req with
                   | Some s => s
                   | None => "default"%string
                   end in
        if no_api_key key then (demo_reply random sid false, [])
        else
          let '(result, waits) := callWithRetry sendMessage 3 in
          match result with
          | Returned (Some responseText) =>
              let '(emotionResult, waits') := callWithRetry generateContent 1 in
              let emotion :=
                match emotionResult with
                | Returned (Some t) => detect_emotion t
                | _ => "neutral"%string
                end in
              ({| status := 200;
                  body :=
                    [ ("response"%string, JString responseText);
                      ("emotion"%string, JString emotion);
                      ("sessionId"%string, JString sid);
                      ("phonemes"%string,
                       JTimeline (generatePhonemeData responseText)) ] |},
               waits ++ waits')
          | _ => (demo_reply random sid true, waits)
          end
  end.

End Chat.

(** The handler of [POST /api/tts-data] for a [text] that is a string or
    is missing. *)
Definition tts_data (text : option string) : Reply :=
  match text with
  | None => bad_request "Text is required"
  | Some t =>
      if String.eqb t "" then bad_request "Text is required"
      else
        let phonemeData := generatePhonemeData t in
        {| status := 200;
           body := [ ("phonemes"%string, JEvents (phonemes phonemeData));
                     ("totalDuration"%string,
                      JNumber (totalDuration phonemeData)) ] |}
  end.

End Routes.

(** ** Notions used to state the properties of the timeline *)

Module TimelineSpec.
Import JS Server.

(** Two different numbers are told apart by their bit patterns. *)
Ltac float_neq :=
  let H := fresh in
  intros H; apply (f_equal Prim2SF) in H; vm_compute in H; discriminate H.

Definition is_silence (e : Phoneme) : bool :=
  String.eqb (viseme e) "viseme_sil".

(** The clock value after an event: a silence event advances the clock by
    its duration, a viseme event by the fixed character step. *)
Definition clock_after (e : Phoneme) : float :=
  if is_silence e then (time e + duration e)%float
  else (time e + BASE_CHAR_DURATION)%float.

(** The last event, when there is one, is a silence event that ends at the
    clock. *)
Definition ends_in_silence (st : GenState) : Prop :=
  match last (fst st) with
  | None => fst st = []
  | Some e =>
      viseme e = "viseme_sil"%string /\ intensity e = 0%float /\
      snd st = (time e + duration e)%float
  end.

(** The sum of the events' durations, added up from the first event on. *)
Definition sum_durations (phs : list Phoneme) : float :=
  fold_left (fun s e => (s + duration e)%float) phs 0%float.

(** Every event starts where the one before it ends. *)
Fixpoint contiguous (phs : list Phoneme) : Prop :=
  match phs with
  | e1 :: phs' =>
      match phs' with
      | e2 :: _ => time e2 = (time e1 + duration e1)%float /\ contiguous phs'
      | [] => True
      end
  | [] => True
  end.

(** The emphasis of the word at index [wi] of the split. *)
Definition wordEmphasis_at (wi : nat) : float :=
  if Nat.eqb wi 0 then 1.1%float else 1.0%float.

(** The event [e] is the one the generator pushes for position [i] of the
    word of the token at index [wi]. *)
Definition event_of_char (words : list (list ascii)) (e : Phoneme) : Prop :=
  exists wi rawWord i c,
    words !! wi = Some rawWord /\
    List.filter is_word_char rawWord !! i = Some c /\
    viseme_at (drop i (List.filter is_word_char rawWord)) = Some (viseme e) /\
    duration e = char_duration c (List.filter is_word_char rawWord !! S i) /\
    intensity e = char_intensity c (wordEmphasis_at wi).

(** A consonant: a letter that is not one of a, e, i, o, u. *)
Definition is_consonant (c : ascii) : bool := is_lower c && negb (is_vowel c).

(** The duration C4 states for the event of [c] followed by [next]: the
    stress factor applies when [c] is a vowel and [next] is a consonant. *)
Definition claimed_duration (c : ascii) (next : option ascii) : float :=
  let d := if is_vowel c then (0.06 * 1.2)%float else (0.06 * 0.9)%float in
  if is_vowel c && match next with Some n => is_consonant n | None => false end
  then (d * 1.15)%float else d.

Definition not_space (c : ascii) : bool := negb (is_space c).

(** What C5 states of the duration [d] of the silence event after a word
    with the trailing punctuation marks [p]. *)
Definition pause_of_punctuation (p : list ascii) (d : float) : Prop :=
  (p = [] -> d = 0.07%float) /\
  (In "."%char p -> d = 0.35%float) /\
  (~ In "."%char p -> In "!"%char p \/ In "?"%char p -> d = 0.3%float) /\
  (~ In "."%char p -> ~ In "!"%char p -> ~ In "?"%char p ->
   In ","%char p -> d = 0.2%float).


(** An event of a character, as opposed to a silence event. *)
Definition is_viseme_event (e : Phoneme) : bool := negb (is_silence e).

(** The text has a character that the generator reads: after case
    folding, a letter a-z, an apostrophe, a hyphen or a punctuation
    mark. *)
Definition speakable (text : string) : bool :=
  existsb (fun c => is_permitted (toLowerCase_unit c)
                    && negb (is_space (toLowerCase_unit c)))
          (list_ascii_of_string text).

(** *** The reading of a word *)

(** What the scan of a word does at one place: it emits an event, for one
    character or for the two of a digraph, or it passes a character that
    has no viseme. *)
Inductive Tick :=
| Emit (e : Phoneme)
| Pass (c : ascii).

(** The events of a reading, in order. *)
Definition events (ticks : list Tick) : list Phoneme :=
  flat_map (fun k => match k with Emit e => [e] | Pass _ => [] end) ticks.

(** [ticks] is the reading of the word [w], from left to right: where the
    word has a digraph of the table, one event with the digraph's viseme
    stands for its two characters; elsewhere a character that the table has
    gives one event with its viseme, and a character that the table does not
    have is passed.  [P c next e] is what is said of the event [e] read at the
    character [c], [next] being the character that follows [c] in the
    word. *)
Inductive reads (P : ascii -> option ascii -> Phoneme -> Prop)
  : list ascii -> list Tick -> Prop :=
| reads_end : reads P [] []
| reads_digraph c c2 rest e ticks :
    JS.table_get CHAR_TO_VISEME (String c (String c2 "")) = Some (viseme e) ->
    P c (Some c2) e ->
    reads P rest ticks ->
    reads P (c :: c2 :: rest) (Emit e :: ticks)
| reads_char c rest e ticks :
    JS.table_get CHAR_TO_VISEME (digraph_at (c :: rest)) = None ->
    JS.table_get CHAR_TO_VISEME (String c "") = Some (viseme e) ->
    P c (head rest) e ->
    reads P rest ticks ->
    reads P (c :: rest) (Emit e :: ticks)
| reads_pass c rest ticks :
    JS.table_get CHAR_TO_VISEME (digraph_at (c :: rest)) = None ->
    JS.table_get CHAR_TO_VISEME (String c "") = None ->
    reads P rest ticks ->
    reads P (c :: rest) (Pass c :: ticks).

(** The reading of a token: nothing for the empty token; otherwise the
    reading of its word (its letters, apostrophes and hyphens) and then one
    silence event. *)
Definition token_reading (P : ascii -> option ascii -> Phoneme -> Prop)
  (rawWord : list ascii) (ticks : list Tick) : Prop :=
  match rawWord with
  | [] => ticks = []
  | _ =>
      exists wticks sil,
        reads P (List.filter is_word_char rawWord) wticks /\
        is_silence sil = true /\
        ticks = wticks ++ [Emit sil]
  end.

(** The clock over a reading, from [t] to [tEnd]: every event is emitted
    at the clock, which a silence event advances by its duration and a viseme
    event by the character step; a passed character advances the clock by
    the character step; nothing else does. *)
Fixpoint clocked (t : float) (ticks : list Tick) (tEnd : float) : Prop :=
  match ticks with
  | [] => tEnd = t
  | Emit e :: rest => time e = t /\ clocked (clock_after e) rest tEnd
  | Pass _ :: rest => clocked (t + BASE_CHAR_DURATION)%float rest tEnd
  end.

(** What the generator gives the event of the character [c] followed by
    [next], in a word with the emphasis [emph]. *)
Definition char_event (emph : float) (c : ascii) (next : option ascii)
  (e : Phoneme) : Prop :=
  duration e = char_duration c next /\ intensity e = char_intensity c emph.

(** The token has a word: a letter, an apostrophe or a hyphen. *)
Definition has_word (rawWord : list ascii) : bool :=
  existsb is_word_char rawWord.

(** The duration of the event of [c] followed by [next]: the stress
    factor applies to a vowel that is followed by a character that is not a
    vowel. *)
Definition stressed_duration (c : ascii) (next : option ascii) : float :=
  let d := if is_vowel c then (0.06 * 1.2)%float else (0.06 * 0.9)%float in
  if is_vowel c
     && match next with Some n => negb (is_vowel n) | None => false end
  then (d * 1.15)%float else d.

(** The intensity of the event of [c] under the emphasis [emphasis]. *)
Definition emphasised (c : ascii) (emphasis : float) : float :=
  JS.Math_min 1 ((if is_vowel c then 0.75 else 0.5) * emphasis)%float.

(** A character that is passed over without an event is an apostrophe or a
    hyphen: every letter has a viseme. *)
Definition silent_pass (k : Tick) : Prop :=
  match k with
  | Pass c => c = "'"%char \/ c = "-"%char
  | Emit _ => True
  end.


End TimelineSpec.

(** ** Notions and sample data used to state the properties of the client *)

Module ControllerSpec.
Import JS Client.

(** *** Sample data for closed examples *)

(** A rig with some ARKit morph targets. *)
Definition sample_rig : Rig :=
  detectMorphCapabilities
    (list_to_set [ "jawOpen"; "mouthSmileLeft"; "mouthSmileRight";
                   "browInnerUp"; "eyeBlinkLeft"; "eyeBlinkRight" ]%string).

(** The lip-sync globals as the page initialises them. *)
Definition idle_lip : LipSync :=
  {| isSpeaking := false; lipSyncMode := none; currentPhonemes := None;
     lipSyncStartTime := 0%float; lipSyncAnimFrame := None;
     talkGesturePhase := 0%float; wordVisemeQueue := [];
     wordVisemeStart := 0%float; speakingUI := false |}.

(** The world as the page initialises it, once the avatar [r] is loaded. *)
Definition initial_world (r : Rig) : World :=
  {| rig := r; avatarLoaded := true; lip := idle_lip;
     morphTargetTarget := ∅; currentEmotion := []; emotionTargetMap := [];
     face := no_face;
     gaze := {| mouseX := 0; mouseY := 0; smoothGazeX := 0; smoothGazeY := 0;
                saccadeTimer := 0; saccadeX := 0; saccadeY := 0 |};
     blink := {| lastBlinkTime := 0; nextBlinkDelay := 3; blinkTarget := 0;
                 blinkAmount := 0; blinkTimers := 0 |};
     elapsedTime := 0%float |}.

(** A stand-in for the runtime's functions in closed examples, none of
    which depends on it. *)
Definition sample_runtime : Runtime :=
  {| Math_sin := fun x => x; Math_exp := fun x => x;
     Math_floor := fun x => x; js_rem := fun x _ => x |}.

(** The timeline [pd] started at [start] is complete at [now]. *)
Definition past_end (pd : PhonemeData) (start now : float) : bool :=
  truthy (totalDuration pd)
  && (totalDuration pd + 0.15 <? (now - start) / 1000)%float.

(** Events during playback that neither end nor stop it, frames being
    before the end of the timeline. *)
Definition during_playback (pd : PhonemeData) (start : float) (ev : Event)
  : Prop :=
  match ev with
  | EvBoundary _ _ _ _ | EvGraceTimeout _ | EvFaceResults _
  | EvBlinkTimeout => True
  | EvFrame now _ _ => past_end pd start now = false
  | EvStart _ | EvEnd | EvError => False
  end.

(** The utterance has a timeline and the controller is not in realtime
    mode. *)
Definition timeline_or_idle (st : World * Utterance) : Prop :=
  has_phonemes (phonemeData (snd st)) = true /\
  usedBoundary (snd st) = true /\
  (lipSyncMode (lip (fst st)) = timeline \/ lipSyncMode (lip (fst st)) = none).

(** The controller plays the timeline [pd] started at [start]. *)
Definition playing (pd : PhonemeData) (start : float) (st : World * Utterance)
  : Prop :=
  phonemeData (snd st) = Some pd /\ usedBoundary (snd st) = true /\
  lipSyncMode (lip (fst st)) = timeline /\ isSpeaking (lip (fst st)) = true /\
  currentPhonemes (lip (fst st)) = Some pd /\
  lipSyncStartTime (lip (fst st)) = start.

(** Random values for closed examples. *)
Definition sample_random : Random :=
  {| rnd_saccadeX := 0.5; rnd_saccadeY := 0.5; rnd_saccadeTimer := 0.5;
     rnd_blinkDelay := 0.5; rnd_blinkLength := 0.5 |}.


(** A world in which the avatar speaks (realtime mode, between two
    words) while face tracking reports the blink amount [fb]. *)
Definition speaking_world (fb : float) : World :=
  {| rig := sample_rig; avatarLoaded := true;
     lip := startRealtimeLipSync idle_lip;
     morphTargetTarget := ∅; currentEmotion := []; emotionTargetMap := [];
     face := {| faceTrackGazeX := None; faceTrackGazeY := None;
                faceTrackBlink := Some fb; faceTrackSmile := None;
                faceTrackBrowRaise := None; faceTrackMouthOpen := None |};
     gaze := gaze (initial_world sample_rig);
     blink := blink (initial_world sample_rig);
     elapsedTime := 0%float |}.

(** *** Notions for the further properties *)

(** From [T] to [T'] nothing is written under a name that fails the guard
    [name in morphDict] of [setMorph], and nothing under [__proto__];
    without a rig nothing is written at all. *)
Definition within_guard (r : Rig) (T T' : Targets) : Prop :=
  match morphDict r with
  | None => T' = T
  | Some d =>
      forall n : string,
        in_dict d n = false \/ n = "__proto__"%string -> T' !! n = T !! n
  end.

(** The controller speaks exactly when its mode is not [none], and the
    speaking display is on exactly then. *)
Definition coherent (s : LipSync) : Prop :=
  isSpeaking s = match lipSyncMode s with none => false | _ => true end /\
  speakingUI s = isSpeaking s.

(** A number between [lo] and [hi], or [NaN]. *)
Definition within (lo hi x : float) : Prop :=
  PrimFloat.is_nan x = false ->
  (lo <=? x)%float = true /\ (x <=? hi)%float = true.


(** *** Events of an utterance without a timeline *)

Definition is_word_boundary (ev : Event) : bool :=
  match ev with
  | EvBoundary _ name _ _ => String.eqb name "word"
  | _ => false
  end.

(** Events that neither start nor end the utterance. *)
Definition ongoing (ev : Event) : Prop :=
  match ev with
  | EvStart _ | EvEnd | EvError => False
  | _ => True
  end.

(** Ongoing events other than word boundaries. *)
Definition wordless (ev : Event) : Prop :=
  ongoing ev /\ is_word_boundary ev = false.

(** Wordless events other than the grace timer's callback. *)
Definition quiet (ev : Event) : Prop :=
  wordless ev /\ match ev with EvGraceTimeout _ => False | _ => True end.

(** *** The accumulator *)

(** [T'] comes from [T] by a sequence of [setMorph] calls. *)
Definition written (r : Rig) (T T' : Targets) : Prop :=
  exists l : list (string * float),
    T' = fold_left (fun T0 nv => setMorph r (fst nv) (snd nv) T0) l T.

(** No target is below zero ([NaN] is not). *)
Definition never_negative (T : Targets) : Prop :=
  forall n x, T !! n = Some x -> (x <? 0)%float = false.

(** Every name under which the accumulator holds a value passes the guard
    of [setMorph]: it is a channel of the rig or an inherited name other
    than [__proto__]. *)
Definition guarded_names_only (r : Rig) (T : Targets) : Prop :=
  forall n, is_Some (T !! n) ->
    exists d, morphDict r = Some d /\
              (n ∈ d \/ (inherited n = true /\ n <> "__proto__"%string)).

(** *** Word visemes *)

(** An entry of a word's viseme queue: an Oculus viseme other than the
    silence, held and weighted as a vowel or as a consonant. *)
Definition word_viseme_shape (v : WordViseme) : Prop :=
  In (w_viseme v) OCULUS_VISEMES /\ w_viseme v <> "viseme_sil"%string /\
  ((w_duration v = (BASE * 1.5)%float /\ w_intensity v = 1.0%float) \/
   (w_duration v = (BASE * 0.9)%float /\ w_intensity v = 0.75%float)).

(** A mesh for closed examples: two channels, one influence out of range. *)
Definition sample_mesh : Mesh :=
  {| morphTargetDictionary := Some [ ("jawOpen"%string, 0); ("mouthSmileLeft"%string, 1) ];
     morphTargetInfluences := Some {[ 0 := 0.5%float; 1 := 7%float; 2 := 9%float ]} |}.

(** The end of the utterance: [onend] or [onerror]. *)
Definition is_end (ev : Event) : bool :=
  match ev with
  | EvEnd | EvError => true
  | _ => false
  end.

End ControllerSpec.

(** ** Notions used to state the properties of the routes *)

Module RouteSpec.
Import JS Server Routes.

(** What the client reads in a reply of [/api/chat]. *)
Definition chat_contract (r : Reply) : Prop :=
  match status r with
  | 200 =>
      exists t e,
        field r "response" = Some (JString t) /\
        field r "phonemes" = Some (JTimeline (generatePhonemeData t)) /\
        field r "emotion" = Some (JString e) /\
        In e EMOTION_NAMES /\ table_has Client.EMOTIONS e = true /\
        field r "error" = None /\ field r "demo" = None
  | 400 => body r = [ ("error"%string, JString "Message is required") ]
  | 500 => field r "error" = Some (JString "Failed to generate response")
  | _ => False
  end.

End RouteSpec.

(** ** Properties of the timeline generator *)

Module ServerFacts.
Import JS Server TimelineSpec.

(** *** The table never maps to silence *)

Lemma table_values_not_silence :
  Forall (fun kv => String.eqb (snd kv) "viseme_sil" = false) CHAR_TO_VISEME.
Proof. repeat constructor. Qed.

Lemma table_get_not_silence (t : list (string * string)) k v :
  Forall (fun kv => String.eqb (snd kv) "viseme_sil" = false) t ->
  JS.table_get t k = Some v -> String.eqb v "viseme_sil" = false.
Proof.
  induction 1 as [|[k' v'] t' Hkv _ IH]; simpl; [discriminate|].
  destruct (String.eqb k' k); [|exact IH].
  intros [= <-]. exact Hkv.
Qed.

Lemma viseme_at_not_silence w v :
  viseme_at w = Some v -> String.eqb v "viseme_sil" = false.
Proof.
  unfold viseme_at. destruct w as [|c rest]; [discriminate|].
  destruct (JS.table_get CHAR_TO_VISEME (digraph_at (c :: rest))) eqn:E.
  - intros [= <-].
    exact (table_get_not_silence _ _ _ table_values_not_silence E).
  - apply table_get_not_silence, table_values_not_silence.
Qed.

(** *** Induction over the character loop

    The loop advances by one or two positions, so properties of
    [scan_chars] are proved by induction on a bound of the length. *)

Lemma scan_chars_ind (P : list ascii -> Prop) :
  P [] ->
  (forall c rest, P rest -> (forall c2 rest2, rest = c2 :: rest2 -> P rest2) ->
                  P (c :: rest)) ->
  forall w, P w.
Proof.
  intros Hnil Hcons w.
  assert (H : forall n w, length w <= n -> P w).
  { induction n as [|n IH]; intros [|c rest] Hlen; simpl in Hlen;
      try exact Hnil; try lia.
    apply Hcons.
    - apply IH. lia.
    - intros c2 rest2 ->. apply IH. simpl in Hlen. lia. }
  apply (H (length w)). lia.
Qed.

(** One step of the character loop, as an equation. *)
Lemma scan_chars_cons emph c rest phs t :
  scan_chars emph (c :: rest) (phs, t) =
  match viseme_at (c :: rest) with
  | Some v =>
      let ph := {| viseme := v; time := t;
                   duration := char_duration c (head rest);
                   intensity := char_intensity c emph |} in
      let st' := (phs ++ [ph], (t + BASE_CHAR_DURATION)%float) in
      match rest with
      | [] => st'
      | _ :: rest2 =>
          if JS.table_has CHAR_TO_VISEME (digraph_at (c :: rest))
          then scan_chars emph rest2 st'
          else scan_chars emph rest st'
      end
  | None => scan_chars emph rest (phs, (t + BASE_CHAR_DURATION)%float)
  end.
Proof. reflexivity. Qed.

(** A state invariant [I] that holds after a push of a viseme event at the
    clock and after a clock step holds after the whole character loop. *)
Lemma scan_chars_invariant (I : GenState -> Prop) emph :
  (forall phs t v c next,
      I (phs, t) -> String.eqb v "viseme_sil" = false ->
      I (phs ++ [ {| viseme := v; time := t;
                     duration := char_duration c next;
                     intensity := char_intensity c emph |} ],
         (t + BASE_CHAR_DURATION)%float)) ->
  (forall phs t, I (phs, t) -> I (phs, (t + BASE_CHAR_DURATION)%float)) ->
  forall w st, I st -> I (scan_chars emph w st).
Proof.
  intros Hpush Hstep w.
  induction w as [|c rest IH1 IH2] using scan_chars_ind; intros [phs t] HI.
  - exact HI.
  - rewrite scan_chars_cons.
    destruct (viseme_at (c :: rest)) as [v|] eqn:Ev.
    + pose proof (viseme_at_not_silence _ _ Ev) as Hv.
      pose proof (Hpush phs t v c (head rest) HI Hv) as HI'.
      cbv zeta. destruct rest as [|c2 rest2]; [exact HI'|].
      destruct (JS.table_has CHAR_TO_VISEME (digraph_at (c :: c2 :: rest2))).
      * apply (IH2 c2 rest2 eq_refl), HI'.
      * apply IH1, HI'.
    + apply IH1, Hstep, HI.
Qed.

(** The same for the whole generator: an invariant kept by the three
    state changes of the loops holds of the result. *)
Lemma loop_words_invariant (I : GenState -> Prop) :
  (forall emph phs t v c next,
      I (phs, t) -> String.eqb v "viseme_sil" = false ->
      I (phs ++ [ {| viseme := v; time := t;
                     duration := char_duration c next;
                     intensity := char_intensity c emph |} ],
         (t + BASE_CHAR_DURATION)%float)) ->
  (forall phs t, I (phs, t) -> I (phs, (t + BASE_CHAR_DURATION)%float)) ->
  (forall phs t pause, I (phs, t) ->
      I (phs ++ [silence t pause], (t + pause)%float)) ->
  forall words wi st, I st -> I (loop_words wi words st).
Proof.
  intros Hpush Hstep Hsil words.
  induction words as [|raw words IH]; intros wi st HI; [exact HI|].
  simpl. apply IH. unfold process_word.
  assert (Hps : forall p st', I st' -> I (push_silence p st')).
  { intros p [phs t] H. unfold push_silence. apply Hsil, H. }
  destruct (List.filter is_word_char raw) as [|c w] eqn:Ew.
  - destruct (negb (length (trailing_punct raw) =? 0)); [apply Hps|]; exact HI.
  - apply Hps, scan_chars_invariant; auto.
Qed.

(** *** The running clock *)

Lemma last_snoc_some {A} (l : list A) (x : A) : last (l ++ [x]) = Some x.
Proof. apply last_snoc. Qed.

Lemma push_silence_ends p st : ends_in_silence (push_silence p st).
Proof.
  destruct st as [phs t]. unfold push_silence, ends_in_silence. simpl.
  rewrite last_snoc_some. simpl. auto.
Qed.

Lemma process_word_ends wi raw st :
  ends_in_silence st -> ends_in_silence (process_word wi raw st).
Proof.
  intros H. unfold process_word.
  destruct (List.filter is_word_char raw).
  - destruct (negb (length (trailing_punct raw) =? 0)); [|exact H].
    apply push_silence_ends.
  - apply push_silence_ends.
Qed.

Lemma loop_words_ends words wi st :
  ends_in_silence st -> ends_in_silence (loop_words wi words st).
Proof.
  revert wi st. induction words as [|raw words IH]; intros wi st H; [exact H|].
  simpl. apply IH, process_word_ends, H.
Qed.

Lemma generate_unfold text :
  generatePhonemeData text =
  {| phonemes := fst (loop_words 0 (words_of text) ([], 0%float));
     totalDuration := snd (loop_words 0 (words_of text) ([], 0%float)) |}.
Proof.
  unfold generatePhonemeData.
  destruct (loop_words 0 (words_of text) ([], 0%float)). reflexivity.
Qed.

Lemma loop_words_clock words wi :
  forall st, (fst st = [] -> snd st = 0%float) ->
  fst (loop_words wi words st) = [] -> snd (loop_words wi words st) = 0%float.
Proof.
  revert wi. induction words as [|raw words IH]; intros wi st H; [exact H|].
  simpl. apply IH. unfold process_word.
  assert (Hps : forall p st', fst (push_silence p st') = [] ->
                              snd (push_silence p st') = 0%float).
  { intros p [phs t]. unfold push_silence. simpl.
    intros E. destruct phs; discriminate E. }
  destruct (List.filter is_word_char raw).
  - destruct (negb (length (trailing_punct raw) =? 0)); [apply Hps|exact H].
  - apply Hps.
Qed.

(** C10: when the generator returns events, the last one is a silence
    event of intensity 0, and [totalDuration] is its time plus its
    duration. *)
Theorem last_event_is_silence (text : string) :
  phonemes (generatePhonemeData text) <> [] ->
  exists e, last (phonemes (generatePhonemeData text)) = Some e /\
            viseme e = "viseme_sil"%string /\ intensity e = 0%float /\
            totalDuration (generatePhonemeData text)
            = (time e + duration e)%float.
Proof.
  rewrite generate_unfold. simpl. intros Hne.
  pose proof (loop_words_ends (words_of text) 0 ([], 0%float) eq_refl) as H.
  unfold ends_in_silence in H.
  destruct (last (fst (loop_words 0 (words_of text) ([], 0%float)))) as [e|].
  - exists e. tauto.
  - contradiction.
Qed.

Lemma last_event_is_silence_witness :
  exists e, last (phonemes (generatePhonemeData "Hello, world!")) = Some e /\
            viseme e = "viseme_sil"%string /\ intensity e = 0%float /\
            totalDuration (generatePhonemeData "Hello, world!")
            = (time e + duration e)%float.
Proof.
  apply (last_event_is_silence "Hello, world!"). vm_compute. discriminate.
Defined.

(** *** Where an event comes from *)

(** The character loop only pushes events of characters of the word: a
    property [P] of the event of every position holds of all events pushed.
    [pre] is the part of the word already scanned. *)
Lemma scan_chars_origin (P : Phoneme -> Prop) emph word :
  (forall i c v t, word !! i = Some c -> viseme_at (drop i word) = Some v ->
     P {| viseme := v; time := t;
          duration := char_duration c (word !! S i);
          intensity := char_intensity c emph |}) ->
  forall w pre st, word = pre ++ w ->
    Forall P (fst st) -> Forall P (fst (scan_chars emph w st)).
Proof.
  intros HP w.
  induction w as [|c rest IH1 IH2] using scan_chars_ind;
    intros pre [phs t] Hw Hall; [exact Hall|].
  rewrite scan_chars_cons.
  assert (Hc : word !! length pre = Some c).
  { rewrite Hw. apply list_lookup_middle. reflexivity. }
  assert (Hnext : word !! S (length pre) = head rest).
  { rewrite Hw, (cons_middle c pre rest), app_assoc.
    rewrite lookup_app_r; rewrite length_app; simpl; [|lia].
    replace (S (length pre) - (length pre + 1)) with 0 by lia.
    symmetry. apply head_lookup. }
  assert (Hdrop : drop (length pre) word = c :: rest).
  { rewrite Hw. rewrite drop_app_length. reflexivity. }
  assert (Hrest : word = (pre ++ [c]) ++ rest).
  { rewrite Hw, <- app_assoc. reflexivity. }
  destruct (viseme_at (c :: rest)) as [v|] eqn:Ev.
  - assert (Hall' : Forall P (phs ++
        [ {| viseme := v; time := t; duration := char_duration c (head rest);
             intensity := char_intensity c emph |} ])).
    { apply Forall_app. split; [exact Hall|]. constructor; [|constructor].
      rewrite <- Hnext. apply HP; [exact Hc|]. rewrite Hdrop. exact Ev. }
    cbv zeta. destruct rest as [|c2 rest2]; [exact Hall'|].
    destruct (JS.table_has CHAR_TO_VISEME (digraph_at (c :: c2 :: rest2))).
    + apply (IH2 c2 rest2 eq_refl ((pre ++ [c]) ++ [c2])); [|exact Hall'].
      rewrite Hrest, <- !app_assoc. reflexivity.
    + apply (IH1 (pre ++ [c])); [exact Hrest|exact Hall'].
  - apply (IH1 (pre ++ [c])); [exact Hrest|exact Hall].
Qed.

Lemma loop_words_origin all_words :
  forall words pre st, all_words = pre ++ words ->
    Forall (fun e => is_silence e = true \/ event_of_char all_words e) (fst st) ->
    Forall (fun e => is_silence e = true \/ event_of_char all_words e)
           (fst (loop_words (length pre) words st)).
Proof.
  induction words as [|raw words IH]; intros pre st Hw Hall; [exact Hall|].
  simpl.
  replace (S (length pre)) with (length (pre ++ [raw]))
    by (rewrite length_app; simpl; lia).
  apply IH; [rewrite Hw, <- app_assoc; reflexivity|].
  assert (Hraw : all_words !! length pre = Some raw).
  { rewrite Hw. apply list_lookup_middle. reflexivity. }
  assert (Hps : forall p st',
    Forall (fun e => is_silence e = true \/ event_of_char all_words e) (fst st') ->
    Forall (fun e => is_silence e = true \/ event_of_char all_words e)
           (fst (push_silence p st'))).
  { intros p [phs t] H. unfold push_silence. simpl.
    apply Forall_app. split; [exact H|]. constructor; [|constructor].
    left. reflexivity. }
  unfold process_word.
  destruct (List.filter is_word_char raw) as [|c0 w0] eqn:Eword.
  - destruct (negb (length (trailing_punct raw) =? 0)); [apply Hps|]; exact Hall.
  - apply Hps. rewrite <- Eword.
    apply (scan_chars_origin _ _ (List.filter is_word_char raw)) with (pre := []);
      [|reflexivity|exact Hall].
    intros i c v t Hc Hv. right.
    exists (length pre), raw, i, c. simpl. auto.
Qed.

Lemma generate_origin text :
  Forall (fun e => is_silence e = true \/ event_of_char (words_of text) e)
         (phonemes (generatePhonemeData text)).
Proof.
  rewrite generate_unfold. simpl.
  apply (loop_words_origin (words_of text) (words_of text) []);
    [reflexivity|constructor].
Qed.

(** *** Tokens of the split *)

(** The tokens, put together again, are the units that are not white
    space. *)
Lemma split_ws_from_concat s : forall cur in_ws,
  concat (split_ws_from s cur in_ws) = cur ++ List.filter not_space s.
Proof.
  induction s as [|c s IH]; intros cur in_ws; simpl.
  - reflexivity.
  - unfold not_space at 1. destruct (is_space c); simpl.
    + destruct in_ws; simpl; rewrite IH; [reflexivity|].
      simpl. reflexivity.
    + rewrite IH, <- app_assoc. reflexivity.
Qed.

Lemma token_units s tok c :
  In tok (split_ws s) -> In c tok -> In c s /\ is_space c = false.
Proof.
  intros Htok Hc.
  assert (H : In c (concat (split_ws s))).
  { apply List.in_concat. exists tok. split; assumption. }
  unfold split_ws in H. rewrite split_ws_from_concat in H. simpl in H.
  apply List.filter_In in H. destruct H as [H1 H2]. split; [exact H1|].
  unfold not_space in H2. destruct (is_space c); [discriminate|reflexivity].
Qed.

(** The units of the tokens of a text are permitted units of the
    lower-cased text, and none is white space. *)
Lemma words_of_units text raw c :
  In raw (words_of text) -> In c raw ->
  In c (toLowerCase (list_ascii_of_string text)) /\
  is_permitted c = true /\ is_space c = false.
Proof.
  intros Hraw Hc. unfold words_of in Hraw.
  destruct (token_units _ _ _ Hraw Hc) as [H1 H2].
  apply List.filter_In in H1. tauto.
Qed.

Lemma lookup_In {A} (l : list A) i x : l !! i = Some x -> In x l.
Proof. intros H. apply list_elem_of_In. eapply list_elem_of_lookup_2, H. Qed.

Lemma vowel_or_space_lower c :
  is_vowel c || is_space c = true -> toLowerCase_unit c = c.
Proof.
  destruct c as [[] [] [] [] [] [] [] []]; vm_compute;
    intros H; first [reflexivity | discriminate H].
Qed.

(** *** The events of one token (C5) *)

Lemma scan_chars_app emph w : forall phs t,
  scan_chars emph w (phs, t) =
  (phs ++ fst (scan_chars emph w ([], t)), snd (scan_chars emph w ([], t))).
Proof.
  induction w as [|c rest IH1 IH2] using scan_chars_ind; intros phs t.
  - simpl. rewrite app_nil_r. reflexivity.
  - rewrite !scan_chars_cons.
    destruct (viseme_at (c :: rest)) as [v|].
    + cbv zeta. destruct rest as [|c2 rest2].
      * reflexivity.
      * destruct (JS.table_has CHAR_TO_VISEME (digraph_at (c :: c2 :: rest2))).
        -- rewrite (IH2 c2 rest2 eq_refl (phs ++ _)).
           rewrite (IH2 c2 rest2 eq_refl ([] ++ _)).
           simpl. rewrite <- app_assoc. reflexivity.
        -- rewrite (IH1 (phs ++ _)). rewrite (IH1 ([] ++ _)).
           simpl. rewrite <- app_assoc. reflexivity.
    + apply IH1.
Qed.

Lemma process_word_app wi raw phs t :
  process_word wi raw (phs, t) =
  (phs ++ fst (process_word wi raw ([], t)), snd (process_word wi raw ([], t))).
Proof.
  unfold process_word. destruct (List.filter is_word_char raw) as [|c w].
  - destruct (negb (length (trailing_punct raw) =? 0)); simpl.
    + reflexivity.
    + rewrite app_nil_r. reflexivity.
  - rewrite scan_chars_app.
    destruct (scan_chars _ (c :: w) ([], t)) as [evs t'].
    simpl. rewrite <- app_assoc. reflexivity.
Qed.

(** The events of a text are the events of its tokens, one after the
    other: the chunk of token [wi] holds what [process_word] pushes for it
    at some clock value. *)
Lemma loop_words_chunks words : forall wi st,
  exists chunks,
    fst (loop_words wi words st) = fst st ++ concat chunks /\
    length chunks = length words /\
    forall k raw chunk, words !! k = Some raw -> chunks !! k = Some chunk ->
      exists t, chunk = fst (process_word (wi + k) raw ([], t)).
Proof.
  induction words as [|raw words IH]; intros wi [phs t].
  - exists []. simpl. rewrite app_nil_r. split; [reflexivity|].
    split; [reflexivity|]. intros k r c H. discriminate H.
  - simpl. rewrite process_word_app.
    destruct (IH (S wi) (phs ++ fst (process_word wi raw ([], t)),
                         snd (process_word wi raw ([], t))))
      as (chunks & H1 & H2 & H3).
    exists (fst (process_word wi raw ([], t)) :: chunks).
    rewrite H1. simpl. rewrite <- app_assoc. split; [reflexivity|].
    split; [rewrite H2; reflexivity|].
    intros [|k] r c Hr Hc; simpl in Hr, Hc.
    + injection Hr as <-. injection Hc as <-. exists t.
      rewrite Nat.add_0_r. reflexivity.
    + replace (wi + S k) with (S wi + k) by lia. eapply H3; eassumption.
Qed.

Lemma includes_In c p : includes c p = true <-> In c p.
Proof.
  unfold includes. rewrite existsb_exists. split.
  - intros (x & Hx & E). apply Ascii.eqb_eq in E. subst x. exact Hx.
  - intros H. exists c. split; [exact H|]. apply Ascii.eqb_refl.
Qed.

Lemma includes_not_In c p : includes c p = false <-> ~ In c p.
Proof.
  rewrite <- includes_In. destruct (includes c p); split; intros H;
    try reflexivity; try discriminate H; try (intros H'; discriminate H').
  exfalso. apply H. reflexivity.
Qed.

Lemma push_silence_pause p phs t :
  exists sil,
    push_silence p (phs, t) = (phs ++ [sil], (t + duration sil)%float) /\
    viseme sil = "viseme_sil"%string /\ time sil = t /\
    intensity sil = 0%float /\ pause_of_punctuation p (duration sil).
Proof.
  unfold push_silence.
  exists (silence t (if negb (length p =? 0) then pauseDuration p else WORD_GAP)).
  split; [reflexivity|]. simpl.
  split; [reflexivity|]. split; [reflexivity|]. split; [reflexivity|].
  unfold pause_of_punctuation.
  destruct p as [|c p]; simpl negb; cbv iota.
  - split; [reflexivity|]. simpl. tauto.
  - unfold pauseDuration.
    destruct (includes "." (c :: p)) eqn:E1;
      [apply includes_In in E1|apply includes_not_In in E1].
    { split; [discriminate|]. split; [reflexivity|]. tauto. }
    destruct (includes "!" (c :: p)) eqn:E2;
      [apply includes_In in E2|apply includes_not_In in E2].
    { split; [discriminate|]. split; [tauto|]. split; [reflexivity|]. tauto. }
    destruct (includes "?" (c :: p)) eqn:E3;
      [apply includes_In in E3|apply includes_not_In in E3].
    { split; [discriminate|]. split; [tauto|]. split; [reflexivity|]. tauto. }
    destruct (includes "," (c :: p)) eqn:E4;
      [apply includes_In in E4|apply includes_not_In in E4].
    { split; [discriminate|]. split; [tauto|]. split; [tauto|]. reflexivity. }
    split; [discriminate|]. tauto.
Qed.

Lemma take_while_all p s : Forall (fun c => p c = true) s -> take_while p s = s.
Proof.
  induction 1 as [|c s Hc _ IH]; simpl; [reflexivity|].
  rewrite Hc, IH. reflexivity.
Qed.

(** A token without word characters is made of punctuation marks. *)
Lemma token_of_punctuation raw :
  Forall (fun c => is_permitted c = true /\ is_space c = false) raw ->
  List.filter is_word_char raw = [] -> trailing_punct raw = raw.
Proof.
  intros Hok Hw. unfold trailing_punct.
  rewrite take_while_all; [apply rev_involutive|].
  apply List.Forall_forall. intros c Hc. apply in_rev in Hc.
  rewrite List.Forall_forall in Hok. destruct (Hok c Hc) as [Hp Hs].
  assert (Hwc : is_word_char c = false).
  { destruct (is_word_char c) eqn:E; [|reflexivity].
    assert (Hin : In c (List.filter is_word_char raw))
      by (apply List.filter_In; split; assumption).
    rewrite Hw in Hin. destruct Hin. }
  unfold is_permitted in Hp. unfold is_word_char in Hwc. rewrite Hs in Hp.
  destruct (is_lower c), (is_punct c), (Ascii.eqb c "'"), (Ascii.eqb c "-");
    simpl in *; congruence.
Qed.

Lemma scan_chars_no_silence emph w st :
  Forall (fun e => viseme e <> "viseme_sil"%string) (fst st) ->
  Forall (fun e => viseme e <> "viseme_sil"%string) (fst (scan_chars emph w st)).
Proof.
  apply (scan_chars_invariant
           (fun st => Forall (fun e => viseme e <> "viseme_sil"%string) (fst st))).
  - intros phs t v c next H Hv. simpl in *. apply Forall_app.
    split; [exact H|]. constructor; [|constructor]. simpl.
    intros ->. discriminate Hv.
  - intros phs t H. exact H.
Qed.

(** A token that is not empty pushes the viseme events of its word and then
    one silence event. *)
Lemma process_word_chunk wi raw t :
  Forall (fun c => is_permitted c = true /\ is_space c = false) raw ->
  raw <> [] ->
  exists evs sil,
    fst (process_word wi raw ([], t)) = evs ++ [sil] /\
    Forall (fun e => viseme e <> "viseme_sil"%string) evs /\
    viseme sil = "viseme_sil"%string /\ intensity sil = 0%float /\
    pause_of_punctuation (trailing_punct raw) (duration sil).
Proof.
  intros Hok Hne. unfold process_word.
  destruct (List.filter is_word_char raw) as [|c w] eqn:Ew.
  - rewrite (token_of_punctuation raw Hok Ew).
    destruct raw as [|c0 raw0]; [contradiction|]. simpl negb. cbv iota.
    destruct (push_silence_pause (c0 :: raw0) [] t) as (sil & E & H1 & _ & H3 & H4).
    exists [], sil. rewrite E. simpl. auto.
  - destruct (scan_chars _ (c :: w) ([], t)) as [evs t'] eqn:Es.
    destruct (push_silence_pause (trailing_punct raw) evs t')
      as (sil & E & H1 & _ & H3 & H4).
    exists evs, sil. rewrite E. simpl. split; [reflexivity|].
    split; [|auto].
    change evs with (fst (evs, t')). rewrite <- Es.
    apply scan_chars_no_silence. constructor.
Qed.

Lemma viseme_at_letter c rest v :
  is_word_char c = true -> viseme_at (c :: rest) = Some v -> is_lower c = true.
Proof.
  unfold is_word_char. destruct (is_lower c); [reflexivity|]. simpl.
  destruct (Ascii.eqb c "'") eqn:E1.
  - apply Ascii.eqb_eq in E1. subst c. destruct rest; discriminate.
  - destruct (Ascii.eqb c "-") eqn:E2; [|discriminate].
    apply Ascii.eqb_eq in E2. subst c. destruct rest; discriminate.
Qed.

(** C5: (1) the events of a text are the events of its tokens in order,
    and the events of every token that is not empty end with a silence event
    (intensity 0) whose duration follows the trailing punctuation: 0.35 s
    with a period, 0.30 s with an exclamation or question mark, 0.20 s with a
    comma, 0.07 s without punctuation; (2) for [Hello, world!] the comma
    gives a 0.20 s silence and the exclamation mark a 0.30 s silence, and
    the ten letters give the only viseme events; (3) every viseme event
    belongs to a letter a-z of the case-folded text. *)
Theorem silence_follows_every_word :
  (forall text : string,
     exists chunks : list (list Phoneme),
       phonemes (generatePhonemeData text) = concat chunks /\
       length chunks = length (words_of text) /\
       forall wi rawWord chunk,
         words_of text !! wi = Some rawWord -> chunks !! wi = Some chunk ->
         rawWord <> [] ->
         exists evs sil,
           chunk = evs ++ [sil] /\
           Forall (fun e => viseme e <> "viseme_sil"%string) evs /\
           viseme sil = "viseme_sil"%string /\ intensity sil = 0%float /\
           pause_of_punctuation (trailing_punct rawWord) (duration sil)) /\
  map (fun e => (viseme e, duration e))
      (phonemes (generatePhonemeData "Hello, world!"))
  = [ ("viseme_CH", 0.06 * 0.9); ("viseme_E", 0.06 * 1.2 * 1.15);
      ("viseme_DD", 0.06 * 0.9); ("viseme_DD", 0.06 * 0.9);
      ("viseme_O", 0.06 * 1.2); ("viseme_sil", 0.2);
      ("viseme_U", 0.06 * 0.9); ("viseme_O", 0.06 * 1.2 * 1.15);
      ("viseme_RR", 0.06 * 0.9); ("viseme_DD", 0.06 * 0.9);
      ("viseme_DD", 0.06 * 0.9); ("viseme_sil", 0.3) ]%float%string /\
  (forall (text : string) k e,
     phonemes (generatePhonemeData text) !! k = Some e ->
     viseme e <> "viseme_sil"%string ->
     exists c rest,
       In c (toLowerCase (list_ascii_of_string text)) /\
       is_lower c = true /\ viseme_at (c :: rest) = Some (viseme e)).
Proof.
  split; [|split].
  - intros text. rewrite generate_unfold. simpl.
    destruct (loop_words_chunks (words_of text) 0 ([], 0%float))
      as (chunks & H1 & H2 & H3).
    exists chunks. split; [exact H1|]. split; [exact H2|].
    intros wi raw chunk Hraw Hchunk Hne.
    destruct (H3 wi raw chunk Hraw Hchunk) as [t ->].
    apply process_word_chunk; [|exact Hne].
    apply List.Forall_forall. intros c Hc.
    destruct (words_of_units text raw c (lookup_In _ _ _ Hraw) Hc) as (_ & Hp & Hs).
    split; assumption.
  - vm_compute. reflexivity.
  - intros text k e Hk Hv.
    pose proof (generate_origin text) as Hall.
    rewrite Forall_lookup in Hall. destruct (Hall k e Hk) as [Hs|Hc].
    + exfalso. apply Hv, String.eqb_eq, Hs.
    + destruct Hc as (wi & raw & i & c & H1 & H2 & H3 & _).
      rewrite (drop_S _ _ _ H2) in H3.
      exists c, (drop (S i) (List.filter is_word_char raw)).
      pose proof (lookup_In _ _ _ H2) as Hin.
      apply List.filter_In in Hin. destruct Hin as [Hin Hwc].
      destruct (words_of_units text raw c (lookup_In _ _ _ H1) Hin) as (Hl & _ & _).
      split; [exact Hl|]. split; [|exact H3].
      eapply viseme_at_letter; eassumption.
Qed.

Lemma silence_follows_every_word_witness :
  exists chunks : list (list Phoneme),
    phonemes (generatePhonemeData "Hello, world!") = concat chunks /\
    length chunks = length (words_of "Hello, world!") /\
    forall wi rawWord chunk,
      words_of "Hello, world!" !! wi = Some rawWord ->
      chunks !! wi = Some chunk ->
      rawWord <> [] ->
      exists evs sil,
        chunk = evs ++ [sil] /\
        Forall (fun e => viseme e <> "viseme_sil"%string) evs /\
        viseme sil = "viseme_sil"%string /\ intensity sil = 0%float /\
        pause_of_punctuation (trailing_punct rawWord) (duration sil).
Proof.
  apply (proj1 silence_follows_every_word "Hello, world!").
Defined.

(** *** The reading of a text and its clock *)

Lemma events_app a b : events (a ++ b) = events a ++ events b.
Proof. unfold events. apply flat_map_app. Qed.

Lemma events_concat (l : list (list Tick)) :
  events (concat l) = concat (map events l).
Proof.
  induction l as [|x l IH]; [reflexivity|].
  simpl. rewrite events_app, IH. reflexivity.
Qed.

Lemma clocked_app a : forall t b tEnd,
  clocked t (a ++ b) tEnd <-> exists tm, clocked t a tm /\ clocked tm b tEnd.
Proof.
  induction a as [|[e|c] a IH]; intros t b tEnd; simpl.
  - split.
    + intros H. exists t. split; [reflexivity|exact H].
    + intros (tm & -> & H). exact H.
  - rewrite IH. split.
    + intros (Ht & tm & H1 & H2). exists tm. auto.
    + intros (tm & (Ht & H1) & H2). split; [exact Ht|]. exists tm. auto.
  - apply IH.
Qed.

Lemma reads_impl (P Q : ascii -> option ascii -> Phoneme -> Prop) w ticks :
  (forall c next e, P c next e -> Q c next e) ->
  reads P w ticks -> reads Q w ticks.
Proof.
  intros HPQ. induction 1.
  - constructor.
  - apply reads_digraph; auto.
  - apply reads_char; auto.
  - apply reads_pass; auto.
Qed.

Lemma token_reading_impl (P Q : ascii -> option ascii -> Phoneme -> Prop)
  raw ticks :
  (forall c next e, P c next e -> Q c next e) ->
  token_reading P raw ticks -> token_reading Q raw ticks.
Proof.
  intros HPQ. unfold token_reading. destruct raw as [|c0 raw0]; [auto|].
  intros (wticks & sil & H1 & H2 & H3).
  exists wticks, sil. split; [|auto]. eapply reads_impl; eassumption.
Qed.

(** The character loop gives the reading of the word, and its clock. *)
Lemma scan_chars_reading emph w : forall t,
  exists ticks tEnd,
    scan_chars emph w ([], t) = (events ticks, tEnd) /\
    reads (char_event emph) w ticks /\
    clocked t ticks tEnd.
Proof.
  induction w as [|c rest IH1 IH2] using scan_chars_ind; intros t.
  - exists [], t. simpl. split; [reflexivity|]. split; [constructor|reflexivity].
  - rewrite scan_chars_cons. unfold viseme_at.
    destruct (JS.table_get CHAR_TO_VISEME (digraph_at (c :: rest)))
      as [v|] eqn:Ed.
    + (* a digraph *)
      destruct rest as [|c2 rest2]; [discriminate Ed|].
      cbv zeta. unfold JS.table_has. rewrite Ed.
      set (ph := {| viseme := v; time := t;
                    duration := char_duration c (head (c2 :: rest2));
                    intensity := char_intensity c emph |}).
      destruct (IH2 c2 rest2 eq_refl (t + BASE_CHAR_DURATION)%float)
        as (ticks & tEnd & E & Hr & Hc).
      exists (Emit ph :: ticks), tEnd.
      rewrite scan_chars_app, E. simpl. split; [reflexivity|]. split.
      * apply reads_digraph; [exact Ed|split; reflexivity|exact Hr].
      * split; [reflexivity|].
        unfold clock_after, is_silence. simpl.
        rewrite (table_get_not_silence _ _ _ table_values_not_silence Ed).
        exact Hc.
    + destruct (JS.table_get CHAR_TO_VISEME (String c "")) as [v|] eqn:Ec.
      * (* a character with a viseme *)
        cbv zeta.
        set (ph := {| viseme := v; time := t;
                      duration := char_duration c (head rest);
                      intensity := char_intensity c emph |}).
        destruct (IH1 (t + BASE_CHAR_DURATION)%float)
          as (ticks & tEnd & E & Hr & Hc).
        exists (Emit ph :: ticks), tEnd.
        assert (Hclock : clocked t (Emit ph :: ticks) tEnd).
        { split; [reflexivity|].
          unfold clock_after, is_silence. simpl.
          rewrite (table_get_not_silence _ _ _ table_values_not_silence Ec).
          exact Hc. }
        assert (Hreads : reads (char_event emph) (c :: rest) (Emit ph :: ticks))
          by (apply reads_char; [exact Ed|exact Ec|split; reflexivity|exact Hr]).
        destruct rest as [|c2 rest2].
        -- simpl in E. injection E as E1 E2. subst tEnd.
           simpl. rewrite <- E1. auto.
        -- unfold JS.table_has. rewrite Ed.
           rewrite scan_chars_app, E. simpl. auto.
      * (* a character without a viseme *)
        destruct (IH1 (t + BASE_CHAR_DURATION)%float)
          as (ticks & tEnd & E & Hr & Hc).
        exists (Pass c :: ticks), tEnd. rewrite E. simpl.
        split; [reflexivity|]. split; [|exact Hc].
        apply reads_pass; assumption.
Qed.

(** One token: its reading, the events pushed and the clock. *)
Lemma process_word_reading wi raw t :
  Forall (fun c => is_permitted c = true /\ is_space c = false) raw ->
  exists ticks tEnd,
    process_word wi raw ([], t) = (events ticks, tEnd) /\
    token_reading (char_event (wordEmphasis_at wi)) raw ticks /\
    clocked t ticks tEnd.
Proof.
  intros Hok. unfold process_word.
  destruct (List.filter is_word_char raw) as [|c w] eqn:Ew.
  - destruct raw as [|c0 raw0].
    + exists [], t. simpl. auto.
    + rewrite (token_of_punctuation (c0 :: raw0) Hok Ew). simpl negb. cbv iota.
      destruct (push_silence_pause (c0 :: raw0) [] t)
        as (sil & E & H1 & H2 & _).
      exists [Emit sil], (t + duration sil)%float. rewrite E.
      split; [reflexivity|]. split.
      * unfold token_reading. exists [], sil. rewrite Ew.
        split; [constructor|]. split; [|reflexivity].
        unfold is_silence. rewrite H1. reflexivity.
      * simpl. split; [exact H2|].
        unfold clock_after, is_silence. rewrite H1, H2. reflexivity.
  - destruct raw as [|c0 raw0]; [discriminate Ew|].
    destruct (scan_chars_reading (wordEmphasis_at wi) (c :: w) t)
      as (wticks & t' & E & Hr & Hc).
    fold (wordEmphasis_at wi). rewrite E.
    destruct (push_silence_pause (trailing_punct (c0 :: raw0)) (events wticks) t')
      as (sil & E' & H1 & H2 & _).
    exists (wticks ++ [Emit sil]), (t' + duration sil)%float.
    rewrite E', events_app. split; [reflexivity|]. split.
    + unfold token_reading. exists wticks, sil. rewrite Ew.
      split; [exact Hr|]. split; [|reflexivity].
      unfold is_silence. rewrite H1. reflexivity.
    + apply clocked_app. exists t'. split; [exact Hc|].
      simpl. split; [exact H2|].
      unfold clock_after, is_silence. rewrite H1, H2. reflexivity.
Qed.

Lemma loop_words_app words : forall wi phs t,
  loop_words wi words (phs, t) =
  (phs ++ fst (loop_words wi words ([], t)), snd (loop_words wi words ([], t))).
Proof.
  induction words as [|raw words IH]; intros wi phs t; simpl.
  - rewrite app_nil_r. reflexivity.
  - rewrite process_word_app.
    rewrite (IH (S wi) (phs ++ _)).
    destruct (process_word wi raw ([], t)) as [evs t'] eqn:E. simpl.
    rewrite (IH (S wi) evs t'). simpl. rewrite <- app_assoc. reflexivity.
Qed.

(** The whole text: one reading per token, and one clock through them. *)
Lemma loop_words_reading words : forall wi t,
  Forall (Forall (fun c => is_permitted c = true /\ is_space c = false)) words ->
  exists readings tEnd,
    loop_words wi words ([], t) = (events (concat readings), tEnd) /\
    length readings = length words /\
    (forall k raw ticks,
        words !! k = Some raw -> readings !! k = Some ticks ->
        token_reading (char_event (wordEmphasis_at (wi + k))) raw ticks) /\
    clocked t (concat readings) tEnd.
Proof.
  induction words as [|raw words IH]; intros wi t Hok.
  - exists [], t. simpl. split; [reflexivity|]. split; [reflexivity|].
    split; [|reflexivity]. intros k r c H. discriminate H.
  - inversion Hok as [|? ? Hraw Hrest]; subst.
    destruct (process_word_reading wi raw t Hraw) as (ticks & t' & E & Hk & Hc).
    destruct (IH (S wi) t' Hrest) as (readings & tEnd & E' & Hlen & Hall & Hc').
    exists (ticks :: readings), tEnd. simpl.
    rewrite E, loop_words_app, E'. simpl. rewrite events_app.
    split; [reflexivity|]. split; [rewrite Hlen; reflexivity|]. split.
    + intros [|k] r c Hr Hcs; simpl in Hr, Hcs.
      * injection Hr as <-. injection Hcs as <-.
        rewrite Nat.add_0_r. exact Hk.
      * replace (wi + S k) with (S wi + k) by lia. eapply Hall; eassumption.
    + apply clocked_app. exists t'. auto.
Qed.

Lemma words_of_ok text :
  Forall (Forall (fun c => is_permitted c = true /\ is_space c = false))
         (words_of text).
Proof.
  apply List.Forall_forall. intros raw Hraw.
  apply List.Forall_forall. intros c Hc.
  destruct (words_of_units text raw c Hraw Hc) as (_ & Hp & Hs). auto.
Qed.

Lemma generate_reading text :
  exists readings : list (list Tick),
    length readings = length (words_of text) /\
    (forall wi rawWord ticks,
        words_of text !! wi = Some rawWord -> readings !! wi = Some ticks ->
        token_reading (char_event (wordEmphasis_at wi)) rawWord ticks) /\
    events (concat readings) = phonemes (generatePhonemeData text) /\
    clocked 0 (concat readings) (totalDuration (generatePhonemeData text)).
Proof.
  destruct (loop_words_reading (words_of text) 0 0%float (words_of_ok text))
    as (readings & tEnd & E & Hlen & Hall & Hc).
  exists readings. rewrite generate_unfold, E. simpl. auto.
Qed.

(** Every letter has a viseme of its own: the characters that are passed
    are apostrophes and hyphens. *)
Lemma letter_has_viseme c :
  is_lower c = true -> JS.table_get CHAR_TO_VISEME (String c "") <> None.
Proof.
  destruct c as [[] [] [] [] [] [] [] []]; vm_compute;
    intros H; first [discriminate H | discriminate].
Qed.

Lemma reads_passes P w ticks :
  Forall (fun c => is_word_char c = true) w -> reads P w ticks ->
  Forall silent_pass ticks.
Proof.
  intros Hw Hr. induction Hr as [|c c2 rest e ticks Ht HP Hr IH
                                 |c rest e ticks Hd Ht HP Hr IH
                                 |c rest ticks Hd Ht Hr IH].
  - constructor.
  - inversion Hw as [|? ? _ Hw']; subst. inversion Hw' as [|? ? _ Hw'']; subst.
    constructor; [exact I|auto].
  - inversion Hw as [|? ? _ Hw']; subst. constructor; [exact I|auto].
  - inversion Hw as [|? ? Hc Hw']; subst. constructor; [|auto].
    unfold is_word_char in Hc. simpl.
    destruct (is_lower c) eqn:El.
    + exfalso. exact (letter_has_viseme c El Ht).
    + simpl in Hc. apply orb_prop in Hc as [Hc|Hc];
        apply Ascii.eqb_eq in Hc; auto.
Qed.

Lemma token_reading_passes P raw ticks :
  token_reading P raw ticks ->
  Forall silent_pass ticks.
Proof.
  unfold token_reading. destruct raw as [|c0 raw0]; [intros ->; constructor|].
  intros (wticks & sil & Hr & _ & ->).
  apply Forall_app. split; [|constructor; [exact I|constructor]].
  eapply reads_passes; [|exact Hr].
  apply List.Forall_forall. intros c Hc.
  apply List.filter_In in Hc. tauto.
Qed.

(** The events read inside a word are viseme events. *)
Lemma reads_viseme P w ticks :
  reads P w ticks -> reads (fun _ _ e => is_silence e = false) w ticks.
Proof.
  induction 1 as [|c c2 rest e ticks Ht HP Hr IH
                  |c rest e ticks Hd Ht HP Hr IH
                  |c rest ticks Hd Ht Hr IH].
  - constructor.
  - apply reads_digraph; [exact Ht| |exact IH].
    exact (table_get_not_silence _ _ _ table_values_not_silence Ht).
  - apply reads_char; [exact Hd|exact Ht| |exact IH].
    exact (table_get_not_silence _ _ _ table_values_not_silence Ht).
  - apply reads_pass; assumption.
Qed.

Lemma token_reading_viseme P raw ticks :
  token_reading P raw ticks ->
  token_reading (fun _ _ e => is_silence e = false) raw ticks.
Proof.
  unfold token_reading. destruct raw as [|c0 raw0]; [auto|].
  intros (wticks & sil & H1 & H2 & H3).
  exists wticks, sil. split; [|auto]. eapply reads_viseme, H1.
Qed.

(** The segmentation of the text alone: which characters give an event. *)
Lemma generate_segmentation (text : string) :
  exists readings : list (list Tick),
    length readings = length (words_of text) /\
    (forall wi rawWord ticks,
        words_of text !! wi = Some rawWord -> readings !! wi = Some ticks ->
        token_reading (fun _ _ e => is_silence e = false) rawWord ticks) /\
    Forall silent_pass (concat readings) /\
    events (concat readings) = phonemes (generatePhonemeData text) /\
    clocked 0 (concat readings) (totalDuration (generatePhonemeData text)).
Proof.
  destruct (generate_reading text) as (readings & Hlen & Hall & He & Hc).
  exists readings. split; [exact Hlen|]. split; [|split; [|auto]].
  - intros wi raw ticks Hraw Hticks.
    eapply token_reading_viseme. exact (Hall wi raw ticks Hraw Hticks).
  - apply Forall_concat. apply Forall_lookup. intros k ticks Hk.
    assert (Hlt : k < length (words_of text)).
    { rewrite <- Hlen. eapply lookup_lt_Some, Hk. }
    destruct (lookup_lt_is_Some_2 _ _ Hlt) as [raw Hraw].
    eapply token_reading_passes. exact (Hall k raw ticks Hraw Hk).
Qed.

(** *** The clock of the events (C1) *)

(** C1, as stated, fails for the text [a]: the vowel's event lasts
    0.06 * 1.2 seconds from time 0, but the clock advances by 0.06 only, so
    the closing silence starts at 0.06 and the total is 0.06 + 0.07, which
    is less than the sum of the two durations. *)
Lemma total_is_not_sum_of_durations :
  let r := generatePhonemeData "a" in
  totalDuration r <> sum_durations (phonemes r) /\
  (totalDuration r <? sum_durations (phonemes r) - 0.01)%float = true /\
  ~ contiguous (phonemes r).
Proof.
  cbv zeta. split; [|split].
  - float_neq.
  - vm_compute. reflexivity.
  - intros H. vm_compute in H. destruct H as [H _]. revert H. float_neq.
Qed.

(** C1, amended: for every text the events are those of the readings of
    its tokens, one reading per token, and one clock runs through them from
    0 to [totalDuration]: every event is emitted at the clock; a silence
    event advances the clock by its duration, a viseme event by the fixed
    character step of 0.06 s (not by its duration), and every character of a
    word that has no viseme, which is an apostrophe or a hyphen, by that
    step too; nothing else advances the clock.  The total is the time at
    which the last event ends, and 0 when there is no event. *)
Theorem total_is_final_clock (text : string) :
  let r := generatePhonemeData text in
  (exists readings : list (list Tick),
     length readings = length (words_of text) /\
     (forall wi rawWord ticks,
        words_of text !! wi = Some rawWord -> readings !! wi = Some ticks ->
        token_reading (fun _ _ e => is_silence e = false) rawWord ticks) /\
     Forall silent_pass (concat readings) /\
     events (concat readings) = phonemes r /\
     clocked 0 (concat readings) (totalDuration r)) /\
  (forall e, last (phonemes r) = Some e ->
             totalDuration r = (time e + duration e)%float) /\
  (phonemes r = [] -> totalDuration r = 0%float).
Proof.
  cbv zeta. split; [|split].
  - exact (generate_segmentation text).
  - rewrite generate_unfold. simpl. intros e He.
    pose proof (loop_words_ends (words_of text) 0 ([], 0%float) eq_refl) as H.
    unfold ends_in_silence in H. rewrite He in H. tauto.
  - rewrite generate_unfold. simpl. apply loop_words_clock. reflexivity.
Qed.

(** *** Duration and intensity of an event (C4) *)

(** C4, as stated, fails for the text [i'm]: the vowel [i] is followed by
    an apostrophe, which is no consonant, and its event still gets the stress
    factor 1.15; no character of the word has the stated duration. *)
Lemma stress_before_apostrophe :
  exists e, phonemes (generatePhonemeData "i'm") !! 0 = Some e /\
    viseme e = "viseme_I"%string /\
    duration e = (0.06 * 1.2 * 1.15)%float /\
    (~ exists wi rawWord i c,
        words_of "i'm" !! wi = Some rawWord /\
        List.filter is_word_char rawWord !! i = Some c /\
        duration e = claimed_duration c (List.filter is_word_char rawWord !! S i)).
Proof.
  eexists. split; [vm_compute; reflexivity|]. split; [reflexivity|].
  split; [vm_compute; reflexivity|].
  intros (wi & raw & i & c & Hraw & Hc & Hd).
  destruct wi as [|wi]; [|destruct wi; discriminate Hraw].
  vm_compute in Hraw. injection Hraw as <-.
  destruct i as [|[|[|i]]]; try discriminate Hc;
    vm_compute in Hc; injection Hc as <-; revert Hd; float_neq.
Qed.

Lemma char_duration_stressed c next :
  char_duration c next = stressed_duration c next.
Proof.
  unfold char_duration, stressed_duration, BASE_CHAR_DURATION.
  destruct next as [n|]; destruct (is_vowel c); try reflexivity.
Qed.

Lemma after_a_word_index (words : list (list ascii)) wi :
  existsb has_word (firstn wi words) = true -> Nat.eqb wi 0 = false.
Proof. destruct wi; [discriminate|reflexivity]. Qed.

(** C4, amended: the events of every token are the reading of its word,
    character by character, and the event read at a character [c] has the
    duration base * 1.2 if [c] is a vowel, else base * 0.9, times 1.15
    exactly when [c] is a vowel, a next character exists in the word and
    that character is not a vowel (a consonant, an apostrophe or a hyphen);
    its intensity is (0.75 if vowel else 0.5) times the word emphasis,
    clamped to 1, where the emphasis is 1.1 in a word with which the text
    begins and 1.0 in every word that comes after a word. *)
Theorem event_duration_and_intensity (text : string) :
  exists readings : list (list Tick),
    length readings = length (words_of text) /\
    events (concat readings) = phonemes (generatePhonemeData text) /\
    forall wi rawWord ticks,
      words_of text !! wi = Some rawWord -> readings !! wi = Some ticks ->
      token_reading
        (fun c next e =>
           duration e = stressed_duration c next /\
           (wi = 0 -> intensity e = emphasised c 1.1) /\
           (existsb has_word (firstn wi (words_of text)) = true ->
            intensity e = emphasised c 1.0))
        rawWord ticks.
Proof.
  destruct (generate_reading text) as (readings & Hlen & Hall & He & _).
  exists readings. split; [exact Hlen|]. split; [exact He|].
  intros wi raw ticks Hraw Hticks.
  eapply token_reading_impl; [|exact (Hall wi raw ticks Hraw Hticks)].
  intros c next e [Hd Hi]. split; [|split].
  - rewrite Hd. apply char_duration_stressed.
  - intros ->. exact Hi.
  - intros Hw. rewrite Hi. unfold char_intensity, emphasised, wordEmphasis_at.
    rewrite (after_a_word_index _ _ Hw). reflexivity.
Qed.

Lemma event_duration_and_intensity_witness :
  exists readings : list (list Tick),
    length readings = length (words_of "i'm here") /\
    events (concat readings) = phonemes (generatePhonemeData "i'm here") /\
    forall wi rawWord ticks,
      words_of "i'm here" !! wi = Some rawWord -> readings !! wi = Some ticks ->
      token_reading
        (fun c next e =>
           duration e = stressed_duration c next /\
           (wi = 0 -> intensity e = emphasised c 1.1) /\
           (existsb has_word (firstn wi (words_of "i'm here")) = true ->
            intensity e = emphasised c 1.0))
        rawWord ticks.
Proof. apply (event_duration_and_intensity "i'm here"). Defined.

(** In a text that starts with white space the first word is not the token
    at index 0 of the split: its events get the emphasis 1.0, although the
    generator's comment gives the beginning of the sentence more emphasis.
    The amended C4 says nothing of such a first word. *)
Lemma first_word_after_white_space :
  map intensity (phonemes (generatePhonemeData "a")) = [0.75 * 1.1; 0]%float /\
  map intensity (phonemes (generatePhonemeData " a")) = [0.75; 0]%float.
Proof. split; vm_compute; reflexivity. Qed.

(** *** All-vowel words (C6) *)

(** C6, as stated, fails for the word [eye] that the specification gives
    as its example: the generator counts [y] as a consonant, and the event
    of [y] gets the consonant factor 0.9. *)
Lemma eye_has_a_consonant_duration :
  exists e, phonemes (generatePhonemeData "eye") !! 1 = Some e /\
    viseme e = "viseme_CH"%string /\
    duration e = (0.06 * 0.9)%float /\
    duration e <> (0.06 * 1.2)%float /\
    duration e <> (0.06 * 1.2 * 1.15)%float.
Proof.
  eexists. split; [vm_compute; reflexivity|].
  split; [reflexivity|]. split; [vm_compute; reflexivity|].
  split; float_neq.
Qed.

Lemma char_duration_vowels c next :
  is_vowel c = true ->
  match next with Some n => is_vowel n = true | None => True end ->
  char_duration c next = (0.06 * 1.2)%float.
Proof.
  intros Hc Hn. unfold char_duration, BASE_CHAR_DURATION. rewrite Hc.
  destruct next as [n|]; [|reflexivity]. rewrite Hn. reflexivity.
Qed.

Lemma vowel_cases c :
  is_vowel c = true ->
  c = "a"%char \/ c = "e"%char \/ c = "i"%char \/ c = "o"%char \/ c = "u"%char.
Proof.
  unfold is_vowel. simpl. rewrite !orb_true_iff, !Ascii.eqb_eq.
  intuition discriminate.
Qed.

(** No digraph of the table starts with a vowel, and every vowel has a
    viseme. *)
Lemma vowel_no_digraph c c2 :
  is_vowel c = true ->
  JS.table_get CHAR_TO_VISEME (String c (String c2 "")) = None.
Proof.
  intros Hc.
  destruct (vowel_cases c Hc) as [->|[->|[->|[->| ->]]]]; reflexivity.
Qed.

Lemma vowel_has_viseme c :
  is_vowel c = true -> JS.table_get CHAR_TO_VISEME (String c "") <> None.
Proof.
  intros Hc.
  destruct (vowel_cases c Hc) as [->|[->|[->|[->| ->]]]]; discriminate.
Qed.

(** The reading of a word of vowels: one event for every character. *)
Lemma reads_vowels emph w ticks :
  Forall (fun c => is_vowel c = true) w ->
  reads (char_event emph) w ticks ->
  Forall2 (fun c e =>
             JS.table_get CHAR_TO_VISEME (String c "") = Some (viseme e) /\
             duration e = (0.06 * 1.2)%float)
          w (events ticks).
Proof.
  intros Hw Hr. induction Hr as [|c c2 rest e ticks Ht HP Hr IH
                                 |c rest e ticks Hd Ht HP Hr IH
                                 |c rest ticks Hd Ht Hr IH].
  - constructor.
  - inversion Hw as [|? ? Hc _]; subst.
    rewrite (vowel_no_digraph c c2 Hc) in Ht. discriminate Ht.
  - inversion Hw as [|? ? Hc Hw']; subst. simpl. constructor; [|auto].
    split; [exact Ht|]. destruct HP as [HP _]. rewrite HP.
    apply char_duration_vowels; [exact Hc|].
    destruct rest as [|n rest]; [exact I|].
    inversion Hw' as [|? ? Hn _]; subst. exact Hn.
  - inversion Hw as [|? ? Hc _]; subst.
    exfalso. exact (vowel_has_viseme c Hc Ht).
Qed.

(** C6, amended: in every text, for every word made only of the letters
    a, e, i, o, u (in either case in the text, with or without trailing
    punctuation), every character of the word has an event of its own, and
    each of these events has the vowel duration base * 1.2, never the
    consonant duration base * 0.9; the letter y is not a vowel for the
    generator. *)
Theorem vowel_words_use_vowel_duration (text : string) :
  exists chunks : list (list Phoneme),
    phonemes (generatePhonemeData text) = concat chunks /\
    length chunks = length (words_of text) /\
    forall wi rawWord chunk,
      words_of text !! wi = Some rawWord -> chunks !! wi = Some chunk ->
      let word := List.filter is_word_char rawWord in
      word <> [] -> Forall (fun c => is_vowel c = true) word ->
      exists evs sil,
        chunk = evs ++ [sil] /\ viseme sil = "viseme_sil"%string /\
        Forall2 (fun c e =>
                   JS.table_get CHAR_TO_VISEME (String c "") = Some (viseme e) /\
                   duration e = (0.06 * 1.2)%float /\
                   duration e <> (0.06 * 0.9)%float)
                word evs.
Proof.
  destruct (generate_reading text) as (readings & Hlen & Hall & He & _).
  exists (map events readings). split; [|split].
  - rewrite <- He. apply events_concat.
  - rewrite length_map. exact Hlen.
  - intros wi raw chunk Hraw Hchunk word Hne Hv.
    rewrite list_lookup_fmap in Hchunk.
    destruct (readings !! wi) as [ticks|] eqn:Et; [|discriminate Hchunk].
    injection Hchunk as <-.
    pose proof (Hall wi raw ticks Hraw Et) as Hk. unfold token_reading in Hk.
    destruct raw as [|c0 raw0]; [contradiction Hne; reflexivity|].
    destruct Hk as (wticks & sil & Hr & Hs & ->).
    exists (events wticks), sil. rewrite events_app. split; [reflexivity|].
    split; [apply String.eqb_eq, Hs|].
    eapply Forall2_impl; [exact (reads_vowels _ _ _ Hv Hr)|].
    intros c e [H1 H2]. split; [exact H1|]. split; [exact H2|].
    rewrite H2. float_neq.
Qed.

Lemma vowel_words_use_vowel_duration_witness :
  exists chunks : list (list Phoneme),
    phonemes (generatePhonemeData "Oui, I say eau!") = concat chunks /\
    length chunks = length (words_of "Oui, I say eau!") /\
    forall wi rawWord chunk,
      words_of "Oui, I say eau!" !! wi = Some rawWord ->
      chunks !! wi = Some chunk ->
      let word := List.filter is_word_char rawWord in
      word <> [] -> Forall (fun c => is_vowel c = true) word ->
      exists evs sil,
        chunk = evs ++ [sil] /\ viseme sil = "viseme_sil"%string /\
        Forall2 (fun c e =>
                   JS.table_get CHAR_TO_VISEME (String c "") = Some (viseme e) /\
                   duration e = (0.06 * 1.2)%float /\
                   duration e <> (0.06 * 0.9)%float)
                word evs.
Proof. apply (vowel_words_use_vowel_duration "Oui, I say eau!"). Defined.

End ServerFacts.

(** ** Order facts about numbers

    The comparisons of primitive floats are specified by [SFcompare] on
    their decoded form ([FloatAxioms]); the facts below are what the max
    combination of the accumulator needs. *)

Module FloatFacts.
Import JS.

Lemma SFcompare_antisym x y :
  SFcompare y x = option_map CompOpp (SFcompare x y).
Proof.
  destruct x as [sx|sx| |sx mx ex], y as [sy|sy| |sy my ey]; simpl;
    try reflexivity; try (destruct sx; reflexivity);
    try (destruct sy; reflexivity); try (destruct sx, sy; reflexivity).
  assert (Hm : Pos.compare_cont Eq my mx = CompOpp (Pos.compare_cont Eq mx my))
    by (symmetry; apply (Pos.compare_cont_antisym mx my Eq)).
  destruct sx, sy; simpl; try reflexivity;
    rewrite (Z.compare_antisym ex ey), Hm;
    destruct (ex ?= ey)%Z; simpl; try reflexivity;
    destruct (Pos.compare_cont Eq mx my); reflexivity.
Qed.

Lemma SFcompare_refl x : x <> S754_nan -> SFcompare x x = Some Eq.
Proof.
  destruct x as [s|s| |s m e]; simpl; intros Hx;
    try reflexivity; try (destruct s; reflexivity); try contradiction.
  rewrite Z.compare_refl, Pos.compare_cont_refl. destruct s; reflexivity.
Qed.

Lemma SFcompare_total x y :
  x <> S754_nan -> y <> S754_nan -> SFcompare x y <> None.
Proof.
  destruct x as [sx|sx| |sx mx ex], y as [sy|sy| |sy my ey]; simpl;
    intros Hx Hy; try discriminate; contradiction.
Qed.

Lemma is_nan_false x : PrimFloat.is_nan x = false -> Prim2SF x <> S754_nan.
Proof.
  unfold PrimFloat.is_nan. rewrite FloatAxioms.eqb_spec. intros H E.
  rewrite E in H. discriminate H.
Qed.

(** A comparison with [NaN] is false. *)
Lemma ltb_nan_l x : (nan <? x)%float = false.
Proof. rewrite FloatAxioms.ltb_spec. reflexivity. Qed.

Lemma compare_numbers a b :
  PrimFloat.is_nan a = false -> PrimFloat.is_nan b = false ->
  exists c, SFcompare (Prim2SF a) (Prim2SF b) = Some c /\
            SFcompare (Prim2SF b) (Prim2SF a) = Some (CompOpp c).
Proof.
  intros Ha Hb. apply is_nan_false in Ha. apply is_nan_false in Hb.
  destruct (SFcompare (Prim2SF a) (Prim2SF b)) as [c|] eqn:E.
  - exists c. split; [reflexivity|]. rewrite SFcompare_antisym, E. reflexivity.
  - exfalso. exact (SFcompare_total _ _ Ha Hb E).
Qed.

Lemma ltb_irrefl a : PrimFloat.is_nan a = false -> (a <? a)%float = false.
Proof.
  intros Ha. rewrite FloatAxioms.ltb_spec. unfold SFltb.
  rewrite SFcompare_refl by (apply is_nan_false, Ha). reflexivity.
Qed.

Lemma leb_refl a : PrimFloat.is_nan a = false -> (a <=? a)%float = true.
Proof.
  intros Ha. rewrite FloatAxioms.leb_spec. unfold SFleb.
  rewrite SFcompare_refl by (apply is_nan_false, Ha). reflexivity.
Qed.

(** The maximum is not below its first operand, whatever the operands. *)
Lemma Math_max_not_below a b : (Math_max a b <? a)%float = false.
Proof.
  unfold Math_max.
  destruct (PrimFloat.is_nan a) eqn:Ha; simpl; [apply ltb_nan_l|].
  destruct (PrimFloat.is_nan b) eqn:Hb; simpl; [apply ltb_nan_l|].
  destruct (compare_numbers a b Ha Hb) as (c & E1 & E2).
  pose proof (ltb_irrefl a Ha) as Hrefl.
  rewrite !(FloatAxioms.ltb_spec a b), !(FloatAxioms.ltb_spec b a).
  unfold SFltb. rewrite E1, E2.
  destruct c; simpl; try exact Hrefl.
  - destruct (get_sign a); [|exact Hrefl].
    rewrite FloatAxioms.ltb_spec. unfold SFltb. rewrite E2. reflexivity.
  - rewrite FloatAxioms.ltb_spec. unfold SFltb. rewrite E2. reflexivity.
Qed.

(** For numbers the maximum is one of the operands and at least each of
    them. *)
Lemma Math_max_upper a b :
  PrimFloat.is_nan a = false -> PrimFloat.is_nan b = false ->
  (a <=? Math_max a b)%float = true /\ (b <=? Math_max a b)%float = true /\
  (Math_max a b = a \/ Math_max a b = b).
Proof.
  intros Ha Hb. unfold Math_max. rewrite Ha, Hb. simpl.
  destruct (compare_numbers a b Ha Hb) as (c & E1 & E2).
  pose proof (leb_refl a Ha) as Haa. pose proof (leb_refl b Hb) as Hbb.
  rewrite (FloatAxioms.ltb_spec a b), (FloatAxioms.ltb_spec b a).
  unfold SFltb. rewrite E1, E2.
  destruct c; simpl.
  - destruct (get_sign a).
    + split; [|split; [exact Hbb|right; reflexivity]].
      rewrite FloatAxioms.leb_spec. unfold SFleb. rewrite E1. reflexivity.
    + split; [exact Haa|split; [|left; reflexivity]].
      rewrite FloatAxioms.leb_spec. unfold SFleb. rewrite E2. reflexivity.
  - split; [|split; [exact Hbb|right; reflexivity]].
    rewrite FloatAxioms.leb_spec. unfold SFleb. rewrite E1. reflexivity.
  - split; [exact Haa|split; [|left; reflexivity]].
    rewrite FloatAxioms.leb_spec. unfold SFleb. rewrite E2. reflexivity.
Qed.

Lemma or_else_number x d :
  PrimFloat.is_nan d = false -> PrimFloat.is_nan (or_else x d) = false.
Proof.
  intros Hd. unfold or_else, truthy.
  destruct (PrimFloat.is_nan x) eqn:Hx; simpl; [exact Hd|].
  destruct (PrimFloat.is_zero x); simpl; [exact Hd|exact Hx].
Qed.

(** *** Addition of a positive number

    The sum of two positive binary64 numbers is rounded from a positive
    mantissa; rounding to the canonical exponent drops fewer bits than the
    mantissa has, so the sum is positive again (or overflows to
    [Infinity]). *)

Section Addition.
Import SpecFloat.
Local Open Scope Z_scope.














End Addition.

End FloatFacts.

(** ** The clock of the generator is a positive number *)

Module ClockFacts.
Import JS Server TimelineSpec ServerFacts FloatFacts.







End ClockFacts.


(** ** Properties of the compositor and of the lip-sync controller *)

Module ClientFacts.
Import JS Client FloatFacts ControllerSpec.

(** *** Max-combine (C3) *)

(** A key of [morphDict] is no inherited name, and it is not
    [__proto__]. *)
Lemma morphDict_own r d name :
  morphDict r = Some d -> name ∈ d -> inherited name = false.
Proof.
  unfold morphDict. destruct (meshMorphNames r) as [names|]; [|discriminate].
  intros [= <-] Hin. apply elem_of_filter in Hin. tauto.
Qed.

Lemma not_inherited_not_proto name :
  inherited name = false -> String.eqb name "__proto__" = false.
Proof.
  intros Hi. destruct (String.eqb name "__proto__") eqn:E; [|reflexivity].
  apply String.eqb_eq in E. subst name. discriminate Hi.
Qed.

Lemma in_dict_key d name : name ∈ d -> in_dict d name = true.
Proof.
  intros Hin. unfold in_dict. rewrite bool_decide_eq_true_2 by exact Hin.
  reflexivity.
Qed.

Lemma assign_other name name' x (T : Targets) :
  name' <> name -> assign name x T !! name' = T !! name'.
Proof.
  intros Hne. unfold assign. destruct (String.eqb name "__proto__"); [reflexivity|].
  apply lookup_insert_ne. congruence.
Qed.

Lemma assign_own name x (T : Targets) :
  inherited name = false -> assign name x T = <[name := x]> T.
Proof.
  intros Hi. unfold assign. rewrite (not_inherited_not_proto _ Hi). reflexivity.
Qed.

Lemma target_or_zero_number (T : Targets) name :
  inherited name = false ->
  PrimFloat.is_nan (target_or_zero T name) = false.
Proof.
  intros Hi. unfold target_or_zero. rewrite Hi.
  destruct (T !! name); [|reflexivity].
  apply or_else_number. reflexivity.
Qed.

Lemma setMorph_key r d name v (T : Targets) :
  morphDict r = Some d -> name ∈ d ->
  setMorph r name v T = <[name := Math_max (target_or_zero T name) v]> T.
Proof.
  intros Hd Hin. unfold setMorph. rewrite Hd, (in_dict_key _ _ Hin).
  apply assign_own. exact (morphDict_own r d name Hd Hin).
Qed.

Lemma setMorph_on_rig r d name v (T : Targets) :
  morphDict r = Some d -> name ∈ d ->
  setMorph r name v T !! name = Some (Math_max (target_or_zero T name) v).
Proof.
  intros Hd Hin. rewrite (setMorph_key r d) by assumption.
  apply lookup_insert_eq.
Qed.

Lemma setMorph_other r name name' v (T : Targets) :
  name' <> name -> setMorph r name v T !! name' = T !! name'.
Proof.
  intros Hne. unfold setMorph. destruct (morphDict r) as [d|]; [|reflexivity].
  destruct (in_dict d name); [|reflexivity].
  apply assign_other, Hne.
Qed.

(** C3: a contribution [v] to a channel [name] of the rig replaces the
    target by the maximum of the target so far and [v], and leaves every
    other channel as it is; the new target is never below the old one, and
    for a number [v] it is the larger of the two.  With 0.6 from lip sync
    and 0.3 from an emotion on one channel of a reset accumulator the target
    is exactly 0.6, in either order, and not the sum. *)
Theorem max_combine :
  (forall r d name v (T : Targets),
     morphDict r = Some d -> name ∈ d ->
     exists x,
       setMorph r name v T !! name = Some x /\
       x = Math_max (target_or_zero T name) v /\
       (x <? target_or_zero T name)%float = false /\
       (PrimFloat.is_nan v = false ->
        (target_or_zero T name <=? x)%float = true /\
        (v <=? x)%float = true /\
        (x = target_or_zero T name \/ x = v))) /\
  (forall r name name' v (T : Targets),
     name' <> name -> setMorph r name v T !! name' = T !! name') /\
  (let T0 := resetMorphTargets {[ "jawOpen"%string := 0.8%float ]} in
   setMorph sample_rig "jawOpen" 0.3 (setMorph sample_rig "jawOpen" 0.6 T0)
     !! "jawOpen"%string = Some 0.6%float /\
   setMorph sample_rig "jawOpen" 0.6 (setMorph sample_rig "jawOpen" 0.3 T0)
     !! "jawOpen"%string = Some 0.6%float /\
   (0.3 + 0.6 =? 0.6)%float = false).
Proof.
  split; [|split].
  - intros r d name v T Hd Hin. eexists. split; [|split; [reflexivity|]].
    + apply (setMorph_on_rig r d); assumption.
    + split; [apply Math_max_not_below|].
      intros Hv.
      apply Math_max_upper; [|exact Hv].
      apply target_or_zero_number. exact (morphDict_own r d name Hd Hin).
  - intros r name name' v T. apply setMorph_other.
  - cbv zeta. split; [|split]; vm_compute; reflexivity.
Qed.

Lemma max_combine_witness :
  exists x,
    setMorph sample_rig "jawOpen" 0.6 {[ "jawOpen"%string := 0.3%float ]}
      !! "jawOpen"%string = Some x /\
    x = Math_max (target_or_zero {[ "jawOpen"%string := 0.3%float ]} "jawOpen") 0.6 /\
    (x <? target_or_zero {[ "jawOpen"%string := 0.3%float ]} "jawOpen")%float
    = false /\
    (PrimFloat.is_nan 0.6 = false ->
     (target_or_zero {[ "jawOpen"%string := 0.3%float ]} "jawOpen" <=? x)%float
     = true /\
     (0.6 <=? x)%float = true /\
     (x = target_or_zero {[ "jawOpen"%string := 0.3%float ]} "jawOpen"
      \/ x = 0.6%float)).
Proof.
  apply (proj1 max_combine sample_rig
           (filter (fun name => inherited name = false)
              (list_to_set [ "jawOpen"; "mouthSmileLeft"; "mouthSmileRight";
                             "browInnerUp"; "eyeBlinkLeft"; "eyeBlinkRight" ]%string))).
  - reflexivity.
  - vm_compute. reflexivity.
Defined.


(** *** Mode arbitration (C2) *)

Lemma has_phonemes_nonempty pd :
  phonemes pd <> [] -> has_phonemes (Some pd) = true.
Proof. unfold has_phonemes. destruct (phonemes pd); [contradiction|reflexivity]. Qed.

Section FrameLip.
Context `{Runtime}.

(** The lip-sync globals after a frame: those after the tick, the phase of
    the talking gestures advanced while speaking. *)
Lemma animate_lip now rawDelta rnd w :
  lip (animate now rawDelta rnd w) =
  if avatarLoaded w
  then let lip1 := fst (tickLipSync (rig w) now (lip w)
                          (resetMorphTargets (morphTargetTarget w))) in
       if isSpeaking lip1
       then animateTalkingBody (elapsedTime w + Math_min rawDelta 0.05)
              (Math_min rawDelta 0.05) lip1
       else lip1
  else lip w.
Proof.
  unfold animate. destruct (avatarLoaded w); [|reflexivity].
  destruct (tickLipSync _ _ _ _) as [lip1 T1].
  destruct (updateEmotionMorphs _ _ _ _) as [emo T2].
  destruct (updateEyeGaze _ _ _ _ _) as [g T3].
  destruct (updateBlink _ _ _ _ _ _) as [b T4]. reflexivity.
Qed.

(** The gestures change no other global of the controller. *)
Lemma animate_controller {A} (f : LipSync -> A) now rawDelta rnd w :
  (forall time delta s, f (animateTalkingBody time delta s) = f s) ->
  f (lip (animate now rawDelta rnd w)) =
  f (if avatarLoaded w
     then fst (tickLipSync (rig w) now (lip w)
                 (resetMorphTargets (morphTargetTarget w)))
     else lip w).
Proof.
  intros Hf. rewrite animate_lip. destruct (avatarLoaded w); [|reflexivity].
  cbv zeta. destruct (isSpeaking _); [apply Hf|reflexivity].
Qed.

End FrameLip.

Ltac frame_lip :=
  rewrite ?(animate_controller isSpeaking) by reflexivity;
  rewrite ?(animate_controller lipSyncMode) by reflexivity;
  rewrite ?(animate_controller currentPhonemes) by reflexivity;
  rewrite ?(animate_controller lipSyncStartTime) by reflexivity;
  rewrite ?(animate_controller wordVisemeQueue) by reflexivity;
  rewrite ?(animate_controller wordVisemeStart) by reflexivity;
  rewrite ?(animate_controller speakingUI) by reflexivity.

Section Arbitration.
Context `{Runtime}.

Lemma tickLipSync_mode r now s (T : Targets) :
  lipSyncMode s = timeline \/ lipSyncMode s = none ->
  lipSyncMode (fst (tickLipSync r now s T)) = timeline \/
  lipSyncMode (fst (tickLipSync r now s T)) = none.
Proof.
  intros Hm. unfold tickLipSync.
  destruct (isSpeaking s); simpl; [|exact Hm].
  destruct Hm as [Hm|Hm]; rewrite Hm.
  - destruct (timeline_complete s _); simpl; [right; reflexivity|].
    destruct (currentPhonemes s); simpl; left; exact Hm.
  - simpl. right. exact Hm.
Qed.

Lemma tickLipSync_playing r now s (T : Targets) pd :
  isSpeaking s = true -> lipSyncMode s = timeline ->
  currentPhonemes s = Some pd ->
  past_end pd (lipSyncStartTime s) now = false ->
  fst (tickLipSync r now s T) = s.
Proof.
  intros Hs Hm Hc Hp. unfold tickLipSync. rewrite Hs, Hm. cbn [negb].
  assert (E : timeline_complete s ((now - lipSyncStartTime s) / 1000)%float = false).
  { unfold timeline_complete. rewrite Hc. exact Hp. }
  rewrite E, Hc. reflexivity.
Qed.

Lemma step_timeline_or_idle ev st :
  timeline_or_idle st -> timeline_or_idle (step ev st).
Proof.
  destruct st as [w u]. unfold timeline_or_idle. simpl.
  intros (Hp & Hu & Hm).
  destruct ev; simpl; unfold lift; simpl.
  - unfold onstart. rewrite Hp. simpl. auto.
  - unfold onboundary. rewrite Hp. simpl. auto.
  - destruct (graceTimers u) eqn:Eg; simpl; [auto|].
    unfold lift, graceTimeout. simpl. rewrite Hu. simpl. auto.
  - auto.
  - auto.
  - frame_lip. split; [exact Hp|]. split; [exact Hu|].
    destruct (avatarLoaded w); [|exact Hm]. apply tickLipSync_mode, Hm.
  - destruct (onFaceResults _ _ _ _). simpl. auto.
  - destruct (blinkTimers (blink w)); simpl; auto.
Qed.

Lemma run_timeline_or_idle evs : forall st,
  timeline_or_idle st -> timeline_or_idle (run evs st).
Proof.
  induction evs as [|ev evs IH]; intros st Hst; [exact Hst|].
  simpl. apply IH, step_timeline_or_idle, Hst.
Qed.

Lemma step_playing pd start ev st :
  phonemes pd <> [] -> during_playback pd start ev ->
  playing pd start st -> playing pd start (step ev st).
Proof.
  intros Hne Hev. destruct st as [w u]. unfold playing. simpl.
  intros (Hp & Hu & Hm & Hs & Hc & Ht).
  destruct ev; simpl in Hev; try contradiction; simpl; unfold lift; simpl.
  - unfold onboundary. rewrite Hp, (has_phonemes_nonempty pd Hne). simpl. auto 6.
  - destruct (graceTimers u) eqn:Eg; simpl; [auto 6|].
    unfold lift, graceTimeout. simpl. rewrite Hu. simpl. auto 6.
  - frame_lip. split; [exact Hp|]. split; [exact Hu|].
    destruct (avatarLoaded w); [|auto].
    rewrite (tickLipSync_playing _ _ _ _ pd Hs Hm Hc); [auto|].
    rewrite Ht. exact Hev.
  - destruct (onFaceResults _ _ _ _). simpl. auto 6.
  - destruct (blinkTimers (blink w)); simpl; auto 6.
Qed.

Lemma run_playing pd start evs : forall st,
  phonemes pd <> [] -> Forall (during_playback pd start) evs ->
  playing pd start st -> playing pd start (run evs st).
Proof.
  induction evs as [|ev evs IH]; intros st Hne Hall Hst; [exact Hst|].
  inversion Hall as [|? ? Hev Hevs]; subst.
  simpl. apply IH; [exact Hne|exact Hevs|].
  apply step_playing; assumption.
Qed.

(** C2: when playback starts with a timeline [pd] that is not empty, the
    controller is never in realtime mode afterwards, whatever events follow
    (word boundaries included), and it is in timeline mode, playing [pd],
    for as long as the events are those of ongoing playback: boundaries (if
    any), timer callbacks and frames before the end of the timeline. *)
Theorem timeline_wins_arbitration (w : World) (txt : list ascii)
  (pd : PhonemeData) (now0 : float) (evs : list Event) :
  phonemes pd <> [] ->
  let st := run evs (step (EvStart now0) (w, speak txt (Some pd))) in
  lipSyncMode (lip (fst st)) <> realtime /\
  (Forall (during_playback pd now0) evs ->
   lipSyncMode (lip (fst st)) = timeline /\
   currentPhonemes (lip (fst st)) = Some pd /\
   isSpeaking (lip (fst st)) = true).
Proof.
  intros Hne. cbv zeta.
  assert (H0 : playing pd now0 (step (EvStart now0) (w, speak txt (Some pd)))).
  { unfold step, lift, onstart, speak. cbn [fst snd phonemeData lip].
    rewrite (has_phonemes_nonempty pd Hne). unfold playing. simpl. auto 6. }
  split.
  - assert (H1 : timeline_or_idle
                   (run evs (step (EvStart now0) (w, speak txt (Some pd))))).
    { apply run_timeline_or_idle. destruct H0 as (Hp & Hu & Hm & _).
      unfold timeline_or_idle. rewrite Hp.
      split; [apply has_phonemes_nonempty, Hne|]. split; [exact Hu|].
      left. exact Hm. }
    destruct H1 as (_ & _ & [Hm|Hm]); rewrite Hm; discriminate.
  - intros Hall.
    destruct (run_playing pd now0 evs _ Hne Hall H0) as (_ & _ & Hm & Hs & Hc & _).
    auto.
Qed.

End Arbitration.

Lemma timeline_wins_arbitration_witness :
  let pd := Server.generatePhonemeData "Hi there" in
  let evs := [ EvBoundary 50 "word" 0 2; EvFrame 100 0.016 sample_random;
               EvGraceTimeout 400; EvFrame 420 0.016 sample_random ] in
  let st := @run sample_runtime evs
              (@step sample_runtime (EvStart 0)
                 (initial_world sample_rig,
                  speak (list_ascii_of_string "Hi there") (Some pd))) in
  lipSyncMode (lip (fst st)) <> realtime /\
  lipSyncMode (lip (fst st)) = timeline /\
  currentPhonemes (lip (fst st)) = Some pd /\
  isSpeaking (lip (fst st)) = true.
Proof.
  cbv zeta.
  destruct (@timeline_wins_arbitration sample_runtime
              (initial_world sample_rig) (list_ascii_of_string "Hi there")
              (Server.generatePhonemeData "Hi there") 0%float
              [ EvBoundary 50 "word" 0 2; EvFrame 100 0.016 sample_random;
                EvGraceTimeout 400; EvFrame 420 0.016 sample_random ])
    as [H1 H2].
  - vm_compute. discriminate.
  - split; [exact H1|]. apply H2.
    repeat constructor; vm_compute; reflexivity.
Defined.

(** *** Automatic stop at the end of the timeline (C7) *)

Section AutomaticStop.
Context `{Runtime}.






End AutomaticStop.


(** *** [stopLipSync] twice (C9) *)

Lemma resetMorphTargets_zero (T : Targets) name x :
  resetMorphTargets T !! name = Some x -> x = 0%float.
Proof.
  unfold resetMorphTargets. rewrite lookup_fmap.
  destruct (T !! name); simpl; [|discriminate]. intros [= <-]. reflexivity.
Qed.

(** C9 on the code: [stopLipSync] is a total function (it cannot throw)
    and idempotent, and after it the lip-sync tick contributes nothing to
    the accumulator, which every frame resets to 0.  But it does not cancel
    the grace timer: when playback of an utterance without timeline starts
    and is stopped (twice) before the timer fires, the timer is still
    pending, and when it fires the controller starts the fallback and is
    speaking again. *)
Theorem stop_twice_keeps_grace_timer :
  (forall s, stopLipSync (stopLipSync s) = stopLipSync s) /\
  (forall (R : Runtime) r now s (T : Targets),
     tickLipSync r now (stopLipSync s) T = (stopLipSync s, T)) /\
  (forall (T : Targets) name x,
     resetMorphTargets T !! name = Some x -> x = 0%float) /\
  (forall (R : Runtime) w txt now0 now1,
     let st1 := step (EvStart now0) (w, speak txt None) in
     let st2 := (with_lip (stopLipSync (stopLipSync (lip (fst st1)))) (fst st1),
                 snd st1) in
     let st3 := step (EvGraceTimeout now1) st2 in
     graceTimers (snd st2) = 1 /\
     lipSyncMode (lip (fst st2)) = none /\ isSpeaking (lip (fst st2)) = false /\
     lipSyncMode (lip (fst st3)) = fallback /\
     isSpeaking (lip (fst st3)) = true).
Proof.
  split; [|split; [|split]].
  - intros s. reflexivity.
  - intros R r now s T. reflexivity.
  - apply resetMorphTargets_zero.
  - intros R w txt now0 now1. cbv zeta. repeat split.
Qed.


(** *** What a speaking frame merges (C8) *)

(** C8, as stated, fails for the blink: on a frame on which the avatar
    speaks, the blink amount reported by face tracking is merged into the
    accumulator.  With closed eyes reported (1) the blink targets are 0.3
    after the frame, with open eyes reported (0) they are 0; nothing else
    differs between the two worlds. *)
Lemma tracked_blink_is_merged_while_speaking :
  isSpeaking (lip (speaking_world 1)) = true /\
  isSpeaking (lip (speaking_world 0)) = true /\
  (forall (R : Runtime) now rawDelta rnd,
     isSpeaking (lip (animate now rawDelta rnd (speaking_world 1))) = true /\
     morphTargetTarget (animate now rawDelta rnd (speaking_world 1))
       !! "eyeBlinkLeft"%string = Some (lerp 0 1 0.3) /\
     lerp 0 1 0.3 = 0.3%float /\
     morphTargetTarget (animate now rawDelta rnd (speaking_world 0))
       !! "eyeBlinkLeft"%string = Some 0%float).
Proof.
  split; [reflexivity|]. split; [reflexivity|].
  intros R now rawDelta rnd. repeat split; vm_compute; reflexivity.
Qed.

Lemma onFaceResults_speaking r results (T : Targets) :
  snd (onFaceResults r true results T) = T.
Proof.
  unfold onFaceResults. destruct results as [lm|]; [|reflexivity].
  cbn [negb andb snd]. rewrite andb_false_r. reflexivity.
Qed.

(** C8, amended: on a frame on which speaking is active when the lip-sync
    tick is done, the accumulator is built by the reset, the lip-sync tick,
    the emotion morphs, the eye gaze and the blink, without the idle
    micro-expressions; and face-tracking results that arrive while the
    avatar speaks write nothing into the accumulator (mouth opening, smile
    and brows are suppressed).  The eye gaze and the blink of a speaking
    frame still follow the face-tracked gaze and blink. *)
Theorem speaking_suppresses_idle_and_tracked_mouth :
  (forall (R : Runtime) now rawDelta rnd w,
     avatarLoaded w = true ->
     isSpeaking (lip (animate now rawDelta rnd w)) = true ->
     let delta := Math_min rawDelta 0.05 in
     let t := (elapsedTime w + delta)%float in
     let T1 := snd (tickLipSync (rig w) now (lip w)
                      (resetMorphTargets (morphTargetTarget w))) in
     let T2 := snd (updateEmotionMorphs (rig w) delta (emotionTargetMap w)
                      (currentEmotion w, T1)) in
     let T3 := snd (updateEyeGaze (rig w) (face w) delta rnd (gaze w, T2)) in
     morphTargetTarget (animate now rawDelta rnd w)
     = snd (updateBlink (rig w) (face w) t delta rnd (blink w, T3))) /\
  (forall r results (T : Targets),
     snd (onFaceResults r true results T) = T).
Proof.
  split.
  - intros R now rawDelta rnd w Hl Hs. cbv zeta.
    rewrite (animate_controller isSpeaking) in Hs by reflexivity.
    rewrite Hl in Hs. unfold animate. rewrite Hl.
    destruct (tickLipSync _ _ _ _) as [lip1 T1]. simpl in Hs.
    destruct (updateEmotionMorphs _ _ _ _) as [emo T2].
    rewrite Hs. cbn [negb snd].
    destruct (updateEyeGaze _ _ _ _ _) as [g T3].
    destruct (updateBlink _ _ _ _ _ _) as [b T4]. reflexivity.
  - apply onFaceResults_speaking.
Qed.

Lemma speaking_suppresses_idle_and_tracked_mouth_witness :
  let w := speaking_world 1 in
  let delta := Math_min 0.016 0.05 in
  let t := (elapsedTime w + delta)%float in
  let T1 := snd (@tickLipSync sample_runtime (rig w) 100 (lip w)
                   (resetMorphTargets (morphTargetTarget w))) in
  let T2 := snd (@updateEmotionMorphs sample_runtime (rig w) delta
                   (emotionTargetMap w) (currentEmotion w, T1)) in
  let T3 := snd (updateEyeGaze (rig w) (face w) delta sample_random
                   (gaze w, T2)) in
  morphTargetTarget (@animate sample_runtime 100 0.016 sample_random w)
  = snd (@updateBlink sample_runtime (rig w) (face w) t delta sample_random
           (blink w, T3)).
Proof.
  apply (proj1 speaking_suppresses_idle_and_tracked_mouth sample_runtime
           100%float 0.016%float sample_random (speaking_world 1));
    vm_compute; reflexivity.
Defined.

End ClientFacts.

(** ** Further properties of the timeline generator *)

Module ServerExtras.
Import JS Server TimelineSpec ServerFacts.

(** *** How the text is read *)

Lemma toLowerCase_unit_idem c :
  toLowerCase_unit (toLowerCase_unit c) = toLowerCase_unit c.
Proof. destruct c as [[] [] [] [] [] [] [] []]; reflexivity. Qed.

Lemma toLowerCase_idem s : toLowerCase (toLowerCase s) = toLowerCase s.
Proof.
  unfold toLowerCase. rewrite List.map_map. apply List.map_ext.
  intros c. apply toLowerCase_unit_idem.
Qed.

Lemma list_ascii_app (s1 s2 : string) :
  list_ascii_of_string (s1 ++ s2)
  = list_ascii_of_string s1 ++ list_ascii_of_string s2.
Proof. induction s1 as [|c s1 IH]; simpl; [reflexivity|]. rewrite IH. reflexivity. Qed.

Lemma generate_of_words text1 text2 :
  words_of text1 = words_of text2 ->
  generatePhonemeData text1 = generatePhonemeData text2.
Proof. intros E. unfold generatePhonemeData. rewrite E. reflexivity. Qed.

(** X1: The generator does not tell upper case from lower case: a text and its
    lower-cased form give the same timeline. *)
Theorem generate_ignores_case (text : string) :
  generatePhonemeData
    (string_of_list_ascii (toLowerCase (list_ascii_of_string text)))
  = generatePhonemeData text.
Proof.
  apply generate_of_words. unfold words_of.
  rewrite list_ascii_of_string_of_list_ascii, toLowerCase_idem. reflexivity.
Qed.

(** X2: A character that is outside the permitted alphabet after case folding
    (a digit, a bracket, ...) is dropped: the text with it and the text
    without it give the same timeline, wherever it stands. *)
Theorem generate_drops_unknown_characters (s1 s2 : string) (c : ascii) :
  is_permitted (toLowerCase_unit c) = false ->
  generatePhonemeData (s1 ++ String c s2) = generatePhonemeData (s1 ++ s2).
Proof.
  intros Hc. apply generate_of_words. unfold words_of, toLowerCase.
  rewrite !list_ascii_app. simpl.
  rewrite !List.map_app, !List.filter_app. simpl. rewrite Hc. reflexivity.
Qed.

Lemma generate_drops_unknown_characters_witness :
  generatePhonemeData ("Route " ++ String "6" "6 (west)")
  = generatePhonemeData ("Route " ++ "6 (west)").
Proof.
  apply (generate_drops_unknown_characters "Route " "6 (west)" "6").
  reflexivity.
Defined.

(** *** White space *)

Lemma split_ws_from_same_space pre c1 c2 s :
  is_space c1 = true -> is_space c2 = true ->
  forall cur in_ws,
    split_ws_from (pre ++ c1 :: s) cur in_ws
    = split_ws_from (pre ++ c2 :: s) cur in_ws.
Proof.
  intros H1 H2. induction pre as [|c pre IH]; intros cur in_ws; simpl.
  - rewrite H1, H2. reflexivity.
  - destruct (is_space c); [destruct in_ws|]; rewrite ?IH; reflexivity.
Qed.

Lemma split_ws_from_run pre c1 c2 s :
  is_space c1 = true -> is_space c2 = true ->
  forall cur in_ws,
    split_ws_from (pre ++ c1 :: c2 :: s) cur in_ws
    = split_ws_from (pre ++ c1 :: s) cur in_ws.
Proof.
  intros H1 H2. induction pre as [|c pre IH]; intros cur in_ws; simpl.
  - rewrite H1, H2. destruct in_ws; reflexivity.
  - destruct (is_space c); [destruct in_ws|]; rewrite ?IH; reflexivity.
Qed.

Lemma space_is_kept c :
  is_space c = true ->
  toLowerCase_unit c = c /\ is_permitted c = true.
Proof.
  intros H. split.
  - apply vowel_or_space_lower. rewrite H. apply orb_true_r.
  - unfold is_permitted. rewrite H.
    rewrite orb_true_r. reflexivity.
Qed.

Lemma words_of_around (s1 s2 : string) (l : list ascii) :
  Forall (fun c => is_space c = true) l ->
  words_of (s1 ++ string_of_list_ascii l ++ s2)
  = split_ws
      (List.filter is_permitted (toLowerCase (list_ascii_of_string s1))
       ++ l
       ++ List.filter is_permitted (toLowerCase (list_ascii_of_string s2))).
Proof.
  intros Hl. unfold words_of, toLowerCase.
  rewrite !list_ascii_app, list_ascii_of_string_of_list_ascii.
  rewrite !List.map_app, !List.filter_app. f_equal. f_equal. f_equal.
  induction Hl as [|c l Hc _ IH]; simpl; [reflexivity|].
  destruct (space_is_kept c Hc) as [E1 E2]. rewrite E1, E2, IH. reflexivity.
Qed.

(** X3: Only the places of white space matter, not its kind or amount: two
    white-space characters in a row count as one, and one white-space
    character (space, tab, line feed, no-break space, ...) is as good as
    another. *)
Theorem generate_white_space (s1 s2 : string) (c1 c2 : ascii) :
  is_space c1 = true -> is_space c2 = true ->
  generatePhonemeData (s1 ++ String c1 (String c2 s2))
  = generatePhonemeData (s1 ++ String c1 s2) /\
  generatePhonemeData (s1 ++ String c1 s2)
  = generatePhonemeData (s1 ++ String c2 s2).
Proof.
  intros H1 H2.
  assert (E2 : forall c, is_space c = true ->
             words_of (s1 ++ String c s2)
             = split_ws
                 (List.filter is_permitted (toLowerCase (list_ascii_of_string s1))
                  ++ c :: List.filter is_permitted
                            (toLowerCase (list_ascii_of_string s2)))).
  { intros c Hc.
    apply (words_of_around s1 s2 [c]). constructor; [exact Hc|constructor]. }
  assert (E1 : words_of (s1 ++ String c1 (String c2 s2))
             = split_ws
                 (List.filter is_permitted (toLowerCase (list_ascii_of_string s1))
                  ++ c1 :: c2 :: List.filter is_permitted
                                   (toLowerCase (list_ascii_of_string s2)))).
  { apply (words_of_around s1 s2 [c1; c2]). repeat constructor; assumption. }
  split; apply generate_of_words.
  - rewrite E1, (E2 c1 H1). apply split_ws_from_run; assumption.
  - rewrite (E2 c1 H1), (E2 c2 H2). apply split_ws_from_same_space; assumption.
Qed.

Lemma generate_white_space_witness :
  generatePhonemeData ("one" ++ String " " (String "009" "two"))
  = generatePhonemeData ("one" ++ String " " "two") /\
  generatePhonemeData ("one" ++ String " " "two")
  = generatePhonemeData ("one" ++ String "009" "two").
Proof.
  apply (generate_white_space "one" "two" " " "009"); reflexivity.
Defined.

(** *** Texts without events *)

Lemma concat_nil_all {A} (ls : list (list A)) :
  concat ls = [] -> Forall (fun l => l = []) ls.
Proof.
  induction ls as [|l ls IH]; simpl; intros E; [constructor|].
  apply app_eq_nil in E. destruct E as [E1 E2].
  constructor; [exact E1|apply IH, E2].
Qed.

Lemma loop_words_empty_tokens words : forall wi st,
  Forall (fun raw => raw = []) words -> loop_words wi words st = st.
Proof.
  induction words as [|raw words IH]; intros wi st Hall; [reflexivity|].
  inversion Hall as [|? ? E Hrest]; subst. simpl. apply IH, Hrest.
Qed.


(** *** The shape of the events *)

Section Events.
Variable P : Phoneme -> Prop.
Hypothesis Hchar : forall wi c next v t,
  String.eqb v "viseme_sil" = false ->
  P {| viseme := v; time := t; duration := char_duration c next;
       intensity := char_intensity c (wordEmphasis_at wi) |}.
Hypothesis Hpause : forall t punct, P (silence t (pauseDuration punct)).
Hypothesis Hgap : forall t, P (silence t WORD_GAP).

Lemma push_silence_events p st :
  Forall P (fst st) -> Forall P (fst (push_silence p st)).
Proof.
  destruct st as [phs t]. intros H. unfold push_silence. simpl.
  apply Forall_app. split; [exact H|]. constructor; [|constructor].
  destruct (negb (length p =? 0)); [apply Hpause|apply Hgap].
Qed.

Lemma loop_words_events words : forall wi st,
  Forall P (fst st) -> Forall P (fst (loop_words wi words st)).
Proof.
  induction words as [|raw words IH]; intros wi st Hs; [exact Hs|].
  simpl. apply IH. unfold process_word.
  destruct (List.filter is_word_char raw) as [|c0 w0] eqn:Ew.
  - destruct (negb (length (trailing_punct raw) =? 0));
      [apply push_silence_events|]; exact Hs.
  - apply push_silence_events. rewrite <- Ew.
    apply (scan_chars_origin P _ (List.filter is_word_char raw)) with (pre := []);
      [|reflexivity|exact Hs].
    intros i c v t Hc Hv. apply (Hchar wi).
    rewrite (drop_S _ c i Hc) in Hv.
    eapply viseme_at_not_silence, Hv.
Qed.

(** A property that holds of the event of every character, for the
    emphasis of every token, and of every silence event, holds of all events
    of a text. *)
Lemma generate_events (text : string) :
  Forall P (phonemes (generatePhonemeData text)).
Proof.
  rewrite generate_unfold. simpl. apply loop_words_events. constructor.
Qed.

End Events.

(** The numbers that occur as intensities, and as durations. *)
Lemma char_intensity_values c wi :
  In (char_intensity c (wordEmphasis_at wi))
     [0.5; 0.5 * 1.1; 0.75; 0.75 * 1.1]%float.
Proof.
  unfold char_intensity, wordEmphasis_at.
  destruct (is_vowel c), (wi =? 0); vm_compute; auto.
Qed.

Lemma char_duration_values c next :
  In (char_duration c next)
     [0.06 * 0.9; 0.06 * 1.2; 0.06 * 1.2 * 1.15]%float.
Proof.
  unfold char_duration, BASE_CHAR_DURATION.
  destruct next as [n|]; destruct (is_vowel c); try destruct (is_vowel n);
    simpl; auto.
Qed.

Lemma pauseDuration_values punct :
  In (pauseDuration punct) [0.07; 0.2; 0.3; 0.35]%float.
Proof.
  unfold pauseDuration, PERIOD_PAUSE, EXCLAIM_PAUSE, QUESTION_PAUSE,
    COMMA_PAUSE, WORD_GAP.
  destruct (includes "." punct); [simpl; auto|].
  destruct (includes "!" punct); [simpl; auto|].
  destruct (includes "?" punct); [simpl; auto|].
  destruct (includes "," punct); simpl; auto.
Qed.

(** X4: Every event's intensity is 0 (silence), 0.5 or 0.75 (consonant, vowel),
    or these times 1.1 (in the token at index 0): it lies between 0 and 1,
    and the clamp [Math.min(1, intensity)] never changes it. *)
Theorem intensity_within_unit (text : string) :
  Forall (fun e =>
            In (intensity e) [0; 0.5; 0.5 * 1.1; 0.75; 0.75 * 1.1]%float /\
            (0 <=? intensity e)%float = true /\
            (intensity e <=? 1)%float = true)
         (phonemes (generatePhonemeData text)).
Proof.
  apply generate_events.
  - intros wi c next v t _. simpl.
    pose proof (char_intensity_values c wi) as H.
    simpl in H. simpl.
    destruct H as [H|[H|[H|[H|[]]]]]; rewrite <- H;
      (split; [tauto|split; vm_compute; reflexivity]).
  - intros t punct. simpl. split; [auto|]. split; reflexivity.
  - intros t. simpl. split; [auto|]. split; reflexivity.
Qed.

(** X5: Every event lasts a positive time: a viseme event 0.054, 0.072 or
    0.0828 s, a silence event 0.07, 0.2, 0.3 or 0.35 s. *)
Theorem duration_is_positive (text : string) :
  Forall (fun e =>
            (if is_silence e
             then In (duration e) [0.07; 0.2; 0.3; 0.35]%float
             else In (duration e)
                     [0.06 * 0.9; 0.06 * 1.2; 0.06 * 1.2 * 1.15]%float) /\
            (0.05 <? duration e)%float = true /\
            (duration e <=? 0.35)%float = true)
         (phonemes (generatePhonemeData text)).
Proof.
  apply generate_events.
  - intros wi c next v t Hv. unfold is_silence. simpl. rewrite Hv.
    pose proof (char_duration_values c next) as H. split; [exact H|].
    simpl in H. destruct H as [H|[H|[H|[]]]]; rewrite <- H;
      split; vm_compute; reflexivity.
  - intros t punct. unfold is_silence. simpl.
    pose proof (pauseDuration_values punct) as H. split; [exact H|].
    simpl in H. destruct H as [H|[H|[H|[H|[]]]]]; rewrite <- H;
      split; vm_compute; reflexivity.
  - intros t. unfold is_silence. simpl. split; [auto|].
    split; vm_compute; reflexivity.
Qed.


(** *** Counting events *)

Lemma filter_silence_none evs :
  Forall (fun e => viseme e <> "viseme_sil"%string) evs ->
  List.filter is_silence evs = [].
Proof.
  induction 1 as [|e evs He _ IH]; simpl; [reflexivity|].
  unfold is_silence at 1. destruct (String.eqb_spec (viseme e) "viseme_sil");
    [contradiction|exact IH].
Qed.

Lemma process_word_no_token wi st : process_word wi [] st = st.
Proof. reflexivity. Qed.

Lemma loop_words_silences words : forall wi st,
  Forall (Forall (fun c => is_permitted c = true /\ is_space c = false)) words ->
  length (List.filter is_silence (fst (loop_words wi words st)))
  = length (List.filter is_silence (fst st))
    + length (List.filter (fun raw => negb (Nat.eqb (length raw) 0)) words).
Proof.
  induction words as [|raw words IH]; intros wi [phs t] Hok; simpl; [lia|].
  inversion Hok as [|? ? Hraw Hrest]; subst.
  rewrite (IH _ _ Hrest). rewrite process_word_app. simpl.
  destruct raw as [|c0 raw0].
  - simpl. rewrite app_nil_r. reflexivity.
  - destruct (process_word_chunk wi (c0 :: raw0) t Hraw)
      as (evs & sil & E & Hevs & Hsil & _); [discriminate|].
    rewrite E, !List.filter_app, (filter_silence_none evs Hevs). simpl.
    unfold is_silence at 2. rewrite Hsil. simpl.
    rewrite length_app. simpl. lia.
Qed.

(** X6: The timeline has exactly one silence event for every token of the
    text that is not empty (a word, or a group of punctuation marks that
    stands alone). *)
Theorem one_silence_per_token (text : string) :
  length (List.filter is_silence (phonemes (generatePhonemeData text)))
  = length (List.filter (fun raw => negb (Nat.eqb (length raw) 0))
                        (words_of text)).
Proof.
  rewrite generate_unfold. simpl. rewrite loop_words_silences; [reflexivity|].
  apply List.Forall_forall. intros raw Hraw.
  apply List.Forall_forall. intros c Hc.
  destruct (words_of_units text raw c Hraw Hc) as (_ & Hp & Hs). auto.
Qed.

Lemma filter_length_le {A} (p : A -> bool) (l : list A) :
  length (List.filter p l) <= length l.
Proof.
  induction l as [|x l IH]; simpl; [lia|]. destruct (p x); simpl; lia.
Qed.

Lemma filter_filter_le {A} (p q : A -> bool) (l : list A) :
  length (List.filter p (List.filter q l)) <= length (List.filter p l).
Proof.
  induction l as [|x l IH]; simpl; [lia|].
  destruct (q x); simpl; destruct (p x); simpl; lia.
Qed.

Lemma scan_chars_count emph w :
  Forall (fun c => is_word_char c = true) w ->
  forall t, length (fst (scan_chars emph w ([], t)))
            <= length (List.filter is_lower w).
Proof.
  induction w as [|c rest IH1 IH2] using scan_chars_ind; intros Hw t.
  - simpl. lia.
  - inversion Hw as [|? ? Hc Hrest]; subst.
    rewrite scan_chars_cons. cbn [List.filter].
    destruct (viseme_at (c :: rest)) as [v|] eqn:Ev.
    + rewrite (viseme_at_letter c rest v Hc Ev). cbv zeta.
      destruct rest as [|c2 rest2]; [simpl; lia|].
      inversion Hrest as [|? ? Hc2 Hrest2]; subst.
      destruct (JS.table_has CHAR_TO_VISEME (digraph_at (c :: c2 :: rest2))).
      * rewrite scan_chars_app. cbn [fst length app List.filter].
        specialize (IH2 c2 rest2 eq_refl Hrest2 (t + BASE_CHAR_DURATION)%float).
        destruct (is_lower c2); cbn [length]; lia.
      * rewrite scan_chars_app. cbn [fst length app].
        specialize (IH1 Hrest (t + BASE_CHAR_DURATION)%float). lia.
    + specialize (IH1 Hrest (t + BASE_CHAR_DURATION)%float).
      destruct (is_lower c); cbn [length]; lia.
Qed.

Lemma filter_word_chars raw :
  Forall (fun c => is_word_char c = true) (List.filter is_word_char raw).
Proof.
  apply List.Forall_forall. intros c Hc. apply List.filter_In in Hc. tauto.
Qed.

Lemma process_word_visemes wi raw t :
  length (List.filter is_viseme_event (fst (process_word wi raw ([], t))))
  <= length (List.filter is_lower raw).
Proof.
  unfold process_word.
  destruct (List.filter is_word_char raw) as [|c0 w0] eqn:Ew.
  - destruct (negb (length (trailing_punct raw) =? 0)); simpl; lia.
  - pose proof (scan_chars_count (if wi =? 0 then 1.1%float else 1%float)
                  (c0 :: w0)) as H.
    rewrite <- Ew in H. specialize (H (filter_word_chars raw) t).
    rewrite <- Ew.
    destruct (scan_chars _ (List.filter is_word_char raw) ([], t)) as [evs t'].
    simpl in *. rewrite List.filter_app, length_app. simpl.
    pose proof (filter_length_le is_viseme_event evs).
    pose proof (filter_filter_le is_lower is_word_char raw). lia.
Qed.

Lemma loop_words_visemes words : forall wi st,
  length (List.filter is_viseme_event (fst (loop_words wi words st)))
  <= length (List.filter is_viseme_event (fst st))
     + length (List.filter is_lower (concat words)).
Proof.
  induction words as [|raw words IH]; intros wi [phs t]; simpl; [lia|].
  specialize (IH (S wi) (process_word wi raw (phs, t))).
  rewrite process_word_app in *. simpl in *.
  rewrite List.filter_app, length_app in IH.
  rewrite List.filter_app, length_app.
  pose proof (process_word_visemes wi raw t). lia.
Qed.

(** X7: The events of a text are read off its words from left to right:
    a pair of letters that is a digraph of the viseme table (such as th)
    gives one event for the two letters, with the digraph's viseme; every
    other letter gives one event with its own viseme; an apostrophe or a
    hyphen gives no event; every token with a character ends in one silence
    event.  So the timeline has at most one viseme event for every letter
    a-z of the case-folded text. *)
Theorem at_most_one_viseme_per_letter (text : string) :
  (exists readings : list (list Tick),
     length readings = length (words_of text) /\
     (forall wi rawWord ticks,
        words_of text !! wi = Some rawWord -> readings !! wi = Some ticks ->
        token_reading (fun _ _ e => is_silence e = false) rawWord ticks) /\
     Forall silent_pass (concat readings) /\
     events (concat readings) = phonemes (generatePhonemeData text)) /\
  length (List.filter is_viseme_event (phonemes (generatePhonemeData text)))
  <= length (List.filter is_lower (toLowerCase (list_ascii_of_string text))).
Proof.
  split.
  { destruct (generate_segmentation text) as (readings & H1 & H2 & H3 & H4 & _).
    exists readings. auto. }
  rewrite generate_unfold. simpl.
  pose proof (loop_words_visemes (words_of text) 0 ([], 0%float)) as H.
  simpl in H. unfold words_of, split_ws in H.
  rewrite split_ws_from_concat in H. simpl in H.
  pose proof (filter_filter_le is_lower not_space
                (List.filter is_permitted
                   (toLowerCase (list_ascii_of_string text)))).
  pose proof (filter_filter_le is_lower is_permitted
                (toLowerCase (list_ascii_of_string text))).
  unfold words_of, split_ws. lia.
Qed.


(** *** The empty timeline *)

Lemma concat_words_of text :
  concat (words_of text)
  = List.filter not_space
      (List.filter is_permitted (toLowerCase (list_ascii_of_string text))).
Proof. unfold words_of, split_ws. apply split_ws_from_concat. Qed.

Lemma speakable_units text :
  speakable text
  = negb (Nat.eqb (length (concat (words_of text))) 0).
Proof.
  rewrite concat_words_of. unfold speakable, toLowerCase.
  induction (list_ascii_of_string text) as [|c l IH]; simpl; [reflexivity|].
  destruct (is_permitted (toLowerCase_unit c)); simpl; [|exact IH].
  unfold not_space at 1.
  destruct (is_space (toLowerCase_unit c)); simpl; [exact IH|reflexivity].
Qed.

Lemma concat_not_nil {A} (ls : list (list A)) :
  concat ls <> [] ->
  1 <= length (List.filter (fun l => negb (Nat.eqb (length l) 0)) ls).
Proof.
  induction ls as [|l ls IH]; simpl; [congruence|].
  destruct l as [|x l]; simpl; [exact IH|lia].
Qed.

(** The events are there exactly when the text is speakable. *)
Lemma phonemes_speakable text :
  negb (Nat.eqb (length (phonemes (generatePhonemeData text))) 0)
  = speakable text.
Proof.
  rewrite speakable_units.
  destruct (concat (words_of text)) as [|c l] eqn:E; simpl.
  - unfold generatePhonemeData.
    rewrite loop_words_empty_tokens; [reflexivity|].
    apply concat_nil_all, E.
  - assert (Hn : 1 <= length (List.filter is_silence
                                (phonemes (generatePhonemeData text)))).
    { rewrite generate_unfold. simpl. rewrite loop_words_silences.
      - simpl. apply concat_not_nil. rewrite E. discriminate.
      - apply List.Forall_forall. intros raw Hraw.
        apply List.Forall_forall. intros c0 Hc.
        destruct (words_of_units text raw c0 Hraw Hc) as (_ & Hp & Hs). auto. }
    destruct (phonemes (generatePhonemeData text)); simpl in *; [lia|reflexivity].
Qed.

(** X8: A text without any letter, apostrophe, hyphen or punctuation mark
    (the empty text, white space only, digits only, ...) gives no event
    and a total duration of 0; every other text gives events. *)
Theorem timeline_empty_iff_nothing_to_say (text : string) :
  if speakable text
  then phonemes (generatePhonemeData text) <> []
  else generatePhonemeData text = {| phonemes := []; totalDuration := 0 |}.
Proof.
  pose proof (phonemes_speakable text) as Hs.
  destruct (speakable text) eqn:E.
  - intros Hnil. rewrite Hnil in Hs. discriminate Hs.
  - rewrite speakable_units in E.
    unfold generatePhonemeData.
    rewrite loop_words_empty_tokens; [reflexivity|].
    apply concat_nil_all.
    destruct (concat (words_of text)); [reflexivity|discriminate E].
Qed.

(** *** [callWithRetry] *)

Lemma is_rate_limit_429 status :
  is_rate_limit status = true <-> status = Some 429%Z.
Proof.
  destruct status as [n|]; simpl; [|split; discriminate].
  rewrite Z.eqb_eq. split; [intros ->; reflexivity|intros [= ->]; reflexivity].
Qed.

Lemma retry_loop_spec {A} (fn : nat -> Outcome A) : forall remaining attempt,
  let n := length (snd (retry_loop fn attempt remaining)) in
  (n <= remaining)%nat /\
  fst (retry_loop fn attempt remaining) = fn (attempt + n)%nat /\
  (forall k, (k < n)%nat -> fn (attempt + k)%nat = Threw (Some 429%Z)) /\
  ((n < remaining)%nat -> fn (attempt + n)%nat <> Threw (Some 429%Z)) /\
  snd (retry_loop fn attempt remaining) = map retry_delay (seq attempt n).
Proof.
  induction remaining as [|remaining IH]; intros attempt; cbn [retry_loop].
  - destruct (fn attempt) as [a|status] eqn:E; cbn [fst snd length seq map];
      rewrite Nat.add_0_r, E;
      (split; [lia|split; [reflexivity|split; [lia|split; [lia|reflexivity]]]]).
  - destruct (fn attempt) as [a|status] eqn:E.
    + cbn [fst snd length seq map]. rewrite Nat.add_0_r, E.
      split; [lia|split; [reflexivity|split; [lia|split; [|reflexivity]]]].
      intros _. discriminate.
    + destruct (is_rate_limit status) eqn:Er.
      * specialize (IH (S attempt)).
        destruct (retry_loop fn (S attempt) remaining) as [o delays].
        cbn [fst snd length seq map] in *.
        destruct IH as (I1 & I2 & I3 & I4 & I5).
        replace (attempt + S (length delays))%nat
          with (S attempt + length delays)%nat by lia.
        split; [lia|split; [exact I2|split; [|split]]].
        -- intros [|k] Hk.
           ++ rewrite Nat.add_0_r, E. f_equal.
              apply is_rate_limit_429, Er.
           ++ replace (attempt + S k)%nat with (S attempt + k)%nat by lia.
              apply I3. lia.
        -- intros Hn. apply I4. lia.
        -- f_equal. exact I5.
      * cbn [fst snd length seq map]. rewrite Nat.add_0_r, E.
        split; [lia|split; [reflexivity|split; [lia|split; [|reflexivity]]]].
        intros _ [= ->]. discriminate Er.
Qed.

(** X9: [callWithRetry] calls [fn] again only after a failure with status
    429: with [n] the number of waits, [n] is at most [maxRetries], the
    calls number 0 to [n - 1] all failed with status 429, the result
    (value or error) is that of call number [n], and that call did not
    fail with status 429 unless the retries were used up. *)
Theorem retry_only_after_rate_limit {A} (fn : nat -> Outcome A) (maxRetries : nat) :
  let n := length (snd (callWithRetry fn maxRetries)) in
  (n <= maxRetries)%nat /\
  fst (callWithRetry fn maxRetries) = fn n /\
  (forall k, (k < n)%nat -> fn k = Threw (Some 429%Z)) /\
  ((n < maxRetries)%nat -> fn n <> Threw (Some 429%Z)).
Proof.
  pose proof (retry_loop_spec fn maxRetries 0) as (H1 & H2 & H3 & H4 & _).
  unfold callWithRetry. cbn zeta. repeat split; assumption.
Qed.

Lemma retry_delay_bounds attempt :
  (1000 <= retry_delay attempt <= 30000)%Z /\
  ((attempt <= 4)%nat -> retry_delay attempt = (1000 * 2 ^ Z.of_nat attempt)%Z) /\
  ((5 <= attempt)%nat -> retry_delay attempt = 30000%Z).
Proof.
  unfold retry_delay.
  assert (Hpos : (1 <= 2 ^ Z.of_nat attempt)%Z).
  { change 1%Z with (2 ^ 0)%Z. apply Z.pow_le_mono_r; lia. }
  split; [lia|split].
  - intros Hle.
    assert (Hp : (2 ^ Z.of_nat attempt <= 2 ^ 4)%Z)
      by (apply Z.pow_le_mono_r; lia).
    change (2 ^ 4)%Z with 16%Z in Hp. lia.
  - intros Hge.
    assert (Hp : (2 ^ 5 <= 2 ^ Z.of_nat attempt)%Z)
      by (apply Z.pow_le_mono_r; lia).
    change (2 ^ 5)%Z with 32%Z in Hp. lia.
Qed.

(** X10: The waits of [callWithRetry] are those of the attempts 0, 1, ...
    in order: 1000 ms doubled at each attempt and capped at 30000 ms from
    the sixth wait on; every wait lies between one and thirty seconds, and
    no more than [maxRetries] waits are made. *)
Theorem retry_waits_double_up_to_cap {A} (fn : nat -> Outcome A) (maxRetries : nat) :
  let delays := snd (callWithRetry fn maxRetries) in
  (length delays <= maxRetries)%nat /\
  delays = map retry_delay (seq 0 (length delays)) /\
  Forall (fun d => (1000 <= d <= 30000)%Z) delays /\
  (forall k d, delays !! k = Some d ->
     d = if (k <=? 4)%nat then (1000 * 2 ^ Z.of_nat k)%Z else 30000%Z).
Proof.
  pose proof (retry_loop_spec fn maxRetries 0) as (H1 & _ & _ & _ & H5).
  unfold callWithRetry. cbn zeta.
  set (delays := snd (retry_loop fn 0 maxRetries)) in *.
  split; [exact H1|split; [exact H5|split]].
  - rewrite H5. apply List.Forall_forall. intros d Hd.
    apply in_map_iff in Hd as (k & <- & _). apply retry_delay_bounds.
  - intros k d Hk. rewrite H5 in Hk.
    rewrite list_lookup_fmap in Hk.
    destruct (seq 0 (length delays) !! k) as [j|] eqn:Ej; [|discriminate Hk].
    apply lookup_seq in Ej as [-> _]. simpl in Hk. injection Hk as <-.
    destruct (k <=? 4)%nat eqn:E.
    + apply retry_delay_bounds. apply Nat.leb_le, E.
    + apply retry_delay_bounds. apply Nat.leb_gt in E. lia.
Qed.


(** The converse: the calls before call [n] failing with status 429 and
    call [n] being final, the wrapper ends with call [n] after [n]
    waits. *)
Lemma retry_loop_ends_at {A} (fn : nat -> Outcome A) (maxRetries n : nat) :
  (n <= maxRetries)%nat ->
  (forall k, (k < n)%nat -> fn k = Threw (Some 429%Z)) ->
  ((n < maxRetries)%nat -> fn n <> Threw (Some 429%Z)) ->
  callWithRetry fn maxRetries = (fn n, map retry_delay (seq 0 n)).
Proof.
  intros Hle Hbefore Hfinal.
  pose proof (retry_loop_spec fn maxRetries 0) as (H1 & H2 & H3 & H4 & H5).
  unfold callWithRetry.
  destruct (retry_loop fn 0 maxRetries) as [o delays]. cbn [fst snd] in *.
  assert (E : length delays = n).
  { destruct (Nat.lt_trichotomy (length delays) n) as [Hlt|[E|Hgt]];
      [|exact E|].
    - exfalso. apply H4; [lia|]. apply Hbefore, Hlt.
    - exfalso. apply Hfinal.
      + lia.
      + apply (H3 n Hgt). }
  rewrite E in *. rewrite H2, H5. reflexivity.
Qed.

End ServerExtras.

(** ** Properties of the routes *)

Module RouteFacts.
Import JS Server Routes RouteSpec ControllerSpec ServerExtras.

Lemma array_get_from_In {A} (a : list A) : forall k i x,
  Client.array_get_from a k i = Some x -> In x a.
Proof.
  induction a as [|y a IH]; intros k i x; simpl; [discriminate|].
  destruct (i =? k)%float; [intros [= <-]; left; reflexivity|].
  intros Hx. right. exact (IH _ _ _ Hx).
Qed.

Lemma demo_emotions_known :
  Forall (fun demo => In (demo_emotion demo) EMOTION_NAMES) DEMO_RESPONSES.
Proof.
  assert (Hb : forallb (fun demo =>
                          existsb (String.eqb (demo_emotion demo)) EMOTION_NAMES)
                 DEMO_RESPONSES = true) by reflexivity.
  rewrite forallb_forall in Hb. apply List.Forall_forall. intros demo Hin.
  specialize (Hb demo Hin). apply existsb_exists in Hb as (x & Hx & E).
  apply String.eqb_eq in E. rewrite E. exact Hx.
Qed.

Lemma emotion_names_known e :
  In e EMOTION_NAMES -> table_has Client.EMOTIONS e = true.
Proof.
  simpl. intros [<-|[<-|[<-|[<-|[<-|[]]]]]]; reflexivity.
Qed.

Lemma detect_emotion_known t : In (detect_emotion t) EMOTION_NAMES.
Proof.
  unfold detect_emotion. cbv zeta.
  destruct (existsb _ EMOTION_NAMES) eqn:E.
  - apply existsb_exists in E as (x & Hx & Ex).
    apply String.eqb_eq in Ex. rewrite Ex. exact Hx.
  - simpl. auto 6.
Qed.

Section ChatFacts.
Context `{Client.Runtime}.

Lemma demo_reply_contract random sid limited :
  chat_contract (demo_reply random sid limited).
Proof.
  unfold demo_reply.
  destruct (getDemoResponse random) as [demo|] eqn:E; [|reflexivity].
  unfold chat_contract, field. cbn [status body].
  assert (Hin : In demo DEMO_RESPONSES) by (exact (array_get_from_In _ _ _ _ E)).
  pose proof demo_emotions_known as Hall.
  rewrite List.Forall_forall in Hall. specialize (Hall demo Hin).
  exists (demo_response demo), (demo_emotion demo).
  destruct limited; simpl; repeat split; auto using emotion_names_known.
Qed.

(** X11: Every reply of [/api/chat] has status 200, 400 or 500.  A reply with
    status 200 carries a text, the timeline that [generatePhonemeData]
    gives for that very text, and an emotion that is one of the five names
    that the client's table of emotions has; it has no [error] and no
    [demo] property.  The status is 400 exactly when the message is
    missing or empty. *)
Theorem chat_reply_contract (key : option string) (random : float)
  (sendMessage generateContent : nat -> Outcome (option string))
  (req : ChatRequest) :
  let r := fst (chat key random sendMessage generateContent req) in
  chat_contract r /\
  (status r = 400 <-> message req = None \/ message req = Some ""%string).
Proof.
  cbv zeta. unfold chat.
  destruct (message req) as [msg|]; [|split; [reflexivity|simpl; tauto]].
  destruct (String.eqb_spec msg ""); [subst; split; [reflexivity|simpl; tauto]|].
  assert (Hdemo : forall sid limited,
             chat_contract (demo_reply random sid limited) /\
             (status (demo_reply random sid limited) = 400 <->
              None = Some msg \/ Some msg = Some ""%string)).
  { intros sid limited. split; [apply demo_reply_contract|].
    unfold demo_reply. destruct (getDemoResponse random); simpl;
      (split; [discriminate|intros [E|E]; [discriminate E|congruence]]). }
  destruct (no_api_key key).
  { cbn [fst]. destruct (Hdemo (match sessionId req with
                                | Some s => s | None => "default"%string end)
                           false) as [H1 H2].
    split; [exact H1|]. rewrite H2. split; intros [E|E]; auto; discriminate E. }
  destruct (callWithRetry sendMessage 3) as [result waits].
  destruct result as [[responseText|]|st].
  - destruct (callWithRetry generateContent 1) as [emotionResult waits'].
    cbn [fst]. split.
    + unfold chat_contract, field. cbn [status body].
      eexists responseText, _. simpl.
      split; [reflexivity|]. split; [reflexivity|]. split; [reflexivity|].
      assert (Hin : In (match emotionResult with
                        | Returned (Some t) => detect_emotion t
                        | _ => "neutral"%string
                        end) EMOTION_NAMES).
      { destruct emotionResult as [[t|]|?];
          [apply detect_emotion_known|simpl; auto 6|simpl; auto 6]. }
      split; [exact Hin|]. split; [apply emotion_names_known, Hin|auto].
    + simpl. split; [discriminate|intros [E|E]; [discriminate E|congruence]].
  - cbn [fst]. destruct (Hdemo (match sessionId req with
                                | Some s => s | None => "default"%string end)
                           true) as [H1 H2].
    split; [exact H1|]. rewrite H2. split; intros [E|E]; auto; discriminate E.
  - cbn [fst]. destruct (Hdemo (match sessionId req with
                                | Some s => s | None => "default"%string end)
                           true) as [H1 H2].
    split; [exact H1|]. rewrite H2. split; intros [E|E]; auto; discriminate E.
Qed.

(** X12: When the chat model answers with the text [t] at call [n], after
    rate-limit failures only, [/api/chat] replies with [t] and its
    timeline, not flagged as rate limited, whatever the emotion model does:
    a failing emotion detection never fails the request, it leaves the
    emotion [neutral].  The [n] waits before the answer are the first
    [n] of 1000 ms, 2000 ms and 4000 ms. *)
Theorem chat_answers_after_rate_limits (key : option string) (random : float)
  (sendMessage generateContent : nat -> Outcome (option string))
  (req : ChatRequest) (msg t : string) (n : nat) :
  message req = Some msg -> msg <> ""%string -> no_api_key key = false ->
  (n <= 3)%nat ->
  (forall k, (k < n)%nat -> sendMessage k = Threw (Some 429%Z)) ->
  sendMessage n = Returned (Some t) ->
  let out := chat key random sendMessage generateContent req in
  status (fst out) = 200 /\
  field (fst out) "response" = Some (JString t) /\
  field (fst out) "phonemes" = Some (JTimeline (generatePhonemeData t)) /\
  field (fst out) "rateLimited" = None /\
  firstn n (snd out) = firstn n [1000; 2000; 4000]%Z /\
  ((forall e, fst (callWithRetry generateContent 1) <> Returned (Some e)) ->
   field (fst out) "emotion" = Some (JString "neutral")).
Proof.
  intros Hm Hne Hk Hn Hbefore Hn'. cbv zeta. unfold chat.
  rewrite Hm. destruct (String.eqb_spec msg ""); [contradiction|]. rewrite Hk.
  rewrite (retry_loop_ends_at sendMessage 3 n Hn Hbefore)
    by (intros _; rewrite Hn'; discriminate).
  rewrite Hn'.
  destruct (callWithRetry generateContent 1) as [emotionResult waits'].
  cbn [fst snd]. unfold field. cbn [status body].
  split; [reflexivity|]. split; [reflexivity|]. split; [reflexivity|].
  split; [reflexivity|]. split.
  - assert (E : length (map retry_delay (seq 0 n)) = n)
      by (rewrite length_map, length_seq; reflexivity).
    rewrite firstn_app, E, Nat.sub_diag, firstn_O, app_nil_r.
    rewrite firstn_all2 by lia.
    destruct n as [|[|[|[|n]]]]; try reflexivity. lia.
  - intros Hfail. destruct emotionResult as [[e|]|?]; try reflexivity.
    exfalso. exact (Hfail e eq_refl).
Qed.


(** X14: A request to [/api/chat] makes at most four back-off waits (three
    for the chat model, one for the emotion model), of at most 8000 ms in
    total. *)
Theorem chat_backoff_is_bounded (key : option string) (random : float)
  (sendMessage generateContent : nat -> Outcome (option string))
  (req : ChatRequest) :
  let waits := snd (chat key random sendMessage generateContent req) in
  (length waits <= 4)%nat /\ (fold_right Z.add 0 waits <= 8000)%Z.
Proof.
  cbv zeta. unfold chat.
  destruct (message req) as [msg|]; [|simpl; lia].
  destruct (String.eqb msg ""); [simpl; lia|].
  destruct (no_api_key key); [simpl; lia|].
  pose proof (retry_loop_spec sendMessage 3 0) as (A1 & _ & _ & _ & A5).
  pose proof (retry_loop_spec generateContent 1 0) as (B1 & _ & _ & _ & B5).
  unfold callWithRetry.
  destruct (retry_loop sendMessage 0 3) as [result waits].
  destruct (retry_loop generateContent 0 1) as [emotionResult waits'].
  cbn [fst snd] in *.
  assert (Hw : (length waits <= 3)%nat /\ (fold_right Z.add 0 waits <= 7000)%Z).
  { rewrite A5. destruct (length waits) as [|[|[|[|?]]]];
      try (split; [simpl; lia|vm_compute; discriminate]). lia. }
  assert (Hw' : (length waits' <= 1)%nat /\ (fold_right Z.add 0 waits' <= 1000)%Z).
  { rewrite B5. destruct (length waits') as [|[|?]];
      try (split; [simpl; lia|vm_compute; discriminate]). lia. }
  destruct result as [[responseText|]|st]; cbn [snd]; [|lia|lia].
  rewrite length_app. split; [lia|].
  assert (Hsum : forall l1 l2 : list Z,
             fold_right Z.add 0%Z (l1 ++ l2)
             = (fold_right Z.add 0 l1 + fold_right Z.add 0 l2)%Z).
  { intros l1 l2. induction l1 as [|x l1 IH]; simpl; [reflexivity|].
    rewrite IH. lia. }
  rewrite Hsum. lia.
Qed.

End ChatFacts.

Lemma chat_answers_after_rate_limits_witness :
  let sendMessage := fun k : nat =>
    match k with
    | 0 | 1 => Threw (Some 429%Z)
    | _ => Returned (Some "Hello there."%string)
    end in
  let generateContent := fun _ : nat => @Threw (option string) (Some 500%Z) in
  let out := @chat sample_runtime (Some "key"%string) 0.25 sendMessage
               generateContent
               {| message := Some "Hi"%string; sessionId := None |} in
  status (fst out) = 200 /\
  field (fst out) "response" = Some (JString "Hello there.") /\
  field (fst out) "phonemes"
  = Some (JTimeline (generatePhonemeData "Hello there.")) /\
  field (fst out) "rateLimited" = None /\
  firstn 2 (snd out) = firstn 2 [1000; 2000; 4000]%Z /\
  ((forall e, fst (callWithRetry generateContent 1) <> Returned (Some e)) ->
   field (fst out) "emotion" = Some (JString "neutral")).
Proof.
  cbv zeta.
  apply (@chat_answers_after_rate_limits sample_runtime (Some "key"%string)
           0.25%float _ _ _ "Hi"%string "Hello there."%string 2%nat).
  - reflexivity.
  - discriminate.
  - reflexivity.
  - lia.
  - intros [|[|k]] Hk; [reflexivity|reflexivity|lia].
  - reflexivity.
Defined.


End RouteFacts.

(** ** Bounds of clamped numbers *)

Module NumberBounds.
Import JS Client FloatFacts ControllerSpec.

(** For numbers the minimum is one of the operands and at most each of
    them. *)
Lemma Math_min_lower a b :
  PrimFloat.is_nan a = false -> PrimFloat.is_nan b = false ->
  (Math_min a b <=? a)%float = true /\ (Math_min a b <=? b)%float = true /\
  (Math_min a b = a \/ Math_min a b = b).
Proof.
  intros Ha Hb. unfold Math_min. rewrite Ha, Hb. simpl.
  destruct (compare_numbers a b Ha Hb) as (c & E1 & E2).
  pose proof (leb_refl a Ha) as Haa. pose proof (leb_refl b Hb) as Hbb.
  rewrite (FloatAxioms.ltb_spec a b), (FloatAxioms.ltb_spec b a).
  unfold SFltb. rewrite E1, E2.
  destruct c; simpl.
  - destruct (get_sign a).
    + split; [exact Haa|split; [|left; reflexivity]].
      rewrite FloatAxioms.leb_spec. unfold SFleb. rewrite E1. reflexivity.
    + split; [|split; [exact Hbb|right; reflexivity]].
      rewrite FloatAxioms.leb_spec. unfold SFleb. rewrite E2. reflexivity.
  - split; [exact Haa|split; [|left; reflexivity]].
    rewrite FloatAxioms.leb_spec. unfold SFleb. rewrite E1. reflexivity.
  - split; [|split; [exact Hbb|right; reflexivity]].
    rewrite FloatAxioms.leb_spec. unfold SFleb. rewrite E2. reflexivity.
Qed.

Lemma Math_min_nan a b :
  PrimFloat.is_nan b = true -> Math_min a b = nan.
Proof. intros Hb. unfold Math_min. rewrite Hb, orb_true_r. reflexivity. Qed.

Lemma Math_max_nan a b :
  PrimFloat.is_nan b = true -> Math_max a b = nan.
Proof. intros Hb. unfold Math_max. rewrite Hb, orb_true_r. reflexivity. Qed.

(** A clamped value is [NaN] (when the value is) or lies between the
    bounds. *)
Lemma clamp_within v lo hi :
  PrimFloat.is_nan lo = false -> PrimFloat.is_nan hi = false ->
  (lo <=? hi)%float = true ->
  within lo hi (clamp v lo hi).
Proof.
  intros Hlo Hhi Hle Hx. unfold clamp in *.
  destruct (PrimFloat.is_nan v) eqn:Hv.
  - rewrite (Math_min_nan hi v Hv) in Hx.
    rewrite (Math_max_nan lo nan eq_refl) in Hx. discriminate Hx.
  - destruct (Math_min_lower hi v Hhi Hv) as (M1 & _ & Mc).
    assert (Hm : PrimFloat.is_nan (Math_min hi v) = false)
      by (destruct Mc as [-> | ->]; assumption).
    destruct (Math_max_upper lo (Math_min hi v) Hlo Hm) as (U1 & _ & Uc).
    split; [exact U1|].
    destruct Uc as [-> | ->]; assumption.
Qed.

(** A maximum with an operand that is not below zero is not below zero. *)
Lemma Math_max_not_negative a b :
  (a <? 0)%float = false -> (Math_max a b <? 0)%float = false.
Proof.
  intros Ha. unfold Math_max.
  destruct (PrimFloat.is_nan a) eqn:Na; cbn [orb]; [apply ltb_nan_l|].
  destruct (PrimFloat.is_nan b) eqn:Nb; [apply ltb_nan_l|].
  apply is_nan_false in Na, Nb.
  destruct (a <? b)%float eqn:E1;
    [|destruct (b <? a)%float eqn:E2;
      [exact Ha|destruct (get_sign a); [|exact Ha]]];
    rewrite FloatAxioms.ltb_spec in *;
    replace (Prim2SF 0) with (S754_zero false) in * by reflexivity;
    destruct (Prim2SF a) as [sa|sa| |sa ma ea], (Prim2SF b) as [sb|sb| |sb mb eb];
    try destruct sa; try destruct sb;
    try reflexivity; try discriminate Ha; try discriminate E1;
    try discriminate E2; try congruence.
Qed.

Lemma or_else_not_negative x :
  (x <? 0)%float = false -> (or_else x 0 <? 0)%float = false.
Proof.
  intros Hx. unfold or_else. destruct (truthy x); [exact Hx|reflexivity].
Qed.

End NumberBounds.

(** ** Further properties of the client *)

Module ClientExtras.
Import JS Client FloatFacts ControllerSpec ClientFacts NumberBounds.

(** *** Only names that pass the guard are written *)

Lemma within_guard_refl r (T : Targets) : within_guard r T T.
Proof. unfold within_guard. destruct (morphDict r); [intros; reflexivity|reflexivity]. Qed.

Lemma within_guard_trans r (T1 T2 T3 : Targets) :
  within_guard r T1 T2 -> within_guard r T2 T3 -> within_guard r T1 T3.
Proof.
  unfold within_guard. destruct (morphDict r) as [d|].
  - intros H1 H2 n Hn. rewrite (H2 n Hn). apply H1, Hn.
  - intros -> ->. reflexivity.
Qed.

Lemma setMorph_within r name v (T : Targets) :
  within_guard r T (setMorph r name v T).
Proof.
  unfold within_guard, setMorph. destruct (morphDict r) as [d|]; [|reflexivity].
  intros n Hn. destruct (in_dict d name) eqn:Hin; [|reflexivity].
  unfold assign. destruct (String.eqb name "__proto__") eqn:Ep; [reflexivity|].
  apply lookup_insert_ne. intros ->.
  destruct Hn as [Hn| ->]; [congruence|discriminate Ep].
Qed.

(** The guard lets the names pass that every object inherits: a first
    write under such a name stores [NaN], the maximum of the inherited
    function and the value. *)
Lemma setMorph_inherited_name r d v :
  morphDict r = Some d ->
  setMorph r "constructor" v ∅ !! "constructor"%string = Some nan /\
  setMorph r "__proto__" v ∅ = ∅.
Proof.
  intros Hd. unfold setMorph, in_dict. rewrite Hd.
  change (inherited "constructor") with true.
  change (inherited "__proto__") with true.
  rewrite !orb_true_r. split; reflexivity.
Qed.

(** *** Every write goes through [setMorph] *)

Lemma written_refl r (T : Targets) : written r T T.
Proof. exists []. reflexivity. Qed.

Lemma written_trans r (T1 T2 T3 : Targets) :
  written r T1 T2 -> written r T2 T3 -> written r T1 T3.
Proof.
  intros [l1 ->] [l2 ->]. exists (l1 ++ l2). rewrite fold_left_app. reflexivity.
Qed.

Lemma written_setMorph r name v (T : Targets) :
  written r T (setMorph r name v T).
Proof. exists [(name, v)]. reflexivity. Qed.

Lemma written_fold_setMorph r (f : string * float -> float)
  (mapping : list (string * float)) : forall T : Targets,
  written r T
    (fold_left (fun T' mw => setMorph r (fst mw) (f mw) T') mapping T).
Proof.
  induction mapping as [|mw mapping IH]; intros T; simpl.
  - apply written_refl.
  - eapply written_trans; [apply written_setMorph|apply IH].
Qed.

Lemma applyViseme_written r v i (T : Targets) :
  written r T (applyViseme r v i T).
Proof.
  unfold applyViseme.
  destruct (morphDict r) as [d|] eqn:Ed; [|apply written_refl].
  destruct (hasOculusVisemes r && in_dict d v).
  - apply written_setMorph.
  - destruct (hasARKitMorphs r); [|apply written_refl].
    destruct (table_get VISEME_TO_ARKIT v) as [mapping|];
      [|apply written_refl].
    apply (written_fold_setMorph r (fun mw => (snd mw * i)%float)).
Qed.

Section FrameWrites.
Context `{Runtime}.

Lemma realtime_loop_written r queue : forall t elapsed (T : Targets),
  written r T (fst (realtime_loop r queue t elapsed T)).
Proof.
  induction queue as [|v rest IH]; intros t elapsed T; simpl.
  - apply written_refl.
  - destruct ((t <=? elapsed)%float && (elapsed <? t + w_duration v)%float).
    + destruct rest as [|next rest']; simpl; [apply applyViseme_written|].
      destruct (0.6 <? (elapsed - t) / w_duration v)%float; simpl.
      * eapply written_trans; apply applyViseme_written.
      * apply applyViseme_written.
    + apply IH.
Qed.

Lemma timeline_loop_written r phs : forall elapsed (T : Targets),
  written r T (timeline_loop r phs elapsed T).
Proof.
  induction phs as [|ph rest IH]; intros elapsed T; simpl.
  - apply written_refl.
  - eapply written_trans; [|apply IH].
    destruct ((time ph <=? elapsed)%float
              && (elapsed <? time ph + duration ph)%float);
      destruct ((time ph + duration ph * 0.7 <=? elapsed)%float
                && (elapsed <? time ph + duration ph)%float);
      try destruct rest;
      repeat (eapply written_trans; [|apply applyViseme_written]);
      apply written_refl.
Qed.

Lemma tickLipSync_written r now s (T : Targets) :
  written r T (snd (tickLipSync r now s T)).
Proof.
  unfold tickLipSync. destruct (isSpeaking s); simpl; [|apply written_refl].
  destruct (lipSyncMode s); simpl.
  - apply written_refl.
  - destruct (wordVisemeQueue s) as [|v q] eqn:Eq; [apply written_refl|].
    pose proof (realtime_loop_written r (v :: q) 0%float
                  ((now - wordVisemeStart s) / 1000)%float T) as Hw.
    destruct (realtime_loop r (v :: q) _ _ T) as [T' t]. exact Hw.
  - destruct (timeline_complete s _); simpl; [apply written_refl|].
    destruct (currentPhonemes s); simpl;
      [apply timeline_loop_written|apply written_refl].
  - match goal with |- context [match ?x with Some _ => _ | None => _ end] =>
      destruct x end;
      destruct (hasARKitMorphs r);
      repeat (eapply written_trans;
              [|first [apply written_setMorph|apply applyViseme_written]]);
      apply written_refl.
Qed.

Lemma updateEmotionMorphs_written r delta tgt cur (T : Targets) :
  written r T (snd (updateEmotionMorphs r delta tgt (cur, T))).
Proof.
  unfold updateEmotionMorphs.
  assert (Hfold : forall (f : Obj * Targets -> string -> Obj * Targets)
                    (names : list string) (st : Obj * Targets),
             (forall st name, written r (snd st) (snd (f st name))) ->
             written r (snd st) (snd (fold_left f names st))).
  { intros f names. induction names as [|n names IH]; intros st Hf; simpl.
    - apply written_refl.
    - eapply written_trans; [apply Hf|apply IH, Hf]. }
  cbv zeta.
  match goal with
  | |- written r T (snd (fold_left ?f2 ?n2 (fold_left ?f1 ?n1 ?s))) =>
      apply (written_trans r T (snd (fold_left f1 n1 s)));
      [apply (Hfold f1 n1 s)|apply (Hfold f2 n2 (fold_left f1 n1 s))]
  end.
  - intros [c T0] name. simpl. apply written_setMorph.
  - intros [c T0] name. simpl.
    destruct (table_has tgt name); [apply written_refl|].
    destruct (table_get c name) as [x|]; [|apply written_refl].
    match goal with |- context [if ?c then _ else _] => destruct c end; simpl;
      [apply written_refl|apply written_setMorph].
Qed.

Lemma microExpressions_written r t (T : Targets) :
  written r T (microExpressions r t T).
Proof.
  unfold microExpressions.
  repeat (eapply written_trans; [|apply written_setMorph]).
  apply written_refl.
Qed.

Lemma updateEyeGaze_written r f delta rnd g (T : Targets) :
  written r T (snd (updateEyeGaze r f delta rnd (g, T))).
Proof.
  unfold updateEyeGaze. destruct (hasARKitMorphs r); simpl;
    [|apply written_refl].
  repeat (eapply written_trans; [|apply written_setMorph]).
  apply written_refl.
Qed.

Lemma updateBlink_written r f t delta rnd b (T : Targets) :
  written r T (snd (updateBlink r f t delta rnd (b, T))).
Proof.
  unfold updateBlink.
  match goal with |- context [if ?c then _ else _] => destruct c end; simpl;
    repeat (eapply written_trans; [|apply written_setMorph]);
    apply written_refl.
Qed.

End FrameWrites.

Section FrameWritten.
Context `{Runtime}.

Lemma animate_written now rawDelta rnd (w : World) :
  written (rig w)
    (if avatarLoaded w then resetMorphTargets (morphTargetTarget w)
     else morphTargetTarget w)
    (morphTargetTarget (animate now rawDelta rnd w)).
Proof.
  unfold animate. destruct (avatarLoaded w); [|apply written_refl].
  pose proof (tickLipSync_written (rig w) now (lip w)
                (resetMorphTargets (morphTargetTarget w))) as H1.
  destruct (tickLipSync _ _ _ _) as [lip1 T1]. simpl in H1.
  pose proof (updateEmotionMorphs_written (rig w) (Math_min rawDelta 0.05)
                (emotionTargetMap w) (currentEmotion w) T1) as H2.
  destruct (updateEmotionMorphs _ _ _ _) as [emo T2]. simpl in H2.
  set (T3 := if negb (isSpeaking lip1)
             then microExpressions (rig w)
                    (elapsedTime w + Math_min rawDelta 0.05)%float T2
             else T2).
  assert (H3 : written (rig w) T2 T3).
  { unfold T3. destruct (negb (isSpeaking lip1));
      [apply microExpressions_written|apply written_refl]. }
  pose proof (updateEyeGaze_written (rig w) (face w) (Math_min rawDelta 0.05)
                rnd (gaze w) T3) as H4.
  destruct (updateEyeGaze _ _ _ _ _) as [g T4]. simpl in H4.
  pose proof (updateBlink_written (rig w) (face w)
                (elapsedTime w + Math_min rawDelta 0.05)%float
                (Math_min rawDelta 0.05) rnd (blink w) T4) as H5.
  destruct (updateBlink _ _ _ _ _ _) as [b T5]. simpl in H5. simpl.
  eapply written_trans; [exact H1|].
  eapply written_trans; [exact H2|].
  eapply written_trans; [exact H3|].
  eapply written_trans; [exact H4|exact H5].
Qed.

Lemma animate_rig now rawDelta rnd (w : World) :
  rig (animate now rawDelta rnd w) = rig w.
Proof.
  unfold animate. destruct (avatarLoaded w); [|reflexivity].
  destruct (tickLipSync _ _ _ _) as [lip1 T1].
  destruct (updateEmotionMorphs _ _ _ _) as [emo T2].
  destruct (updateEyeGaze _ _ _ _ _) as [g T3].
  destruct (updateBlink _ _ _ _ _ _) as [b T4]. reflexivity.
Qed.

End FrameWritten.

Lemma onFaceResults_written r speaking results (T : Targets) :
  written r T (snd (onFaceResults r speaking results T)).
Proof.
  unfold onFaceResults. destruct results as [lm|]; [|apply written_refl].
  cbn [snd].
  repeat match goal with
         | |- context [if ?c then _ else _] => destruct c
         end;
    repeat (eapply written_trans; [|apply written_setMorph]);
    apply written_refl.
Qed.

Lemma written_within r (T T' : Targets) : written r T T' -> within_guard r T T'.
Proof.
  intros [l ->]. revert T. induction l as [|[n v] l IH]; intros T; simpl.
  - apply within_guard_refl.
  - eapply within_guard_trans; [apply setMorph_within|apply IH].
Qed.

Lemma setMorph_never_negative r name v (T : Targets) :
  never_negative T -> never_negative (setMorph r name v T).
Proof.
  intros HT. unfold setMorph. destruct (morphDict r) as [d|]; [|exact HT].
  destruct (in_dict d name); [|exact HT].
  unfold assign. destruct (String.eqb name "__proto__"); [exact HT|].
  intros n x. destruct (decide (n = name)) as [->|Hne].
  - rewrite lookup_insert_eq. intros [= <-].
    apply Math_max_not_negative. unfold target_or_zero.
    destruct (T !! name) as [y|] eqn:Ey;
      [|destruct (inherited name); reflexivity].
    apply or_else_not_negative, (HT name y Ey).
  - rewrite lookup_insert_ne by congruence. apply HT.
Qed.

Lemma written_never_negative r (T T' : Targets) :
  written r T T' -> never_negative T -> never_negative T'.
Proof.
  intros [l ->]. revert T. induction l as [|[n v] l IH]; intros T HT; simpl.
  - exact HT.
  - apply IH, setMorph_never_negative, HT.
Qed.

Lemma resetMorphTargets_never_negative (T : Targets) :
  never_negative (resetMorphTargets T).
Proof.
  intros n x. unfold resetMorphTargets. rewrite lookup_fmap.
  destruct (T !! n); simpl; [intros [= <-]; reflexivity|discriminate].
Qed.

Lemma setMorph_rig_channels r name v (T : Targets) :
  guarded_names_only r T -> guarded_names_only r (setMorph r name v T).
Proof.
  intros HT. unfold setMorph. destruct (morphDict r) as [d|] eqn:Ed; [|exact HT].
  destruct (in_dict d name) eqn:Hin; [|exact HT].
  unfold assign. destruct (String.eqb name "__proto__") eqn:Ep; [exact HT|].
  intros n. destruct (decide (n = name)) as [->|Hne].
  - intros _. exists d. split; [exact Ed|].
    unfold in_dict in Hin. apply orb_prop in Hin as [Hin|Hin].
    + left. exact (proj1 (bool_decide_eq_true _) Hin).
    + right. split; [exact Hin|]. intros ->. discriminate Ep.
  - rewrite lookup_insert_ne by congruence. apply HT.
Qed.

Lemma written_rig_channels r (T T' : Targets) :
  written r T T' -> guarded_names_only r T -> guarded_names_only r T'.
Proof.
  intros [l ->]. revert T. induction l as [|[n v] l IH]; intros T HT; simpl.
  - exact HT.
  - apply IH, setMorph_rig_channels, HT.
Qed.

Lemma resetMorphTargets_rig_channels r (T : Targets) :
  guarded_names_only r T -> guarded_names_only r (resetMorphTargets T).
Proof.
  intros HT n. unfold resetMorphTargets. rewrite lookup_fmap.
  intros Hn. apply HT. destruct (T !! n); [eauto|].
  destruct Hn as [x Hx]. discriminate Hx.
Qed.


(** *** What the accumulator holds *)

Section Accumulator.
Context `{Runtime}.

(** X15: A frame of a loaded avatar builds the accumulator from the reset one
    by writing only under names that pass the guard [name in morphDict] of
    [setMorph]: the channels of the rig and, [morphDict] being a plain
    object, the names that every object inherits ([constructor],
    [toString], ...), except [__proto__], under which an assignment of a
    number stores nothing.  Every other name is as [resetMorphTargets] left
    it, and without a rig nothing is written at all.  Before the avatar is
    loaded a frame leaves the accumulator alone. *)
Theorem frame_writes_guarded_names_only now rawDelta rnd (w : World) :
  within_guard (rig w)
    (if avatarLoaded w then resetMorphTargets (morphTargetTarget w)
     else morphTargetTarget w)
    (morphTargetTarget (animate now rawDelta rnd w)).
Proof. apply written_within, animate_written. Qed.

Lemma lift_fst h st :
  fst (lift h st) = with_lip (fst (h (lip (fst st), snd st))) (fst st).
Proof. unfold lift. destruct (h _). reflexivity. Qed.

Lemma step_rig ev st : rig (fst (step ev st)) = rig (fst st).
Proof.
  destruct ev; cbn [step]; rewrite ?lift_fst; try reflexivity.
  - destruct (graceTimers (snd st)); rewrite ?lift_fst; reflexivity.
  - apply animate_rig.
  - destruct (onFaceResults _ _ _ _). reflexivity.
  - destruct (blinkTimers (blink (fst st))); reflexivity.
Qed.

(** What an event does to the accumulator: nothing, or a sequence of
    [setMorph] calls, after a reset or not. *)
Lemma step_targets ev st :
  exists T0,
    (T0 = morphTargetTarget (fst st) \/
     T0 = resetMorphTargets (morphTargetTarget (fst st))) /\
    written (rig (fst st)) T0 (morphTargetTarget (fst (step ev st))).
Proof.
  destruct ev; cbn [step]; rewrite ?lift_fst;
    try (exists (morphTargetTarget (fst st)); split; [left; reflexivity|];
         apply written_refl).
  - exists (morphTargetTarget (fst st)). split; [left; reflexivity|].
    destruct (graceTimers (snd st)); rewrite ?lift_fst; apply written_refl.
  - pose proof (animate_written now rawDelta rnd (fst st)) as Hw.
    cbn [fst]. destruct (avatarLoaded (fst st)); eexists;
      (split; [|exact Hw]); auto.
  - exists (morphTargetTarget (fst st)). split; [left; reflexivity|].
    pose proof (onFaceResults_written (rig (fst st))
                  (isSpeaking (lip (fst st))) results
                  (morphTargetTarget (fst st))) as Hw.
    destruct (onFaceResults _ _ _ _). exact Hw.
  - exists (morphTargetTarget (fst st)). split; [left; reflexivity|].
    destruct (blinkTimers (blink (fst st))); apply written_refl.
Qed.

Lemma step_rig_channels ev st :
  guarded_names_only (rig (fst st)) (morphTargetTarget (fst st)) ->
  guarded_names_only (rig (fst (step ev st)))
    (morphTargetTarget (fst (step ev st))).
Proof.
  intros HT. rewrite step_rig.
  destruct (step_targets ev st) as (T0 & [-> | ->] & Hw).
  - exact (written_rig_channels _ _ _ Hw HT).
  - apply (written_rig_channels _ _ _ Hw).
    apply resetMorphTargets_rig_channels, HT.
Qed.

Lemma step_never_negative ev st :
  never_negative (morphTargetTarget (fst st)) ->
  never_negative (morphTargetTarget (fst (step ev st))).
Proof.
  intros HT.
  destruct (step_targets ev st) as (T0 & [-> | ->] & Hw).
  - exact (written_never_negative _ _ _ Hw HT).
  - apply (written_never_negative _ _ _ Hw).
    apply resetMorphTargets_never_negative.
Qed.

(** X16: Whatever events arrive, the accumulator never holds a value under a
    name that fails the guard of [setMorph]: every name it holds is a
    channel of the rig or a name that every object inherits, other than
    [__proto__]; without a rig it stays empty. *)
Theorem accumulator_keeps_to_guarded_names (evs : list Event) : forall st,
  guarded_names_only (rig (fst st)) (morphTargetTarget (fst st)) ->
  guarded_names_only (rig (fst (run evs st)))
    (morphTargetTarget (fst (run evs st))).
Proof.
  induction evs as [|ev evs IH]; intros st HT; [exact HT|].
  simpl. apply IH, step_rig_channels, HT.
Qed.

(** X17: Whatever events arrive and whatever values the contributors compute
    (negative ones, [NaN]), no target of the accumulator is ever below
    zero: [setMorph] takes the maximum with a target that a frame resets
    to 0. *)
Theorem targets_never_negative (evs : list Event) : forall st,
  never_negative (morphTargetTarget (fst st)) ->
  never_negative (morphTargetTarget (fst (run evs st))).
Proof.
  induction evs as [|ev evs IH]; intros st HT; [exact HT|].
  simpl. apply IH, step_never_negative, HT.
Qed.

End Accumulator.

Lemma accumulator_keeps_to_guarded_names_witness :
  guarded_names_only sample_rig ∅ /\
  guarded_names_only
    (rig (fst (@run sample_runtime
                 [ EvStart 0; EvBoundary 50 "word" 0 2;
                   EvFrame 100 0.016 sample_random; EvFaceResults None ]
                 (initial_world sample_rig,
                  speak (list_ascii_of_string "Hi there") None))))
    (morphTargetTarget
       (fst (@run sample_runtime
               [ EvStart 0; EvBoundary 50 "word" 0 2;
                 EvFrame 100 0.016 sample_random; EvFaceResults None ]
               (initial_world sample_rig,
                speak (list_ascii_of_string "Hi there") None)))).
Proof.
  assert (H0 : guarded_names_only sample_rig ∅).
  { intros n [x Hx]. rewrite lookup_empty in Hx. discriminate Hx. }
  split; [exact H0|].
  apply (@accumulator_keeps_to_guarded_names sample_runtime). exact H0.
Defined.

Lemma targets_never_negative_witness :
  never_negative {[ "jawOpen"%string := 0.4%float ]} /\
  never_negative
    (morphTargetTarget
       (fst (@run sample_runtime
               [ EvFaceResults None; EvStart 0; EvGraceTimeout 400;
                 EvFrame 420 0.016 sample_random ]
               (with_face no_face {[ "jawOpen"%string := 0.4%float ]}
                  (initial_world sample_rig),
                speak (list_ascii_of_string "Hi there") None)))).
Proof.
  assert (H0 : never_negative {[ "jawOpen"%string := 0.4%float ]}).
  { intros n x Hx. apply lookup_singleton_Some in Hx as [_ <-]. reflexivity. }
  split; [exact H0|].
  apply (@targets_never_negative sample_runtime). exact H0.
Defined.

(** *** The speaking flag, the mode and the display agree *)

Lemma coherent_stop s : coherent (stopLipSync s).
Proof. split; reflexivity. Qed.

Lemma coherent_timeline now pd s : coherent (startLipSyncFromTimeline now pd s).
Proof. split; reflexivity. Qed.

Lemma coherent_realtime s : coherent (startRealtimeLipSync s).
Proof. split; reflexivity. Qed.

Lemma coherent_fallback now s : coherent (startLipSyncFallback now s).
Proof. split; reflexivity. Qed.

Lemma coherent_set_word q now s : coherent s -> coherent (set_word q now s).
Proof. intros H. exact H. Qed.

Section Coherence.
Context `{Runtime}.

Lemma coherent_tick r now s (T : Targets) :
  coherent s -> coherent (fst (tickLipSync r now s T)).
Proof.
  intros Hc. unfold tickLipSync. destruct (isSpeaking s); simpl; [|exact Hc].
  destruct (lipSyncMode s) eqn:Em; simpl; try exact Hc.
  - destruct (wordVisemeQueue s) as [|v q]; [exact Hc|].
    destruct (realtime_loop r (v :: q) _ _ T) as [T' t]. simpl.
    destruct (t <? _)%float; exact Hc.
  - destruct (timeline_complete s _); simpl; [apply coherent_stop|].
    destruct (currentPhonemes s); exact Hc.
Qed.

Lemma coherent_step ev st :
  coherent (lip (fst st)) -> coherent (lip (fst (step ev st))).
Proof.
  destruct st as [w u]. simpl. intros Hc.
  destruct ev; simpl; unfold lift; simpl.
  - unfold onstart. destruct (has_phonemes (phonemeData u)); simpl;
      [apply coherent_timeline|exact Hc].
  - unfold onboundary. destruct (has_phonemes (phonemeData u)); simpl;
      [exact Hc|].
    destruct (String.eqb name "word"); simpl; [|exact Hc].
    assert (H1 : coherent (if usedBoundary u then lip w
                           else startRealtimeLipSync (lip w)))
      by (destruct (usedBoundary u); [exact Hc|apply coherent_realtime]).
    destruct (trim _); simpl; [exact H1|apply coherent_set_word, H1].
  - destruct (graceTimers u); simpl; [exact Hc|].
    unfold lift, graceTimeout. simpl.
    destruct (negb (usedBoundary u) && speechStarted u); simpl; [|exact Hc].
    destruct (has_phonemes (phonemeData u)); simpl;
      [apply coherent_timeline|apply coherent_fallback].
  - apply coherent_stop.
  - apply coherent_stop.
  - rewrite animate_lip. destruct (avatarLoaded w); [|exact Hc].
    pose proof (coherent_tick (rig w) now (lip w)
                  (resetMorphTargets (morphTargetTarget w)) Hc) as Ht.
    cbv zeta. destruct (isSpeaking _); exact Ht.
  - destruct (onFaceResults _ _ _ _). simpl. exact Hc.
  - destruct (blinkTimers (blink w)); simpl; exact Hc.
Qed.

(** X18: Whatever events arrive, in whatever order, the speaking flag,
    the lip-sync mode and the speaking display stay in agreement: the
    avatar counts as speaking exactly when the mode is not [none], and the
    display is shown exactly then. *)
Theorem speaking_flag_matches_mode (evs : list Event) : forall st,
  coherent (lip (fst st)) -> coherent (lip (fst (run evs st))).
Proof.
  induction evs as [|ev evs IH]; intros st Hc; [exact Hc|].
  simpl. apply IH, coherent_step, Hc.
Qed.

End Coherence.

Lemma speaking_flag_matches_mode_witness :
  coherent idle_lip /\
  coherent
    (lip (fst (@run sample_runtime
                 [ EvStart 0; EvGraceTimeout 400;
                   EvFrame 420 0.016 sample_random;
                   EvBoundary 500 "word" 0 2; EvEnd; EvGraceTimeout 900 ]
                 (initial_world sample_rig,
                  speak (list_ascii_of_string "Hi there") None)))).
Proof.
  split; [split; reflexivity|].
  apply (@speaking_flag_matches_mode sample_runtime). split; reflexivity.
Defined.

(** *** Arbitration without a timeline *)

Section NoTimeline.
Context `{Runtime}.

Lemma tick_realtime r now s (T : Targets) :
  lipSyncMode s = realtime -> isSpeaking s = true ->
  lipSyncMode (fst (tickLipSync r now s T)) = realtime /\
  isSpeaking (fst (tickLipSync r now s T)) = true.
Proof.
  intros Hm Hs. unfold tickLipSync. rewrite Hs, Hm. simpl.
  destruct (wordVisemeQueue s) as [|v q]; [auto|].
  destruct (realtime_loop r (v :: q) _ _ T) as [T' t]. simpl.
  destruct (t <? _)%float; simpl; auto.
Qed.

Lemma tick_fallback r now s (T : Targets) :
  lipSyncMode s = fallback -> isSpeaking s = true ->
  fst (tickLipSync r now s T) = s.
Proof.
  intros Hm Hs. unfold tickLipSync. rewrite Hs, Hm. reflexivity.
Qed.

(** No word boundary has arrived for an utterance without a timeline. *)
Lemma step_no_word ev st :
  wordless ev ->
  has_phonemes (phonemeData (snd st)) = false /\ usedBoundary (snd st) = false ->
  has_phonemes (phonemeData (snd (step ev st))) = false /\
  usedBoundary (snd (step ev st)) = false.
Proof.
  destruct st as [w u]. simpl. intros [Hon Hw] (Hp & Hu).
  destruct ev; simpl in Hon, Hw; try contradiction; simpl; unfold lift; simpl.
  - unfold onboundary. rewrite Hp, Hw. simpl. auto.
  - destruct (graceTimers u); simpl; [auto|].
    unfold lift, graceTimeout. simpl. rewrite Hu, Hp. simpl.
    destruct (speechStarted u); simpl; auto.
  - auto.
  - destruct (onFaceResults _ _ _ _). simpl. auto.
  - destruct (blinkTimers (blink w)); simpl; auto.
Qed.

Lemma run_no_word evs : forall st,
  Forall wordless evs ->
  has_phonemes (phonemeData (snd st)) = false /\ usedBoundary (snd st) = false ->
  has_phonemes (phonemeData (snd (run evs st))) = false /\
  usedBoundary (snd (run evs st)) = false.
Proof.
  induction evs as [|ev evs IH]; intros st Hall Hst; [exact Hst|].
  inversion Hall as [|? ? Hev Hevs]; subst.
  simpl. apply IH; [exact Hevs|]. apply step_no_word; assumption.
Qed.

Lemma step_realtime ev st :
  ongoing ev ->
  has_phonemes (phonemeData (snd st)) = false /\ usedBoundary (snd st) = true /\
  lipSyncMode (lip (fst st)) = realtime /\ isSpeaking (lip (fst st)) = true ->
  has_phonemes (phonemeData (snd (step ev st))) = false /\
  usedBoundary (snd (step ev st)) = true /\
  lipSyncMode (lip (fst (step ev st))) = realtime /\
  isSpeaking (lip (fst (step ev st))) = true.
Proof.
  destruct st as [w u]. simpl. intros Hon (Hp & Hu & Hm & Hs).
  destruct ev; simpl in Hon; try contradiction; simpl; unfold lift; simpl.
  - unfold onboundary. rewrite Hp. simpl.
    destruct (String.eqb name "word"); simpl; [|auto].
    rewrite Hu. destruct (trim _); simpl; auto.
  - destruct (graceTimers u); simpl; [auto|].
    unfold lift, graceTimeout. simpl. rewrite Hu. simpl. auto.
  - frame_lip. split; [exact Hp|]. split; [exact Hu|].
    destruct (avatarLoaded w); [|auto]. apply tick_realtime; assumption.
  - destruct (onFaceResults _ _ _ _). simpl. auto.
  - destruct (blinkTimers (blink w)); simpl; auto.
Qed.

Lemma run_realtime evs : forall st,
  Forall ongoing evs ->
  has_phonemes (phonemeData (snd st)) = false /\ usedBoundary (snd st) = true /\
  lipSyncMode (lip (fst st)) = realtime /\ isSpeaking (lip (fst st)) = true ->
  lipSyncMode (lip (fst (run evs st))) = realtime /\
  isSpeaking (lip (fst (run evs st))) = true.
Proof.
  induction evs as [|ev evs IH]; intros st Hall Hst; [tauto|].
  inversion Hall as [|? ? Hev Hevs]; subst.
  simpl. apply IH; [exact Hevs|]. apply step_realtime; assumption.
Qed.

(** X19: For an utterance without a timeline (none received, or an empty
    one) the first word boundary puts the controller into realtime mode,
    whether or not the grace timer has fired before it, and the controller
    is in realtime mode and speaking after every further boundary, timer
    callback, frame or face-tracking result. *)
Theorem word_boundary_starts_realtime (w : World) (txt : list ascii)
  (pd : option PhonemeData) (now0 now1 : float) (ci cl : nat)
  (before after : list Event) :
  has_phonemes pd = false ->
  Forall wordless before -> Forall ongoing after ->
  let st := run after
              (step (EvBoundary now1 "word" ci cl)
                 (run before (step (EvStart now0) (w, speak txt pd)))) in
  lipSyncMode (lip (fst st)) = realtime /\ isSpeaking (lip (fst st)) = true.
Proof.
  intros Hp Hb Ha. cbv zeta.
  apply run_realtime; [exact Ha|].
  assert (H0 : has_phonemes
                 (phonemeData (snd (step (EvStart now0) (w, speak txt pd))))
               = false /\
               usedBoundary (snd (step (EvStart now0) (w, speak txt pd)))
               = false).
  { unfold step, lift, onstart, speak. cbn [fst snd phonemeData].
    rewrite Hp. simpl. auto. }
  pose proof (run_no_word before _ Hb H0) as [H1 H2].
  destruct (run before _) as [w1 u1]. simpl in H1, H2.
  simpl. unfold lift, onboundary. simpl. rewrite H1, H2.
  destruct (trim _); simpl; auto.
Qed.

(** The grace timer is pending and no word boundary has arrived. *)
Lemma step_waiting ev st :
  quiet ev ->
  has_phonemes (phonemeData (snd st)) = false /\ usedBoundary (snd st) = false /\
  speechStarted (snd st) = true /\ graceTimers (snd st) = 1 ->
  has_phonemes (phonemeData (snd (step ev st))) = false /\
  usedBoundary (snd (step ev st)) = false /\
  speechStarted (snd (step ev st)) = true /\
  graceTimers (snd (step ev st)) = 1.
Proof.
  destruct st as [w u]. simpl. intros [[Hon Hw] Hq] (Hp & Hu & Hs & Hg).
  destruct ev; simpl in Hon, Hw, Hq; try contradiction; simpl; unfold lift; simpl.
  - unfold onboundary. rewrite Hp, Hw. simpl. auto.
  - auto.
  - destruct (onFaceResults _ _ _ _). simpl. auto.
  - destruct (blinkTimers (blink w)); simpl; auto.
Qed.

Lemma run_waiting evs : forall st,
  Forall quiet evs ->
  has_phonemes (phonemeData (snd st)) = false /\ usedBoundary (snd st) = false /\
  speechStarted (snd st) = true /\ graceTimers (snd st) = 1 ->
  has_phonemes (phonemeData (snd (run evs st))) = false /\
  usedBoundary (snd (run evs st)) = false /\
  speechStarted (snd (run evs st)) = true /\
  graceTimers (snd (run evs st)) = 1.
Proof.
  induction evs as [|ev evs IH]; intros st Hall Hst; [exact Hst|].
  inversion Hall as [|? ? Hev Hevs]; subst.
  simpl. apply IH; [exact Hevs|]. apply step_waiting; assumption.
Qed.

Lemma step_in_fallback start ev st :
  wordless ev ->
  has_phonemes (phonemeData (snd st)) = false /\ graceTimers (snd st) = 0 /\
  lipSyncMode (lip (fst st)) = fallback /\ isSpeaking (lip (fst st)) = true /\
  lipSyncStartTime (lip (fst st)) = start ->
  has_phonemes (phonemeData (snd (step ev st))) = false /\
  graceTimers (snd (step ev st)) = 0 /\
  lipSyncMode (lip (fst (step ev st))) = fallback /\
  isSpeaking (lip (fst (step ev st))) = true /\
  lipSyncStartTime (lip (fst (step ev st))) = start.
Proof.
  destruct st as [w u]. simpl. intros [Hon Hw] (Hp & Hg & Hm & Hs & Ht).
  destruct ev; simpl in Hon, Hw; try contradiction; simpl; unfold lift; simpl.
  - unfold onboundary. rewrite Hp, Hw. simpl. auto 6.
  - rewrite Hg. simpl. auto 6.
  - frame_lip. split; [exact Hp|]. split; [exact Hg|].
    destruct (avatarLoaded w); [|auto].
    rewrite (tick_fallback _ _ _ _ Hm Hs). auto.
  - destruct (onFaceResults _ _ _ _). simpl. auto 6.
  - destruct (blinkTimers (blink w)); simpl; auto 6.
Qed.

Lemma run_in_fallback start evs : forall st,
  Forall wordless evs ->
  has_phonemes (phonemeData (snd st)) = false /\ graceTimers (snd st) = 0 /\
  lipSyncMode (lip (fst st)) = fallback /\ isSpeaking (lip (fst st)) = true /\
  lipSyncStartTime (lip (fst st)) = start ->
  lipSyncMode (lip (fst (run evs st))) = fallback /\
  isSpeaking (lip (fst (run evs st))) = true /\
  lipSyncStartTime (lip (fst (run evs st))) = start.
Proof.
  induction evs as [|ev evs IH]; intros st Hall Hst; [tauto|].
  inversion Hall as [|? ? Hev Hevs]; subst.
  simpl. apply IH; [exact Hevs|]. apply step_in_fallback; assumption.
Qed.

(** X20: For an utterance without a timeline, the grace timer that fires
    before any word boundary starts the procedural fallback, timed from
    the moment the timer fires; the fallback then never stops by itself:
    it is still running after any number of frames, face-tracking results
    and boundaries other than word boundaries. *)
Theorem grace_timer_starts_fallback (w : World) (txt : list ascii)
  (pd : option PhonemeData) (now0 now1 : float) (before after : list Event) :
  has_phonemes pd = false ->
  Forall quiet before -> Forall wordless after ->
  let st := run after
              (step (EvGraceTimeout now1)
                 (run before (step (EvStart now0) (w, speak txt pd)))) in
  lipSyncMode (lip (fst st)) = fallback /\ isSpeaking (lip (fst st)) = true /\
  lipSyncStartTime (lip (fst st)) = now1.
Proof.
  intros Hp Hb Ha. cbv zeta.
  apply run_in_fallback; [exact Ha|].
  assert (H0 : let st0 := step (EvStart now0) (w, speak txt pd) in
               has_phonemes (phonemeData (snd st0)) = false /\
               usedBoundary (snd st0) = false /\
               speechStarted (snd st0) = true /\ graceTimers (snd st0) = 1).
  { unfold step, lift, onstart, speak. cbn [fst snd phonemeData].
    rewrite Hp. simpl. auto. }
  pose proof (run_waiting before _ Hb H0) as (H1 & H2 & H3 & H4).
  destruct (run before _) as [w1 u1]. simpl in H1, H2, H3, H4.
  simpl. rewrite H4. unfold lift, graceTimeout. simpl.
  rewrite H2, H3, H1, H4. simpl. auto 6.
Qed.

End NoTimeline.

Lemma word_boundary_starts_realtime_witness :
  let before := [ EvFrame 100 0.016 sample_random; EvGraceTimeout 400;
                  EvFrame 420 0.016 sample_random ] in
  let after := [ EvFrame 520 0.016 sample_random; EvBoundary 700 "word" 3 5;
                 EvFrame 5000 0.016 sample_random ] in
  let st := @run sample_runtime after
              (@step sample_runtime (EvBoundary 500 "word" 0 2)
                 (@run sample_runtime before
                    (@step sample_runtime (EvStart 0)
                       (initial_world sample_rig,
                        speak (list_ascii_of_string "Hi there") None)))) in
  lipSyncMode (lip (fst st)) = realtime /\ isSpeaking (lip (fst st)) = true.
Proof.
  cbv zeta.
  apply (@word_boundary_starts_realtime sample_runtime).
  - reflexivity.
  - repeat (constructor; [cbv; auto|]). constructor.
  - repeat (constructor; [exact I|]). constructor.
Defined.

Lemma grace_timer_starts_fallback_witness :
  let before := [ EvFrame 100 0.016 sample_random;
                  EvBoundary 200 "sentence" 0 0 ] in
  let after := [ EvFrame 420 0.016 sample_random; EvGraceTimeout 800;
                 EvFrame 60000 0.016 sample_random ] in
  let st := @run sample_runtime after
              (@step sample_runtime (EvGraceTimeout 400)
                 (@run sample_runtime before
                    (@step sample_runtime (EvStart 0)
                       (initial_world sample_rig,
                        speak (list_ascii_of_string "Hi there") None)))) in
  lipSyncMode (lip (fst st)) = fallback /\ isSpeaking (lip (fst st)) = true /\
  lipSyncStartTime (lip (fst st)) = 400%float.
Proof.
  cbv zeta.
  apply (@grace_timer_starts_fallback sample_runtime).
  - reflexivity.
  - repeat (constructor; [cbv; auto|]). constructor.
  - repeat (constructor; [cbv; auto|]). constructor.
Defined.


(** *** Face tracking *)

(** X21: Whatever the landmarks are, the tracked blink, mouth opening and smile
    are clamped to the interval from 0 to 1 and the tracked brow raise to
    the interval from -0.5 to 1; a value outside its interval can only be
    [NaN], for landmarks that are not numbers. *)
Theorem tracked_values_are_clamped (r : Rig) (speaking : bool)
  (lm : Landmarks) (T : Targets) :
  let f := fst (onFaceResults r speaking (Some lm) T) in
  (exists b, faceTrackBlink f = Some b /\ within 0 1 b) /\
  (exists m, faceTrackMouthOpen f = Some m /\ within 0 1 m) /\
  (exists s, faceTrackSmile f = Some s /\ within 0 1 s) /\
  (exists b, faceTrackBrowRaise f = Some b /\ within (-0.5) 1 b).
Proof.
  unfold onFaceResults. cbn [fst faceTrackBlink faceTrackMouthOpen
    faceTrackSmile faceTrackBrowRaise].
  repeat split; eexists; (split; [reflexivity|]);
    apply clamp_within; reflexivity.
Qed.

(** *** The influences follow the targets *)

Section Influences.
Context `{Runtime}.

Lemma fold_update_influence openRate closeRate (T : Targets)
  (dict : list (string * nat)) : forall influences,
  (forall idx, In idx (map snd dict) ->
     exists x,
       fold_left (update_influence openRate closeRate T) dict influences !! idx
       = Some x /\ within 0 1 x) /\
  (forall idx, ~ In idx (map snd dict) ->
     fold_left (update_influence openRate closeRate T) dict influences !! idx
     = influences !! idx).
Proof.
  induction dict as [|[name idx0] dict IH] using rev_ind; intros influences.
  - split; [intros idx []|reflexivity].
  - rewrite fold_left_app. cbn [fold_left update_influence].
    destruct (IH influences) as [IH1 IH2].
    rewrite map_app. cbn [map snd]. split.
    + intros idx Hin. destruct (decide (idx = idx0)) as [->|Hne].
      * rewrite lookup_insert_eq. eexists. split; [reflexivity|].
        apply clamp_within; reflexivity.
      * rewrite lookup_insert_ne by congruence. apply IH1.
        apply in_app_or in Hin as [Hin|[Hin|[]]]; [exact Hin|congruence].
    + intros idx Hnin. rewrite lookup_insert_ne.
      * apply IH2. intros Hin. apply Hnin, in_or_app. left. exact Hin.
      * intros ->. apply Hnin, in_or_app. right. left. reflexivity.
Qed.

(** X22: When there is a rig, [updateMorphTargets] leaves every mesh in its
    place and gives a mesh that has a dictionary and influences an
    influence between 0 and 1 (or [NaN]) at every index of the dictionary,
    whatever the influence was before and whatever the target is; the
    influences at other indices are not touched. *)
Theorem influences_are_clamped (r : Rig) (delta : float) (T : Targets)
  (allMorphMeshes : list Mesh) (i : nat) (mesh : Mesh)
  (dict : list (string * nat)) (influences : gmap nat float) :
  is_Some (morphDict r) ->
  allMorphMeshes !! i = Some mesh ->
  morphTargetDictionary mesh = Some dict ->
  morphTargetInfluences mesh = Some influences ->
  exists influences',
    updateMorphTargets r delta T allMorphMeshes !! i
    = Some {| morphTargetDictionary := Some dict;
              morphTargetInfluences := Some influences' |} /\
    (forall idx, In idx (map snd dict) ->
       exists x, influences' !! idx = Some x /\ within 0 1 x) /\
    (forall idx, ~ In idx (map snd dict) ->
       influences' !! idx = influences !! idx).
Proof.
  intros [d Hd] Hi Hdict Hinf. unfold updateMorphTargets. rewrite Hd.
  rewrite list_lookup_fmap, Hi. cbn [fmap option_fmap option_map].
  rewrite Hdict, Hinf. eexists. split; [reflexivity|].
  apply fold_update_influence.
Qed.

End Influences.

Lemma influences_are_clamped_witness :
  exists influences',
    @updateMorphTargets sample_runtime sample_rig 0.016 ∅ [sample_mesh] !! 0%nat
    = Some {| morphTargetDictionary := morphTargetDictionary sample_mesh;
              morphTargetInfluences := Some influences' |} /\
    (forall idx,
       In idx (map snd [ ("jawOpen"%string, 0%nat); ("mouthSmileLeft"%string, 1%nat) ]) ->
       exists x, influences' !! idx = Some x /\ within 0 1 x) /\
    (forall idx,
       ~ In idx (map snd [ ("jawOpen"%string, 0%nat); ("mouthSmileLeft"%string, 1%nat) ]) ->
       influences' !! idx
       = ({[ 0%nat := 0.5%float; 1%nat := 7%float; 2%nat := 9%float ]}
            : gmap nat float) !! idx).
Proof.
  apply (@influences_are_clamped sample_runtime sample_rig 0.016%float ∅
           [sample_mesh] 0%nat sample_mesh).
  - eexists. reflexivity.
  - reflexivity.
  - reflexivity.
  - reflexivity.
Defined.

(** *** [wordToVisemes] *)

Lemma table_get_Forall {V} (P : V -> Prop) (t : list (string * V)) k v :
  Forall (fun kv => P (snd kv)) t -> table_get t k = Some v -> P v.
Proof.
  induction 1 as [|[k' v'] t' Hkv _ IH]; simpl; [discriminate|].
  destruct (String.eqb k' k); [|exact IH].
  intros [= <-]. exact Hkv.
Qed.

Lemma CHAR_VISEME_values :
  Forall (fun kv => In (snd kv) OCULUS_VISEMES /\
                    snd kv <> "viseme_sil"%string) CHAR_VISEME.
Proof.
  assert (Hb : forallb (fun kv => existsb (String.eqb (snd kv)) OCULUS_VISEMES
                                  && negb (String.eqb (snd kv) "viseme_sil"))
                 CHAR_VISEME = true) by reflexivity.
  rewrite forallb_forall in Hb. apply List.Forall_forall. intros kv Hin.
  specialize (Hb kv Hin). apply andb_prop in Hb as [H1 H2]. split.
  - apply existsb_exists in H1 as (x & Hx & E).
    apply String.eqb_eq in E. rewrite E. exact Hx.
  - intros E. rewrite E in H2. discriminate H2.
Qed.

Lemma word_loop_shape : forall w result,
  exists added,
    word_loop w result = result ++ added /\
    length added <= length w /\
    Forall word_viseme_shape added.
Proof.
  intros w. induction w as [|c rest IH1 IH2] using ServerFacts.scan_chars_ind;
    intros result.
  - exists []. rewrite app_nil_r. simpl. auto.
  - cbn [word_loop].
    set (di := match rest with
               | c2 :: _ => String c (String c2 EmptyString)
               | [] => EmptyString
               end).
    destruct (match table_get CHAR_VISEME di with
              | Some v => Some v
              | None => table_get CHAR_VISEME (String c EmptyString)
              end) as [v|] eqn:Ev.
    + assert (Hv : In v OCULUS_VISEMES /\ v <> "viseme_sil"%string).
      { destruct (table_get CHAR_VISEME di) as [v'|] eqn:Ed.
        - injection Ev as <-.
          exact (table_get_Forall
                   (fun x => In x OCULUS_VISEMES /\ x <> "viseme_sil"%string)
                   _ _ _ CHAR_VISEME_values Ed).
        - exact (table_get_Forall
                   (fun x => In x OCULUS_VISEMES /\ x <> "viseme_sil"%string)
                   _ _ _ CHAR_VISEME_values Ev). }
      set (e := {| w_viseme := v;
                   w_duration := if is_vowel c then (BASE * 1.5)%float
                                 else (BASE * 0.9)%float;
                   w_intensity := if is_vowel c then 1.0%float
                                  else 0.75%float |}).
      assert (He : word_viseme_shape e).
      { destruct Hv as [Hv1 Hv2]. split; [exact Hv1|]. split; [exact Hv2|].
        unfold e. simpl. destruct (is_vowel c); auto. }
      destruct rest as [|c2 rest2].
      * exists [e]. simpl. split; [reflexivity|]. split; [lia|].
        constructor; [exact He|constructor].
      * destruct (table_has CHAR_VISEME di).
        -- destruct (IH2 c2 rest2 eq_refl (result ++ [e]))
             as (added & E & Hlen & Hall).
           exists (e :: added). rewrite E, <- app_assoc. simpl.
           split; [reflexivity|]. split; [lia|]. constructor; assumption.
        -- destruct (IH1 (result ++ [e])) as (added & E & Hlen & Hall).
           exists (e :: added). rewrite E, <- app_assoc. simpl in *.
           split; [reflexivity|]. split; [lia|]. constructor; assumption.
    + destruct (IH1 result) as (added & E & Hlen & Hall).
      exists added. split; [exact E|]. split; [simpl; lia|exact Hall].
Qed.

(** X23: Every entry of the queue that [wordToVisemes] builds for a word names
    one of the Oculus visemes, never the silence, and is held for
    0.075 * 1.5 s at full intensity (a vowel) or for 0.075 * 0.9 s at
    intensity 0.75 (a consonant); the queue has at most one entry per
    letter a-z of the word, so a word without letters gives an empty
    queue. *)
Theorem wordToVisemes_shape (word : list ascii) :
  Forall word_viseme_shape (wordToVisemes word) /\
  length (wordToVisemes word)
  <= length (List.filter is_lower (toLowerCase word)).
Proof.
  unfold wordToVisemes.
  destruct (word_loop_shape (List.filter is_lower (toLowerCase word)) [])
    as (added & E & Hlen & Hall).
  rewrite E. simpl. split; assumption.
Qed.

(** *** The capabilities of a detected rig *)

Lemma existsb_elements (p : string -> bool) (d : gset string) :
  existsb p (elements d) = true <-> exists k, k ∈ d /\ p k = true.
Proof.
  rewrite existsb_exists. split; intros (k & Hk & Hp); exists k; split;
    try exact Hp.
  - apply elem_of_elements, list_elem_of_In, Hk.
  - apply list_elem_of_In, elem_of_elements, Hk.
Qed.

Lemma viseme_not_inherited k :
  String.prefix "viseme_" k = true -> inherited k = false.
Proof.
  intros Hp. destruct (inherited k) eqn:Hi; [|reflexivity].
  unfold inherited in Hi. apply existsb_exists in Hi as (x & Hx & E).
  apply String.eqb_eq in E. subst x.
  simpl in Hx. repeat destruct Hx as [<-|Hx]; try discriminate Hp.
  contradiction.
Qed.

(** X24: A rig as [detectMorphCapabilities] describes it has Oculus visemes
    exactly when one of its channels starts with [viseme_], and ARKit
    morphs exactly when it has the channel [jawOpen] or [mouthSmileLeft];
    a viseme that is a channel of such a rig is written to that channel
    itself, max-combined, whatever ARKit channels the rig has as well. *)
Theorem detected_rig_prefers_oculus (d : gset string) :
  (hasOculusVisemes (detectMorphCapabilities d) = true <->
   exists k, k ∈ d /\ String.prefix "viseme_" k = true) /\
  (hasARKitMorphs (detectMorphCapabilities d) = true <->
   "jawOpen"%string ∈ d \/ "mouthSmileLeft"%string ∈ d) /\
  (forall v i (T : Targets),
     v ∈ d -> String.prefix "viseme_" v = true ->
     applyViseme (detectMorphCapabilities d) v i T
     = <[v := Math_max (target_or_zero T v) i]> T).
Proof.
  assert (Hoculus : hasOculusVisemes (detectMorphCapabilities d) = true <->
                    exists k, k ∈ d /\ String.prefix "viseme_" k = true).
  { unfold detectMorphCapabilities. cbn [hasOculusVisemes].
    rewrite existsb_elements. split; intros (k & Hk & Hp); exists k.
    - apply elem_of_filter in Hk. tauto.
    - split; [|exact Hp]. apply elem_of_filter.
      split; [apply viseme_not_inherited, Hp|exact Hk]. }
  split; [exact Hoculus|split].
  - unfold detectMorphCapabilities. cbn [hasARKitMorphs].
    rewrite existsb_elements. split.
    + intros (k & Hk & Hp). apply elem_of_filter in Hk as [_ Hk].
      apply orb_prop in Hp as [Hp|Hp];
        apply String.eqb_eq in Hp; subst k; auto.
    + intros [Hk|Hk]; eexists;
        (split; [apply elem_of_filter; split; [|exact Hk]|]); reflexivity.
  - intros v i T Hv Hp.
    assert (Ho : hasOculusVisemes (detectMorphCapabilities d) = true)
      by (apply Hoculus; exists v; split; assumption).
    pose proof (viseme_not_inherited v Hp) as Hi.
    assert (Hkey : v ∈ filter (fun name => inherited name = false) d)
      by (apply elem_of_filter; split; assumption).
    unfold applyViseme. rewrite Ho.
    change (morphDict (detectMorphCapabilities d))
      with (Some (filter (fun name => inherited name = false) d)).
    cbv beta iota. rewrite (in_dict_key _ _ Hkey). cbn [andb].
    apply (setMorph_key (detectMorphCapabilities d)
             (filter (fun name => inherited name = false) d));
      [reflexivity|exact Hkey].
Qed.

Lemma detected_rig_prefers_oculus_witness :
  applyViseme
    (detectMorphCapabilities (list_to_set [ "viseme_aa"; "jawOpen" ]%string))
    "viseme_aa" 0.8 ∅
  = <["viseme_aa"%string := Math_max (target_or_zero ∅ "viseme_aa") 0.8]>
      (∅ : Targets).
Proof.
  apply (proj2 (proj2 (detected_rig_prefers_oculus
                         (list_to_set [ "viseme_aa"; "jawOpen" ]%string)))).
  - vm_compute. reflexivity.
  - reflexivity.
Defined.

(** *** The timeline after its last event *)

Section TimelineTail.
Context `{Runtime}.

Lemma timeline_loop_past r phs : forall elapsed (T : Targets),
  Forall (fun ph => (elapsed <? time ph + duration ph)%float = false) phs ->
  timeline_loop r phs elapsed T = T.
Proof.
  induction phs as [|ph rest IH]; intros elapsed T Hall; [reflexivity|].
  inversion Hall as [|? ? Hph Hrest]; subst.
  cbn [timeline_loop]. cbv zeta. rewrite Hph, !andb_false_r.
  apply IH, Hrest.
Qed.

(** X25: Once the playback time has reached the end of every event of the
    timeline, the lip-sync tick adds nothing to the accumulator, whether
    it stops the timeline at that frame or not: between the last event and
    the automatic stop the mouth gets no contribution. *)
Theorem timeline_adds_nothing_after_last_event (r : Rig) (now : float)
  (s : LipSync) (T : Targets) (pd : PhonemeData) :
  lipSyncMode s = timeline -> currentPhonemes s = Some pd ->
  Forall (fun ph =>
            ((now - lipSyncStartTime s) / 1000 <? time ph + duration ph)%float
            = false) (phonemes pd) ->
  snd (tickLipSync r now s T) = T.
Proof.
  intros Hm Hc Hall. unfold tickLipSync.
  destruct (isSpeaking s); [|reflexivity]. cbn [negb]. rewrite Hm.
  destruct (timeline_complete s _); [reflexivity|].
  rewrite Hc. cbn [snd]. apply timeline_loop_past, Hall.
Qed.

End TimelineTail.

Lemma timeline_adds_nothing_after_last_event_witness :
  let pd := Server.generatePhonemeData "a" in
  let s := startLipSyncFromTimeline 0 (Some pd) idle_lip in
  let T := resetMorphTargets {[ "jawOpen"%string := 0.8%float ]} in
  timeline_complete s ((200 - lipSyncStartTime s) / 1000)%float = false /\
  snd (@tickLipSync sample_runtime sample_rig 200 s T) = T.
Proof.
  cbv zeta. split; [reflexivity|].
  apply (@timeline_adds_nothing_after_last_event sample_runtime sample_rig
           200%float _ _ (Server.generatePhonemeData "a")).
  - reflexivity.
  - reflexivity.
  - repeat (constructor; [reflexivity|]). constructor.
Defined.


(** *** Emotion blending *)

Lemma table_get_obj_set_eq (o : Obj) k v : table_get (obj_set o k v) k = Some v.
Proof.
  induction o as [|[k' v'] o IH]; simpl.
  - rewrite String.eqb_refl. reflexivity.
  - destruct (String.eqb k' k) eqn:E; simpl.
    + rewrite String.eqb_refl. reflexivity.
    + rewrite E. exact IH.
Qed.

Lemma table_get_obj_set_ne (o : Obj) k k' v :
  k' <> k -> table_get (obj_set o k v) k' = table_get o k'.
Proof.
  intros Hne. induction o as [|[k0 v0] o IH]; simpl.
  - destruct (String.eqb k k') eqn:E; [|reflexivity].
    apply String.eqb_eq in E. congruence.
  - destruct (String.eqb k0 k) eqn:E; simpl.
    + apply String.eqb_eq in E. subst k0.
      destruct (String.eqb k k') eqn:E'; [|reflexivity].
      apply String.eqb_eq in E'. congruence.
    + destruct (String.eqb k0 k'); [reflexivity|exact IH].
Qed.

Lemma table_get_obj_delete_ne (o : Obj) k k' :
  k' <> k -> table_get (obj_delete o k) k' = table_get o k'.
Proof.
  intros Hne. induction o as [|[k0 v0] o IH]; simpl; [reflexivity|].
  destruct (String.eqb k0 k) eqn:E; simpl.
  - apply String.eqb_eq in E. subst k0.
    destruct (String.eqb k k') eqn:E'; [|reflexivity].
    apply String.eqb_eq in E'. congruence.
  - destruct (String.eqb k0 k'); [reflexivity|exact IH].
Qed.

Lemma table_get_key {A} (o : list (string * A)) k :
  table_get o k = None <-> ~ In k (map fst o).
Proof.
  induction o as [|[k0 v0] o IH]; simpl; [tauto|].
  destruct (String.eqb k0 k) eqn:E.
  - apply String.eqb_eq in E. split; [discriminate|]. intros Hn.
    exfalso. apply Hn. left. exact E.
  - apply String.eqb_neq in E. rewrite IH. tauto.
Qed.

Lemma table_get_obj_delete_eq (o : Obj) k :
  List.NoDup (map fst o) -> table_get (obj_delete o k) k = None.
Proof.
  induction o as [|[k0 v0] o IH]; simpl; intros Hnd; [reflexivity|].
  inversion Hnd as [|? ? Hnin Hnd']; subst.
  destruct (String.eqb k0 k) eqn:E; simpl.
  - apply String.eqb_eq in E. subst k0. apply table_get_key, Hnin.
  - rewrite E. apply IH, Hnd'.
Qed.

Lemma obj_set_keys (o : Obj) k v :
  List.NoDup (map fst o) -> List.NoDup (map fst (obj_set o k v)).
Proof.
  induction o as [|[k0 v0] o IH]; simpl; intros Hnd.
  - constructor; [intros []|constructor].
  - inversion Hnd as [|? ? Hnin Hnd']; subst.
    destruct (String.eqb k0 k) eqn:E; simpl.
    + apply String.eqb_eq in E. subst k0. constructor; assumption.
    + constructor; [|apply IH, Hnd'].
      apply table_get_key. rewrite table_get_obj_set_ne.
      * apply table_get_key, Hnin.
      * apply String.eqb_neq, E.
Qed.

Lemma obj_delete_keys (o : Obj) k :
  List.NoDup (map fst o) -> List.NoDup (map fst (obj_delete o k)).
Proof.
  induction o as [|[k0 v0] o IH]; simpl; intros Hnd; [constructor|].
  inversion Hnd as [|? ? Hnin Hnd']; subst.
  destruct (String.eqb k0 k) eqn:E; simpl; [exact Hnd'|].
  constructor; [|apply IH, Hnd'].
  apply table_get_key. rewrite table_get_obj_delete_ne.
  - apply table_get_key, Hnin.
  - apply String.eqb_neq, E.
Qed.

Lemma obj_or_zero_get (o o' : Obj) k :
  table_get o' k = table_get o k -> obj_or_zero o' k = obj_or_zero o k.
Proof. unfold obj_or_zero. intros ->. reflexivity. Qed.

Section Emotion.
Context `{Runtime}.

(** The first loop of [updateEmotionMorphs], over the names of the target
    map. *)
Lemma blend_loop r (tgt : Obj) (rate : float) (names : list string) :
  List.NoDup names -> forall (c : Obj) (T : Targets),
  let st := fold_left
      (fun (st : Obj * Targets) (name : string) =>
         let '(currentEmotion, T) := st in
         let target := obj_or_zero tgt name in
         let v := (obj_or_zero currentEmotion name
                   + (target - obj_or_zero currentEmotion name) * rate)%float in
         (obj_set currentEmotion name v, setMorph r name v T))
      names (c, T) in
  (List.NoDup (map fst c) -> List.NoDup (map fst (fst st))) /\
  forall k,
    table_get (fst st) k =
    if in_dec string_dec k names
    then Some (obj_or_zero c k + (obj_or_zero tgt k - obj_or_zero c k) * rate)%float
    else table_get c k.
Proof.
  induction 1 as [|n names Hnin Hnd IH]; intros c T; cbn [fold_left].
  - cbv zeta. split; [auto|]. intros k. reflexivity.
  - cbv zeta in *.
    set (v := (obj_or_zero c n + (obj_or_zero tgt n - obj_or_zero c n) * rate)%float).
    destruct (IH (obj_set c n v) (setMorph r n v T)) as [IHa IHb].
    split; [intros Hc; apply IHa, obj_set_keys, Hc|].
    intros k. rewrite IHb.
    destruct (in_dec string_dec k names) as [Hin|Hnin'].
    + assert (Hne : k <> n) by (intros ->; contradiction).
      rewrite (obj_or_zero_get c (obj_set c n v) k)
        by (apply table_get_obj_set_ne, Hne).
      destruct (in_dec string_dec k (n :: names)) as [_|Hc]; [reflexivity|].
      exfalso. apply Hc. right. exact Hin.
    + destruct (in_dec string_dec k (n :: names)) as [[->|Hin]|Hc].
      * apply table_get_obj_set_eq.
      * contradiction.
      * apply table_get_obj_set_ne. intros ->. apply Hc. left. reflexivity.
Qed.

(** The second loop, over the names of [currentEmotion]. *)
Lemma decay_loop r (tgt : Obj) (rate : float) (names : list string) :
  List.NoDup names -> forall (c : Obj) (T : Targets),
  List.NoDup (map fst c) ->
  forall k,
    table_get
      (fst (fold_left
         (fun (st : Obj * Targets) (name : string) =>
            let '(currentEmotion, T) := st in
            if table_has tgt name then st
            else match table_get currentEmotion name with
                 | Some x =>
                     let v := (x * (1 - rate))%float in
                     if (v <? 0.005)%float
                     then (obj_delete currentEmotion name, T)
                     else (obj_set currentEmotion name v, setMorph r name v T)
                 | None => st
                 end)
         names (c, T))) k =
    if in_dec string_dec k names then
      if table_has tgt k then table_get c k
      else match table_get c k with
           | Some x => if (x * (1 - rate) <? 0.005)%float then None
                       else Some (x * (1 - rate))%float
           | None => None
           end
    else table_get c k.
Proof.
  induction 1 as [|n names Hnin Hnd IH]; intros c T Hc k; cbn [fold_left].
  - reflexivity.
  - assert (Hstep : exists c1 T1,
       (if table_has tgt n then (c, T)
        else match table_get c n with
             | Some x =>
                 if (x * (1 - rate) <? 0.005)%float then (obj_delete c n, T)
                 else (obj_set c n (x * (1 - rate))%float,
                       setMorph r n (x * (1 - rate))%float T)
             | None => (c, T)
             end) = (c1, T1) /\
       List.NoDup (map fst c1) /\
       (forall k', k' <> n -> table_get c1 k' = table_get c k') /\
       table_get c1 n =
         if table_has tgt n then table_get c n
         else match table_get c n with
              | Some x => if (x * (1 - rate) <? 0.005)%float then None
                          else Some (x * (1 - rate))%float
              | None => None
              end).
    { destruct (table_has tgt n); [exists c, T; auto|].
      destruct (table_get c n) as [x|] eqn:Ex; [|exists c, T; auto].
      destruct (x * (1 - rate) <? 0.005)%float.
      - exists (obj_delete c n), T. split; [reflexivity|].
        split; [apply obj_delete_keys, Hc|]. split.
        + intros k' Hne. apply table_get_obj_delete_ne, Hne.
        + apply table_get_obj_delete_eq, Hc.
      - eexists _, _. split; [reflexivity|].
        split; [apply obj_set_keys, Hc|]. split.
        + intros k' Hne. apply table_get_obj_set_ne, Hne.
        + apply table_get_obj_set_eq. }
    destruct Hstep as (c1 & T1 & E & Hc1 & Hother & Hn).
    cbv beta iota zeta in IH |- *. rewrite E, (IH c1 T1 Hc1 k).
    destruct (in_dec string_dec k names) as [Hin|Hnin'].
    + assert (Hne : k <> n) by (intros ->; contradiction).
      rewrite (Hother k Hne).
      destruct (in_dec string_dec k (n :: names)) as [_|Hc']; [reflexivity|].
      exfalso. apply Hc'. right. exact Hin.
    + destruct (in_dec string_dec k (n :: names)) as [[->|Hin]|Hc'].
      * exact Hn.
      * contradiction.
      * apply Hother. intros ->. apply Hc'. left. reflexivity.
Qed.

(** X26: One update of the emotion morphs, channel by channel: a channel of
    the target map moves from its current value (0 when it has none) toward
    its target by the fraction [rate = 1 - exp(-5 delta)] of the distance;
    a channel that is no longer targeted is multiplied by [1 - rate] and
    removed from [currentEmotion] once the product is below 0.005; no
    other channel appears. *)
Theorem emotion_update_by_channel (r : Rig) (delta : float)
  (emotionTargetMap currentEmotion : Obj) (T : Targets) (name : string) :
  List.NoDup (map fst emotionTargetMap) -> List.NoDup (map fst currentEmotion) ->
  let rate := (1 - Math_exp (-5 * delta))%float in
  table_get
    (fst (updateEmotionMorphs r delta emotionTargetMap (currentEmotion, T)))
    name =
  match table_get emotionTargetMap name with
  | Some target =>
      Some (obj_or_zero currentEmotion name
            + (or_else target 0 - obj_or_zero currentEmotion name) * rate)%float
  | None =>
      match table_get currentEmotion name with
      | Some x => if (x * (1 - rate) <? 0.005)%float then None
                  else Some (x * (1 - rate))%float
      | None => None
      end
  end.
Proof.
  intros Ht Hc. cbv zeta. unfold updateEmotionMorphs. cbv zeta.
  pose proof (blend_loop r emotionTargetMap (1 - Math_exp (-5 * delta))%float
                (map fst emotionTargetMap) Ht currentEmotion T) as Hb.
  cbv zeta in Hb.
  match type of Hb with
  | context [fst (fold_left ?f ?l ?s)] => set (st1 := fold_left f l s) in *
  end.
  destruct Hb as [Hk1 Hg1]. specialize (Hk1 Hc).
  destruct st1 as [c1 T1] eqn:E1. cbn [fst] in *.
  rewrite (decay_loop r emotionTargetMap (1 - Math_exp (-5 * delta))%float
             (map fst c1) Hk1 c1 T1 Hk1 name).
  unfold table_has.
  destruct (table_get emotionTargetMap name) as [target|] eqn:Et.
  - assert (Hv : table_get c1 name
                 = Some (obj_or_zero currentEmotion name
                         + (or_else target 0 - obj_or_zero currentEmotion name)
                           * (1 - Math_exp (-5 * delta)))%float).
    { rewrite Hg1.
      destruct (in_dec string_dec name (map fst emotionTargetMap)) as [_|Hn].
      - unfold obj_or_zero at 2 3. rewrite Et. reflexivity.
      - apply table_get_key in Hn. congruence. }
    destruct (in_dec string_dec name (map fst c1)); exact Hv.
  - assert (Hv : table_get c1 name = table_get currentEmotion name).
    { rewrite Hg1.
      destruct (in_dec string_dec name (map fst emotionTargetMap)) as [Hi|_];
        [|reflexivity].
      exfalso. revert Hi. apply table_get_key, Et. }
    destruct (in_dec string_dec name (map fst c1)) as [Hi1|Hn1];
      rewrite Hv; [reflexivity|].
    apply table_get_key in Hn1. rewrite Hv in Hn1. rewrite Hn1. reflexivity.
Qed.

End Emotion.

Lemma emotion_update_by_channel_witness :
  table_get
    (fst (@updateEmotionMorphs sample_runtime sample_rig 0.016
            (setEmotion "happy") ([("browInnerUp"%string, 0.35%float)], ∅)))
    "browInnerUp"%string =
  match table_get (setEmotion "happy") "browInnerUp"%string with
  | Some target =>
      Some (obj_or_zero [("browInnerUp"%string, 0.35%float)] "browInnerUp"
            + (or_else target 0
               - obj_or_zero [("browInnerUp"%string, 0.35%float)] "browInnerUp")
              * (1 - @Math_exp sample_runtime (-5 * 0.016)))%float
  | None =>
      match table_get [("browInnerUp"%string, 0.35%float)] "browInnerUp"%string with
      | Some x =>
          if (x * (1 - (1 - @Math_exp sample_runtime (-5 * 0.016))) <? 0.005)%float
          then None
          else Some (x * (1 - (1 - @Math_exp sample_runtime (-5 * 0.016))))%float
      | None => None
      end
  end.
Proof.
  apply (@emotion_update_by_channel sample_runtime sample_rig 0.016%float
           (setEmotion "happy") [("browInnerUp"%string, 0.35%float)] ∅
           "browInnerUp"%string).
  - unfold setEmotion. simpl.
    repeat (constructor; [simpl; intuition discriminate|]). constructor.
  - repeat (constructor; [simpl; intuition discriminate|]). constructor.
Defined.


(** *** The queue of word visemes and the promise of [speak] *)

Lemma wordToVisemes_entries word : Forall word_viseme_shape (wordToVisemes word).
Proof.
  unfold wordToVisemes.
  destruct (word_loop_shape (List.filter is_lower (toLowerCase word)) [])
    as (added & E & _ & Hall).
  rewrite E. exact Hall.
Qed.

Section Queue.
Context `{Runtime}.

Lemma tick_queue r now s (T : Targets) :
  Forall word_viseme_shape (wordVisemeQueue s) ->
  Forall word_viseme_shape (wordVisemeQueue (fst (tickLipSync r now s T))).
Proof.
  intros Hq. unfold tickLipSync. destruct (isSpeaking s); simpl; [|exact Hq].
  destruct (lipSyncMode s); simpl; try exact Hq.
  - destruct (wordVisemeQueue s) as [|v q] eqn:Eq;
      [simpl; rewrite ?Eq; constructor|].
    destruct (realtime_loop r (v :: q) _ _ T) as [T' t]. simpl.
    destruct (t <? _)%float; simpl; rewrite ?Eq; [constructor|exact Hq].
  - destruct (timeline_complete s _); simpl; [constructor|].
    destruct (currentPhonemes s); exact Hq.
Qed.

Lemma step_queue ev st :
  Forall word_viseme_shape (wordVisemeQueue (lip (fst st))) ->
  Forall word_viseme_shape (wordVisemeQueue (lip (fst (step ev st)))).
Proof.
  destruct st as [w u]. simpl. intros Hq.
  destruct ev; simpl; unfold lift; simpl.
  - unfold onstart. destruct (has_phonemes (phonemeData u)); simpl;
      [constructor|exact Hq].
  - unfold onboundary. destruct (has_phonemes (phonemeData u)); simpl;
      [exact Hq|].
    destruct (String.eqb name "word"); simpl; [|exact Hq].
    destruct (trim _) as [|c word] eqn:Et; simpl.
    + destruct (usedBoundary u); [exact Hq|constructor].
    + apply wordToVisemes_entries.
  - destruct (graceTimers u); simpl; [exact Hq|].
    unfold lift, graceTimeout. simpl.
    destruct (negb (usedBoundary u) && speechStarted u); simpl; [|exact Hq].
    destruct (has_phonemes (phonemeData u)); simpl; constructor.
  - constructor.
  - constructor.
  - frame_lip. destruct (avatarLoaded w); [|exact Hq].
    apply tick_queue, Hq.
  - destruct (onFaceResults _ _ _ _). simpl. exact Hq.
  - destruct (blinkTimers (blink w)); simpl; exact Hq.
Qed.

(** X27: Whatever events arrive, the queue of word visemes only holds entries
    as [wordToVisemes] builds them: each has a duration of 0.075 * 1.5 s
    or 0.075 * 0.9 s, so the realtime tick never divides by a duration of
    zero, and starting or stopping lip sync empties the queue. *)
Theorem word_queue_entries_are_well_formed (evs : list Event) : forall st,
  Forall word_viseme_shape (wordVisemeQueue (lip (fst st))) ->
  Forall word_viseme_shape (wordVisemeQueue (lip (fst (run evs st)))) /\
  Forall (fun v => (w_duration v =? 0)%float = false)
         (wordVisemeQueue (lip (fst (run evs st)))).
Proof.
  assert (Hrun : forall evs st,
             Forall word_viseme_shape (wordVisemeQueue (lip (fst st))) ->
             Forall word_viseme_shape
               (wordVisemeQueue (lip (fst (run evs st))))).
  { clear evs. induction evs as [|ev evs IH]; intros st Hq; [exact Hq|].
    simpl. apply IH, step_queue, Hq. }
  intros st Hq. split; [apply Hrun, Hq|].
  eapply List.Forall_impl; [|apply Hrun, Hq].
  intros v (_ & _ & [[Hd _]|[Hd _]]); rewrite Hd; reflexivity.
Qed.

Lemma step_resolved ev st :
  resolved (snd (step ev st)) = resolved (snd st) || is_end ev.
Proof.
  destruct st as [w u].
  destruct ev; simpl; unfold lift; simpl; rewrite ?orb_false_r, ?orb_true_r;
    try reflexivity.
  - unfold onstart. destruct (has_phonemes (phonemeData u)); reflexivity.
  - unfold onboundary. destruct (has_phonemes (phonemeData u)); [reflexivity|].
    destruct (String.eqb name "word"); [|reflexivity].
    destruct (trim _); reflexivity.
  - destruct (graceTimers u); [reflexivity|]. unfold lift, graceTimeout. simpl.
    destruct (negb (usedBoundary u) && speechStarted u); [|reflexivity].
    destruct (has_phonemes (phonemeData u)); reflexivity.
  - destruct (onFaceResults _ _ _ _). reflexivity.
  - destruct (blinkTimers (blink w)); reflexivity.
Qed.

(** X28: The promise that [speak] returns is resolved by the end of the
    utterance ([onend] or [onerror]) and by nothing else: not by the
    timeline that stops by itself, nor by the grace timer. *)
Theorem speak_resolves_at_end_only (evs : list Event) (w : World)
  (txt : list ascii) (pd : option PhonemeData) :
  resolved (snd (run evs (w, speak txt pd))) = existsb is_end evs.
Proof.
  assert (Hrun : forall evs st,
             resolved (snd (run evs st)) = resolved (snd st) || existsb is_end evs).
  { clear evs. induction evs as [|ev evs IH]; intros st; simpl.
    - rewrite orb_false_r. reflexivity.
    - rewrite IH, step_resolved, orb_assoc. reflexivity. }
  rewrite Hrun. reflexivity.
Qed.

End Queue.

Lemma word_queue_entries_are_well_formed_witness :
  Forall word_viseme_shape (wordVisemeQueue idle_lip) /\
  Forall word_viseme_shape
    (wordVisemeQueue
       (lip (fst (@run sample_runtime
                    [ EvStart 0; EvBoundary 50 "word" 0 2;
                      EvFrame 60 0.016 sample_random ]
                    (initial_world sample_rig,
                     speak (list_ascii_of_string "Hi there") None))))) /\
  Forall (fun v => (w_duration v =? 0)%float = false)
    (wordVisemeQueue
       (lip (fst (@run sample_runtime
                    [ EvStart 0; EvBoundary 50 "word" 0 2;
                      EvFrame 60 0.016 sample_random ]
                    (initial_world sample_rig,
                     speak (list_ascii_of_string "Hi there") None))))).
Proof.
  split; [constructor|].
  apply (@word_queue_entries_are_well_formed sample_runtime). constructor.
Defined.

(** *** From the server's timeline to the client's mode *)

Section ServerTimeline.
Context `{Runtime}.

(** X29: When speech starts for a text [t] with the timeline that the server
    generates for [t]: if [t] has a character that the generator reads,
    the controller plays that timeline from the start time on and arms no
    grace timer; if it has none (digits only, say), the timeline is empty,
    the controller is left as it was and the grace timer is armed, so that
    word boundaries or the fallback move the mouth. *)
Theorem speech_start_with_server_timeline (w : World) (t : string)
  (now0 : float) :
  let pd := Server.generatePhonemeData t in
  let st := step (EvStart now0)
              (w, speak (list_ascii_of_string t) (Some pd)) in
  if TimelineSpec.speakable t
  then lipSyncMode (lip (fst st)) = timeline /\
       isSpeaking (lip (fst st)) = true /\
       currentPhonemes (lip (fst st)) = Some pd /\
       lipSyncStartTime (lip (fst st)) = now0 /\
       graceTimers (snd st) = 0
  else lip (fst st) = lip w /\ phonemes pd = [] /\ graceTimers (snd st) = 1.
Proof.
  cbv zeta. unfold step, lift, onstart, speak.
  cbn [fst snd phonemeData graceTimers usedBoundary resolved has_phonemes].
  pose proof (ServerExtras.phonemes_speakable t) as Hs.
  rewrite Hs.
  destruct (TimelineSpec.speakable t).
  - simpl. auto 6.
  - simpl. split; [reflexivity|]. split; [|reflexivity].
    destruct (phonemes (Server.generatePhonemeData t)); [reflexivity|].
    discriminate Hs.
Qed.

End ServerTimeline.

End ClientExtras.
